(** * The Relay ONNX frontend (python/tvm/relay/frontend/onnx.py)

    A shallow embedding of the importer's control skeleton: the input-list
    wrapper [onnx_input], the versioned converter lookup
    [OnnxOpConverter.get_converter], the graph importer
    [GraphProto.from_onnx] with its output reconciliation, and the two
    control-flow converters [If] and [Loop].

    Python exceptions are values of [exn]; a computation that may raise
    returns [result A].  Python dictionaries whose iteration order is
    observable are association lists with Python's update discipline. *)

From Stdlib Require Import ZArith Lia.
From stdpp Require Import base option list sorting strings gmap.

Set Warnings "-register-all,-clear-no-such-hyp".

Local Open Scope string_scope.
Local Open Scope list_scope.
Local Open Scope Z_scope.

(** ** Exceptions and the error monad *)

Inductive exn : Type :=
  | IndexError
  | TypeError (msg : string)
  | ValueError (msg : string)
  | KeyError (key : string)
  | AssertionError (msg : string)
  | NotImplementedError (msg : string)
  | AttributeError (msg : string)
  | OpNotImplemented (ops : gset string)
  | OracleError (msg : string)
  | OutOfFuel.

Definition result (A : Type) : Type := exn + A.

Definition Ok {A} (x : A) : result A := inr x.
Definition Raise {A} (e : exn) : result A := inl e.

#[global] Instance result_ret : MRet result := λ A x, inr x.
#[global] Instance result_bind : MBind result := λ A B k m,
  match m with
  | inl e => inl e
  | inr x => k x
  end.
#[global] Instance result_fmap : FMap result := λ A B f m,
  match m with
  | inl e => inl e
  | inr x => inr (f x)
  end.

(** [assert c, msg] *)
Definition py_assert (c : bool) (msg : string) : result unit :=
  if c then Ok tt else Raise (AssertionError msg).

(** ** Python sequences *)

Module Py.

Definition len {A} (l : list A) : Z := Z.of_nat (length l).

(** [l[i]] on a list: negative indices count from the end, anything
    outside [-len, len) raises IndexError. *)
Definition index {A} (l : list A) (i : Z) : result A :=
  let j := if i <? 0 then i + len l else i in
  if (j <? 0) || (len l <=? j) then Raise IndexError
  else match l !! Z.to_nat j with
       | Some x => Ok x
       | None => Raise IndexError
       end.

Record slice : Type := Slice {
  start : option Z;
  stop : option Z;
  step : option Z
}.

(** [slice.indices(length)]: the clamped (start, stop, step). *)
Definition slice_indices (s : slice) (length : Z) : result (Z * Z * Z) :=
  let stp := default 1 (step s) in
  if stp =? 0 then Raise (ValueError "slice step cannot be zero")
  else
    let neg := stp <? 0 in
    let lower := if neg then -1 else 0 in
    let upper := if neg then length - 1 else length in
    let clamp (x : Z) :=
      if x <? 0 then Z.max (x + length) lower else Z.min x upper in
    let st := match start s with
              | None => if neg then upper else lower
              | Some x => clamp x
              end in
    let sp := match stop s with
              | None => if neg then lower else upper
              | Some x => clamp x
              end in
    Ok (st, sp, stp).

(** [len(range(lo, hi, st))] *)
Definition range_length (lo hi st : Z) : Z :=
  if 0 <? st then (if lo <? hi then (hi - lo - 1) / st + 1 else 0)
  else (if hi <? lo then (lo - hi - 1) / (- st) + 1 else 0).

(** [list(range(lo, hi, st))] *)
Definition range (lo hi st : Z) : list Z :=
  (λ k : nat, lo + Z.of_nat k * st) <$> seq 0 (Z.to_nat (range_length lo hi st)).

(** [list(range(n)[s])]: slicing [range(n)] yields the sub-range of its
    own elements, which are their own indices. *)
Definition range_getslice (n : Z) (s : slice) : result (list Z) :=
  '(st, sp, stp) ← slice_indices s (Z.max 0 n) ;
  Ok (range st sp stp).

(** [l[s]] on an ordinary list. *)
Definition list_getslice {A} (l : list A) (s : slice) : result (list A) :=
  '(st, sp, stp) ← slice_indices s (len l) ;
  mapM (index l) (range st sp stp).

(** [sorted(l)] on integers. *)
Definition sorted (l : list Z) : list Z := merge_sort Z.le l.

(** [max(l)]: ValueError on an empty sequence. *)
Definition max (l : list Z) : result Z :=
  match l with
  | [] => Raise (ValueError "max() arg is an empty sequence")
  | x :: l' => Ok (foldl Z.max x l')
  end.

(** [enumerate(l)] *)
Definition enumerate {A} (l : list A) : list (Z * A) :=
  zip (Z.of_nat <$> seq 0 (length l)) l.

End Py.

(** ** [class onnx_input(list)] *)

Section onnx_input.
Context {A : Type}.

(** The wrapped list; an element may itself be Python's [None]. *)
Definition onnx_input : Type := list (option A).

Inductive key : Type :=
  | KInt (i : Z)
  | KSlice (s : Py.slice)
  | KOther (type_name : string).

Inductive item : Type :=
  | Item (x : option A)
  | Items (xs : list (option A)).

(** The [isinstance(item, int)] branch. *)
Definition getitem_int (self : onnx_input) (i : Z) : result (option A) :=
  if i <? Py.len self then Py.index self i else Ok None.

Definition onnx_input_getitem (self : onnx_input) (k : key) : result item :=
  match k with
  | KSlice s =>
      let stop := match Py.stop s with
                  | None => Py.len self
                  | Some st => st
                  end in
      indices ← Py.range_getslice stop s ;
      xs ← mapM (getitem_int self) indices ;
      Ok (Items xs)
  | KInt i => x ← getitem_int self i ; Ok (Item x)
  | KOther t =>
      Raise (TypeError ("list indices must be integers or slices, not " +:+ t))
  end.

(** The list a reader would get by writing the omitted trailing inputs
    out as [None] up to position [stop]. *)
Definition padded (self : onnx_input) (stop : Z) : list (option A) :=
  self ++ replicate (Z.to_nat (stop - Py.len self)) None.

End onnx_input.
Arguments onnx_input : clear implicits.
Arguments key : clear implicits.
Arguments item : clear implicits.

(** ** [OnnxOpConverter.get_converter] *)

Section get_converter.
Context {Impl : Type}.

(** A converter class, seen through [dir(cls)]: the attributes named
    [_impl_v<n>], each with the implementation it holds. *)
Record OnnxOpConverter : Type := Converter {
  cls_name : string;
  impls : list (Z * Impl)
}.

(** [getattr(cls, "_impl_v{}".format(version))], [None] when
    [hasattr] is false. *)
Definition getattr_impl (cls : OnnxOpConverter) (version : Z) : option Impl :=
  match list_find (λ p, p.1 = version) (impls cls) with
  | Some (_, p) => Some p.2
  | None => None
  end.

Definition get_converter (cls : OnnxOpConverter) (opset : Z) : result (Z * Impl) :=
  let versions := (impls cls).*1 in
  let versions := Py.sorted (versions ++ [opset]) in
  idx ← Py.max ((λ p, p.1) <$> filter (λ p, p.2 = opset) (Py.enumerate versions)) ;
  version ← Py.index versions (idx - 1) ;
  match getattr_impl cls version with
  | Some f => Ok (version, f)
  | None =>
      Raise (NotImplementedError
               ("opset version of " +:+ cls_name cls +:+ " not implemented"))
  end.

End get_converter.
Arguments OnnxOpConverter : clear implicits.

(** ** [GraphProto._fix_outputs] *)

Definition _fix_outputs (op_name : string) (outputs : list string) : list string :=
  if bool_decide (op_name = "Dropout") then
    if bool_decide (length outputs = 1%nat) then outputs
    else removelast outputs
  else outputs.

(** ** Python dictionaries with observable order

    [dict] keeps insertion order: assigning to an existing key keeps the
    key's position, a new key goes last. *)

Module odict.
Section odict.
Context {V : Type}.

Definition t : Type := list (string * V).

Definition keys (d : t) : list string := d.*1.
Definition values (d : t) : list V := d.*2.

Fixpoint get (d : t) (k : string) : option V :=
  match d with
  | [] => None
  | (k', v) :: d' => if bool_decide (k' = k) then Some v else get d' k
  end.

(** [k in d] *)
Definition mem (d : t) (k : string) : bool := bool_decide (k ∈ keys d).

(** [d[k]], KeyError when absent. *)
Definition getitem (d : t) (k : string) : result V :=
  match get d k with
  | Some v => Ok v
  | None => Raise (KeyError k)
  end.

(** [d[k] = v] *)
Fixpoint set (d : t) (k : string) (v : V) : t :=
  match d with
  | [] => [(k, v)]
  | (k', v') :: d' =>
      if bool_decide (k' = k) then (k', v) :: d' else (k', v') :: set d' k v
  end.

(** [d.pop(k)]: the entries left once [k] is removed. *)
Definition remove (d : t) (k : string) : t :=
  filter (λ p, p.1 ≠ k) d.

(** [d.update(d2)] *)
Definition update (d d2 : t) : t :=
  foldl (λ acc p, set acc p.1 p.2) d d2.

End odict.
Arguments t : clear implicits.
End odict.

(** ** The wire format (onnx.proto, as far as the importer reads it) *)

Record TensorProto : Type := {
  tensor_name : string;
  dims : list Z;
  data_type : Z;
  raw_data : list Z
}.

(** One entry of [type.tensor_type.shape.dim]. *)
Record Dimension : Type := {
  dim_param : string;
  dim_value : option Z
}.

Record ValueInfoProto : Type := {
  value_name : string;
  shape_dim : list Dimension;
  elem_type : Z
}.

Inductive GraphPb : Type :=
  MkGraph (node : list NodePb) (initializer : list TensorProto)
          (input output : list ValueInfoProto)
with NodePb : Type :=
  MkNode (name op_type : string) (input output : list string)
         (attribute : list AttributePb)
with AttributePb : Type :=
  MkAttribute (name : string)
              (f : option Z) (i : option Z) (s : option string)
              (g : option GraphPb)
              (floats ints : list Z) (strings : list string)
              (t : option TensorProto) (tensors : list TensorProto)
              (graphs : list GraphPb).

Module graph.
Definition node (gr : GraphPb) := let 'MkGraph n _ _ _ := gr in n.
Definition initializer (gr : GraphPb) := let 'MkGraph _ x _ _ := gr in x.
Definition input (gr : GraphPb) := let 'MkGraph _ _ x _ := gr in x.
Definition output (gr : GraphPb) := let 'MkGraph _ _ _ x := gr in x.
(** [while len(body.input) != 0: body.input.pop(0)] *)
Definition clear_input (gr : GraphPb) :=
  let 'MkGraph n x _ o := gr in MkGraph n x [] o.
End graph.

Module node.
Definition name (n : NodePb) := let 'MkNode x _ _ _ _ := n in x.
Definition op_type (n : NodePb) := let 'MkNode _ x _ _ _ := n in x.
Definition input (n : NodePb) := let 'MkNode _ _ x _ _ := n in x.
Definition output (n : NodePb) := let 'MkNode _ _ _ x _ := n in x.
Definition attribute (n : NodePb) := let 'MkNode _ _ _ _ x := n in x.
End node.

(** ** The produced IR *)

(** A host tensor ([numpy] / [tvm.nd] array). *)
Record NDArray : Type := {
  nd_shape : list Z;
  nd_dtype : string;
  nd_data : list Z
}.

Inductive dim : Type :=
  | DimInt (n : Z)
  | DimAny.

(** A relay variable.  Relay compares variables by object identity, which
    [vid], the allocation stamp, stands for. *)
Record var : Type := Var {
  vid : nat;
  name_hint : string;
  var_shape : option (list dim);
  var_dtype : option string
}.

Inductive expr : Type :=
  | ENull                                   (* a Python [None] operand *)
  | EVar (v : var)
  | EConst (value : NDArray) (dtype : option string)
  | EOp (name : string) (attrs : list Z)
  | ECall (op : expr) (args : list expr)
  | ETuple (fields : list expr)
  | ETupleGetItem (tuple_value : expr) (index : Z)
  | EIf (cond true_branch false_branch : expr)
  | EFunction (params : list var) (body : expr)
  | ELet (v : var) (value body : expr).

Definition var_eqb (a b : var) : bool := bool_decide (vid a = vid b).

(** A converter's return value: a relay expression or a [TupleWrapper]. *)
Inductive op_result : Type :=
  | Single (e : expr)
  | TupleWrapper (tuple_value : expr) (size : Z).

(** [TupleWrapper.__getitem__] *)
Definition wrapper_getitem (tuple_value : expr) (size : Z) (index : Z) : result expr :=
  if size <=? index then Raise IndexError
  else Ok (ETupleGetItem tuple_value index).

(** A Python value in operand position. *)
Definition as_expr (x : option expr) : expr := default ENull x.

(** [relay.Tuple.__getitem__]; any other expression is not subscriptable. *)
Definition expr_getitem (e : expr) (index : Z) : result expr :=
  match e with
  | ETuple fields =>
      if Py.len fields <=? index then Raise IndexError else Py.index fields index
  | _ => Raise (TypeError "object is not subscriptable")
  end.

Definition expr_len (e : expr) : result Z :=
  match e with
  | ETuple fields => Ok (Py.len fields)
  | _ => Raise (TypeError "object has no len()")
  end.

(** Variables in order of first visit, binders included. *)
Fixpoint all_vars (e : expr) : list var :=
  match e with
  | ENull | EConst _ _ | EOp _ _ => []
  | EVar v => [v]
  | ECall op args =>
      all_vars op ++
      (fix go (l : list expr) := match l with [] => [] | x :: l' => all_vars x ++ go l' end) args
  | ETuple fields =>
      (fix go (l : list expr) := match l with [] => [] | x :: l' => all_vars x ++ go l' end) fields
  | ETupleGetItem t _ => all_vars t
  | EIf c a b => all_vars c ++ all_vars a ++ all_vars b
  | EFunction ps body => ps ++ all_vars body
  | ELet v value body => v :: all_vars value ++ all_vars body
  end.

Fixpoint bound_vars (e : expr) : list var :=
  match e with
  | ENull | EConst _ _ | EOp _ _ | EVar _ => []
  | ECall op args =>
      bound_vars op ++
      (fix go (l : list expr) := match l with [] => [] | x :: l' => bound_vars x ++ go l' end) args
  | ETuple fields =>
      (fix go (l : list expr) := match l with [] => [] | x :: l' => bound_vars x ++ go l' end) fields
  | ETupleGetItem t _ => bound_vars t
  | EIf c a b => bound_vars c ++ bound_vars a ++ bound_vars b
  | EFunction ps body => ps ++ bound_vars body
  | ELet v value body => v :: bound_vars value ++ bound_vars body
  end.

Definition var_in (v : var) (l : list var) : bool := existsb (var_eqb v) l.

Fixpoint dedup_vars (seen l : list var) : list var :=
  match l with
  | [] => []
  | v :: l' =>
      if var_in v seen then dedup_vars seen l' else v :: dedup_vars (v :: seen) l'
  end.

(** Modelled from the spec: [analysis.free_vars] (relay/analysis) is not
    part of the frontend file.  It yields the variables reachable from an
    expression that no [Function] or [Let] inside it binds, each once, in
    order of first visit. *)
Definition free_vars (e : expr) : list var :=
  dedup_vars [] (filter (λ v, var_in v (bound_vars e) = false) (all_vars e)).

(** ** Allocation of relay variables

    [M] threads the allocation stamp of the next variable through a
    computation that may raise. *)

Definition M (A : Type) : Type := nat → result (A * nat).

#[global] Instance M_ret : MRet M := λ A x n, inr (x, n).
#[global] Instance M_bind : MBind M := λ A B k m n,
  match m n with
  | inl e => inl e
  | inr (x, n') => k x n'
  end.

Definition lift {A} (r : result A) : M A := λ n,
  match r with
  | inl e => inl e
  | inr x => inr (x, n)
  end.

Definition raise {A} (e : exn) : M A := λ _, inl e.

(** [new_var(name, shape=..., dtype=...)] / [_expr.var(...)] *)
Definition new_var (name : string) (shape : option (list dim))
    (dtype : option string) : M var :=
  λ n, inr (Var n name shape dtype, S n).

(** ** Attribute tables *)

Inductive attr_value : Type :=
  | AFloat (x : Z)
  | AInt (x : Z)
  | AStr (x : string)
  | AGraph (x : GraphPb)
  | AFloats (xs : list Z)
  | AInts (xs : list Z)
  | AStrings (xs : list string)
  | ATensor (x : TensorProto)
  | ATensors (xs : list TensorProto)
  | ACustom (name : string) (num_outputs : Z).

Definition set_if {V} (d : odict.t V) (k : string) (v : option V) : odict.t V :=
  match v with
  | Some x => odict.set d k x
  | None => d
  end.

(** The repeated fields: a non-empty one must be the only value. *)
Definition set_repeated {X} (d : odict.t attr_value) (k : string)
    (xs : list X) (wrap : list X → attr_value) : result (odict.t attr_value) :=
  match xs with
  | [] => Ok d
  | _ =>
      _ ← py_assert (negb (odict.mem d k)) "Only one type of attr is allowed";
      Ok (odict.set d k (wrap xs))
  end.

Definition parse_one_attr (attrs : odict.t attr_value) (a : AttributePb)
    : result (odict.t attr_value) :=
  let 'MkAttribute name f i s g floats ints strings t tensors graphs := a in
  let attrs := set_if attrs name (AFloat <$> f) in
  let attrs := set_if attrs name (AInt <$> i) in
  let attrs := set_if attrs name (AStr <$> s) in
  let attrs := set_if attrs name (AGraph <$> g) in
  attrs ← set_repeated attrs name floats AFloats;
  attrs ← set_repeated attrs name ints AInts;
  attrs ← set_repeated attrs name strings AStrings;
  let attrs := set_if attrs name (ATensor <$> t) in
  attrs ← set_repeated attrs name tensors ATensors;
  match graphs with
  | _ :: _ => Raise (NotImplementedError "Field graphs is not supported in relay.")
  | [] =>
      if odict.mem attrs name then Ok attrs
      else Raise (ValueError "Cannot parse attribute")
  end.

Definition _parse_attr (attr_proto : list AttributePb) : result (odict.t attr_value) :=
  foldl (λ acc a, attrs ← acc; parse_one_attr attrs a) (Ok []) attr_proto.

(** ** What the importer takes from its collaborators *)

Definition converter : Type :=
  list (option expr) → odict.t attr_value → odict.t NDArray → result op_result.

Class Oracles : Type := {
  (** [onnx.numpy_helper.to_array] *)
  to_array : TensorProto → result NDArray;
  (** [ndarray.reshape] *)
  np_reshape : NDArray → list Z → result NDArray;
  (** [onnx.mapping.TENSOR_TYPE_TO_NP_TYPE] *)
  TENSOR_TYPE_TO_NP_TYPE : Z → option string;
  (** [common.fold_constant] on a relay expression *)
  fold_constant : expr → expr;
  (** [common.infer_type(e).checked_type] as (shape, dtype) *)
  infer_type : expr → result (list dim * string);
  (** the entries of [_get_convert_map(opset)] other than Loop and If *)
  op_table : Z → string → option converter
}.

(** Python's [str.strip()] leaves nothing.

    A protobuf name is a Python [str], a sequence of Unicode code points;
    a string of this development holds its UTF-8 encoding, the form in
    which the model file carries it.  [code_points] decodes it; a byte
    that does not start a well-formed sequence, which the encoding of a
    [str] never holds, stands for the code point of its own value.
    [str.strip()] without argument removes the code points for which
    [str.isspace] holds, which CPython lists in [_PyUnicode_IsWhitespace]:
    U+0009..U+000D, U+001C..U+0020, U+0085, U+00A0, U+1680,
    U+2000..U+200A, U+2028, U+2029, U+202F, U+205F and U+3000. *)
Definition is_continuation (b : Z) : bool := (128 <=? b) && (b <? 192).

Fixpoint code_points (bytes : list Z) : list Z :=
  match bytes with
  | [] => []
  | b0 :: l1 =>
      match l1 with
      | [] => [b0]
      | b1 :: l2 =>
          let c2 := (b0 - 192) * 64 + (b1 - 128) in
          if (192 <=? b0) && (b0 <? 224) && is_continuation b1 && (128 <=? c2) then
            c2 :: code_points l2
          else
            match l2 with
            | [] => b0 :: code_points l1
            | b2 :: l3 =>
                let c3 := (b0 - 224) * 4096 + (b1 - 128) * 64 + (b2 - 128) in
                if (224 <=? b0) && (b0 <? 240) && is_continuation b1
                   && is_continuation b2 && (2048 <=? c3)
                   && negb ((55296 <=? c3) && (c3 <=? 57343)) then
                  c3 :: code_points l3
                else
                  match l3 with
                  | [] => b0 :: code_points l1
                  | b3 :: l4 =>
                      let c4 := (b0 - 240) * 262144 + (b1 - 128) * 4096
                                + (b2 - 128) * 64 + (b3 - 128) in
                      if (240 <=? b0) && (b0 <? 248) && is_continuation b1
                         && is_continuation b2 && is_continuation b3
                         && (65536 <=? c4) && (c4 <=? 1114111) then
                        c4 :: code_points l4
                      else b0 :: code_points l1
                  end
            end
      end
  end.

Definition utf8_bytes (s : string) : list Z :=
  (λ c, Z.of_N (Ascii.N_of_ascii c)) <$> String.list_ascii_of_string s.

Definition is_space (c : Z) : bool :=
  ((9 <=? c) && (c <=? 13)) || ((28 <=? c) && (c <=? 32))
  || (c =? 133) || (c =? 160) || (c =? 5760)
  || ((8192 <=? c) && (c <=? 8202))
  || (c =? 8232) || (c =? 8233) || (c =? 8239) || (c =? 8287) || (c =? 12288).

Definition strip_is_empty (s : string) : bool :=
  forallb is_space (code_points (utf8_bytes s)).

(** [dtype] given to the importer: one string or a per-name dict. *)
Inductive dtype_spec : Type :=
  | DtypeStr (s : string)
  | DtypeDict (d : odict.t string).

(** ** [class GraphProto] *)

Record GraphProto : Type := {
  _nodes : odict.t expr;
  _params : odict.t NDArray;
  _inputs : odict.t expr;
  _renames : odict.t string;
  _num_input : Z;
  _num_param : Z;
  _shape : odict.t (list dim);
  _input_names : list string;
  _dtype : dtype_spec;
  opset : option Z;
  _freeze_params : bool;
  (** [self._old_manager is None], as set by [__enter__] *)
  _old_manager_is_None : bool
}.

(** [GraphProto(shape, dtype, freeze_params)] followed by [__enter__]
    under the given ambient scope. *)
Definition GraphProto_init (shape : odict.t (list dim)) (dtype : dtype_spec)
    (freeze_params : bool) (outermost : bool) : GraphProto :=
  {| _nodes := []; _params := []; _inputs := []; _renames := [];
     _num_input := 0; _num_param := 0; _shape := shape; _input_names := [];
     _dtype := dtype; opset := None; _freeze_params := freeze_params;
     _old_manager_is_None := outermost |}.

Definition with_nodes (self : GraphProto) (x : odict.t expr) : GraphProto :=
  {| _nodes := x; _params := _params self; _inputs := _inputs self;
     _renames := _renames self; _num_input := _num_input self;
     _num_param := _num_param self; _shape := _shape self;
     _input_names := _input_names self; _dtype := _dtype self;
     opset := opset self; _freeze_params := _freeze_params self;
     _old_manager_is_None := _old_manager_is_None self |}.

Definition with_params (self : GraphProto) (x : odict.t NDArray) : GraphProto :=
  {| _nodes := _nodes self; _params := x; _inputs := _inputs self;
     _renames := _renames self; _num_input := _num_input self;
     _num_param := _num_param self; _shape := _shape self;
     _input_names := _input_names self; _dtype := _dtype self;
     opset := opset self; _freeze_params := _freeze_params self;
     _old_manager_is_None := _old_manager_is_None self |}.

Definition with_inputs (self : GraphProto) (x : odict.t expr) : GraphProto :=
  {| _nodes := _nodes self; _params := _params self; _inputs := x;
     _renames := _renames self; _num_input := _num_input self;
     _num_param := _num_param self; _shape := _shape self;
     _input_names := _input_names self; _dtype := _dtype self;
     opset := opset self; _freeze_params := _freeze_params self;
     _old_manager_is_None := _old_manager_is_None self |}.

Definition with_opset (self : GraphProto) (x : Z) : GraphProto :=
  {| _nodes := _nodes self; _params := _params self; _inputs := _inputs self;
     _renames := _renames self; _num_input := _num_input self;
     _num_param := _num_param self; _shape := _shape self;
     _input_names := _input_names self; _dtype := _dtype self;
     opset := Some x; _freeze_params := _freeze_params self;
     _old_manager_is_None := _old_manager_is_None self |}.

(** [self._num_param += 1] *)
Definition count_param (self : GraphProto) : GraphProto :=
  {| _nodes := _nodes self; _params := _params self; _inputs := _inputs self;
     _renames := _renames self; _num_input := _num_input self;
     _num_param := _num_param self + 1; _shape := _shape self;
     _input_names := _input_names self; _dtype := _dtype self;
     opset := opset self; _freeze_params := _freeze_params self;
     _old_manager_is_None := _old_manager_is_None self |}.

(** [self._num_input += 1; self._input_names.append(i_name)] *)
Definition count_input (self : GraphProto) (i_name : string) : GraphProto :=
  {| _nodes := _nodes self; _params := _params self; _inputs := _inputs self;
     _renames := _renames self; _num_input := _num_input self + 1;
     _num_param := _num_param self; _shape := _shape self;
     _input_names := _input_names self ++ [i_name]; _dtype := _dtype self;
     opset := opset self; _freeze_params := _freeze_params self;
     _old_manager_is_None := _old_manager_is_None self |}.

Fixpoint foldM {A B} (f : B → A → M B) (b : B) (l : list A) : M B :=
  match l with
  | [] => mret b
  | x :: l' => b' ← f b x; foldM f b' l'
  end.

(** Relay operator applications and constants, as the frontend builds them. *)
Definition relay_op (name : string) (attrs : list Z) (args : list expr) : expr :=
  ECall (EOp name attrs) args.

Definition scalar_const (x : Z) (dtype : string) : expr :=
  EConst {| nd_shape := []; nd_dtype := dtype; nd_data := [x] |} (Some dtype).

(** [for var in free_vars: graph_scope._nodes.update({var.name_hint: var})] *)
Definition promote (nodes : odict.t expr) (vars : list var) : odict.t expr :=
  foldl (λ d v, odict.set d (name_hint v) (EVar v)) nodes vars.

(** The control-flow converters registered next to the ordinary ones. *)
Inductive control_flow : Type :=
  | Loop_impl_v11
  | If_impl_v1.

Inductive entry : Type :=
  | Ordinary (c : converter)
  | Control (c : control_flow).

Definition Loop : OnnxOpConverter control_flow := Converter "Loop" [(11, Loop_impl_v11)].
Definition If : OnnxOpConverter control_flow := Converter "If" [(1, If_impl_v1)].

(** compatible operators that do NOT require any conversion. *)
Definition _identity_list : list string := [].

Section importer.
Context `{Oracles}.

(** [tensor_proto -> _nd.array(get_numpy(tensor_proto).reshape(dims))] *)
Definition _parse_array (tensor_proto : TensorProto) : result NDArray :=
  a ← to_array tensor_proto;
  np_reshape a (dims tensor_proto).

(** [get_type] *)
Definition get_type (elem_type : Z) : result string :=
  match TENSOR_TYPE_TO_NP_TYPE elem_type with
  | Some s => Ok s
  | None => Raise (KeyError "elem_type")
  end.

(** [get_info]: name, shape and dtype of a ValueInfoProto.  The fourth
    component, [shape_name], only feeds a warning text and is left out. *)
Definition get_info (info_proto : ValueInfoProto)
    : result (string * list dim * option string) :=
  let shape :=
    (λ d, match dim_value d with
          | None => DimAny
          | Some value => if value =? 0 then DimAny else DimInt value
          end) <$> shape_dim info_proto in
  dtype ← (if elem_type info_proto =? 0 then Ok None
           else Some <$> get_type (elem_type info_proto));
  Ok (value_name info_proto, shape, dtype).

(** [_get_convert_map(opset)]: every class resolves its converter when
    the dict is built. *)
Definition _get_convert_map (opset : Z) : result (string → option entry) :=
  loop ← get_converter Loop opset;
  if_ ← get_converter If opset;
  Ok (λ op_name,
        if bool_decide (op_name = "Loop") then Some (Control loop.2)
        else if bool_decide (op_name = "If") then Some (Control if_.2)
        else Ordinary <$> op_table opset op_name).

(** *** Registration of initializers and declared inputs *)

Definition register_initializer (self : GraphProto) (init_tensor : TensorProto)
    : M GraphProto :=
  let name := tensor_name init_tensor in
  if strip_is_empty name then raise (ValueError "Tensor's name is required.")
  else
    array ← lift (_parse_array init_tensor);
    if _freeze_params self then
      mret (with_nodes self (odict.set (_nodes self) name (EConst array None)))
    else
      let self := with_params self (odict.set (_params self) name array) in
      v ← new_var name (Some (DimInt <$> nd_shape array)) (Some (nd_dtype array));
      mret (with_nodes self (odict.set (_nodes self) name (EVar v))).

Definition register_input (self : GraphProto) (i : ValueInfoProto) : M GraphProto :=
  '(i_name, i_shape, d_type) ← lift (get_info i);
  if odict.mem (_params self) i_name then
    (* i is a param instead of input *)
    let self := count_param self in
    match odict.get (_params self) i_name with
    | None => raise (KeyError i_name)
    | Some array =>
        let self :=
          with_params self (odict.set (odict.remove (_params self) i_name) i_name array) in
        v ← new_var i_name (Some (DimInt <$> nd_shape array)) (Some (nd_dtype array));
        let self := with_nodes self (odict.set (_nodes self) i_name (EVar v)) in
        mret (with_inputs self (odict.set (_inputs self) i_name (EVar v)))
    end
  else if odict.mem (_nodes self) i_name then mret self
  else
    let self := count_input self i_name in
    let i_shape := default i_shape (odict.get (_shape self) i_name) in
    let dtype :=
      match _dtype self with
      | DtypeDict d => match odict.get d i_name with Some x => Some x | None => d_type end
      | DtypeStr _ => d_type
      end in
    v ← new_var i_name (Some i_shape) dtype;
    let self := with_nodes self (odict.set (_nodes self) i_name (EVar v)) in
    mret (with_inputs self (odict.set (_inputs self) i_name (EVar v))).

(** Only check user inputs in the outer-most graph scope. *)
Definition check_user_shapes (self : GraphProto) : result unit :=
  if _old_manager_is_None self then
    py_assert
      (forallb (λ name, bool_decide (name ∈ _input_names self)) (odict.keys (_shape self)))
      "User specified the shape for inputs that weren't found in the graph"
  else Ok tt.

(** *** The completeness check *)

(** [op_name in convert_map] *)
Definition in_convert_map (opset : Z) (op_name : string) : Prop :=
  op_name = "Loop" ∨ op_name = "If" ∨ is_Some (op_table opset op_name).

Definition unsupported_ops (convert_map : string → option entry)
    (nodes : list NodePb) : gset string :=
  foldl (λ (acc : gset string) n,
           let op_name := node.op_type n in
           if negb (bool_decide (is_Some (convert_map op_name)))
              && negb (bool_decide (op_name = "Constant"))
              && negb (bool_decide (op_name ∈ _identity_list))
           then acc ∪ {[ op_name ]}
           else acc) ∅ nodes.

Definition check_unsupported (convert_map : string → option entry)
    (nodes : list NodePb) : result unit :=
  let ops := unsupported_ops convert_map nodes in
  if bool_decide (ops = ∅) then Ok tt else Raise (OpNotImplemented ops).

(** *** Output arity reconciliation (one node) *)

(** [valid_outputs[i] = True] for every non-empty declared name. *)
Definition mark_valid (outputs_num : Z) (node_output : list string)
    : result (list bool) :=
  foldl (λ acc p,
           valid ← acc;
           if bool_decide (p.2 = "") then Ok valid
           else if Py.len valid <=? p.1 then Raise IndexError
           else Ok (<[Z.to_nat p.1 := true]> valid))
        (Ok (replicate (Z.to_nat outputs_num) false))
        (Py.enumerate node_output).

(** [[f(i) for i, valid in enumerate(valid_outputs) if valid]] *)
Definition select_valid (valid_outputs : list bool) (f : Z → result expr)
    : result (list expr) :=
  mapM f ((λ p, p.1) <$> filter (λ p, p.2 = true) (Py.enumerate valid_outputs)).

Definition drop_missing (op : op_result) (outputs_num : Z)
    (node_output : list string) : result (op_result * Z * list string) :=
  if 1 <? outputs_num then
    valid_outputs ← mark_valid outputs_num node_output;
    if forallb id valid_outputs then Ok (op, outputs_num, node_output)
    else
      match op with
      | Single _ => Raise (AttributeError "astuple")
      | TupleWrapper tup size =>
          outputs ←
            match tup with
            | ETuple fields => select_valid valid_outputs (Py.index fields)
            | _ => select_valid valid_outputs (wrapper_getitem tup size)
            end;
          let op' :=
            match outputs with
            | [x] => Single x
            | _ =>
                if bool_decide (Py.len outputs ≠ outputs_num)
                then TupleWrapper (ETuple outputs) (Py.len outputs)
                else op
            end in
          Ok (op', Py.len outputs, filter (λ output, output ≠ "") node_output)
      end
  else Ok (op, outputs_num, node_output).

(** [op[i]] for whatever [op] is at the binding loop. *)
Definition op_getitem (op : op_result) (i : Z) : result expr :=
  match op with
  | Single e => expr_getitem e i
  | TupleWrapper tup size => wrapper_getitem tup size i
  end.

Definition bind_outputs (nodes : odict.t expr) (op : op_result) (outputs_num : Z)
    (node_output : list string) : result (odict.t expr) :=
  _ ← py_assert (bool_decide (Py.len node_output = outputs_num))
        "Number of output mismatch";
  if outputs_num =? 1 then
    k ← Py.index node_output 0;
    match op with
    | Single e => Ok (odict.set nodes k e)
    | TupleWrapper _ _ => Raise (TypeError "TupleWrapper bound as one output")
    end
  else
    foldl (λ acc p, d ← acc; x ← op_getitem op p.1; Ok (odict.set d p.2 x))
          (Ok nodes) (Py.enumerate node_output).

(** [fold_constant] on the converter's result.  A [TupleWrapper] of
    size one would be handed to [fold_constant] itself, which takes
    relay expressions only. *)
Definition fold_result (op : op_result) (outputs_num : Z) : result op_result :=
  match op with
  | Single e => Ok (Single (fold_constant e))
  | TupleWrapper tup size =>
      if outputs_num =? 1 then Raise (TypeError "fold_constant on a TupleWrapper")
      else Ok (TupleWrapper (fold_constant tup) size)
  end.

Definition reconcile (nodes : odict.t expr) (op : op_result)
    (node_output : list string) : result (odict.t expr) :=
  let outputs_num := match op with Single _ => 1 | TupleWrapper _ size => size end in
  op ← fold_result op outputs_num;
  '(op, outputs_num, node_output) ← drop_missing op outputs_num node_output;
  bind_outputs nodes op outputs_num node_output.

(** The reading of reconciliation that the properties below compare the
    code with: which produced positions are kept, what the kept values
    are, and how they end up bound. *)

(** The declared name at position [i] is present and non-empty. *)
Definition declared_at (node_output : list string) (i : nat) : bool :=
  bool_decide (default "" (node_output !! i) ≠ "").

(** The produced positions, of [size] many, that keep their value. *)
Definition kept_positions (size : Z) (node_output : list string) : list Z :=
  Z.of_nat <$> filter (λ i, declared_at node_output i = true) (seq 0 (Z.to_nat size)).

(** The non-empty declared names. *)
Definition declared_names (node_output : list string) : list string :=
  filter (λ output, output ≠ "") node_output.

(** The value a multi-output result holds at position [i]: the field of
    a literal tuple, the projection of anything else. *)
Definition produced_at (tup : expr) (i : Z) : result expr :=
  match tup with
  | ETuple fields => Py.index fields i
  | _ => Ok (ETupleGetItem tup i)
  end.

(** Survivors bound to names: one survivor directly, several as the
    components of the tuple of survivors, renumbered from 0. *)
Definition bind_survivors (nodes : odict.t expr) (names : list string)
    (values : list expr) : odict.t expr :=
  match values, names with
  | [x], [k] => odict.set nodes k x
  | _, _ =>
      foldl (λ d p, odict.set d p.2 (ETupleGetItem (ETuple values) p.1))
            nodes (Py.enumerate names)
  end.

(** *** Control flow: [If] and [Loop]

    Both converters reach the enclosing importer through
    [GraphProto.current]; here it is the argument [graph_scope], and the
    updated object is returned.  [import scope g opset] stands for
    [with scope: scope.from_onnx(g, opset, get_output_expr=True)]. *)

Definition importer : Type := GraphProto → GraphPb → Z → M (expr * GraphProto).

Definition scope_opset (graph_scope : GraphProto) : result Z :=
  match opset graph_scope with
  | Some o => Ok o
  | None => Raise (TypeError "opset is None")
  end.

Definition as_graph (x : attr_value) : result GraphPb :=
  match x with
  | AGraph g => Ok g
  | _ => Raise (AttributeError "not a GraphProto")
  end.

(** A new importer for a subgraph, loaded with the outer bindings. *)
Definition subscope (graph_scope : GraphProto) : GraphProto :=
  with_nodes
    (GraphProto_init (_shape graph_scope) (_dtype graph_scope)
                     (_freeze_params graph_scope) false)
    (_nodes graph_scope).

(** [graph_scope._params.update(sub._params)],
    [graph_scope._nodes.update(sub._nodes)], then the promotion of the
    free variables. *)
Definition merge_scope (graph_scope sub : GraphProto) (free : list var) : GraphProto :=
  let graph_scope :=
    with_params graph_scope (odict.update (_params graph_scope) (_params sub)) in
  let nodes := odict.update (_nodes graph_scope) (_nodes sub) in
  with_nodes graph_scope (promote nodes free).

Definition If__impl_v1 (import : importer) (graph_scope : GraphProto)
    (inputs : onnx_input expr) (attr : odict.t attr_value)
    : M (op_result * GraphProto) :=
  cond ← lift (getitem_int inputs 0);
  (* Convert array to bool if needed. *)
  ty ← lift (infer_type (as_expr cond));
  let cond :=
    if 0 <? Py.len ty.1
    then relay_op "take" [] [as_expr cond; scalar_const 0 "int64"]
    else as_expr cond in
  match odict.get attr "then_branch", odict.get attr "else_branch" with
  | Some then_branch, Some else_branch =>
      (* Create graph converters for both branches. *)
      let then_graph := subscope graph_scope in
      let else_graph := subscope graph_scope in
      o ← lift (scope_opset graph_scope);
      (* Convert each branch to a relay expression. *)
      then_pb ← lift (as_graph then_branch);
      '(then_expr, then_graph) ← import then_graph then_pb o;
      else_pb ← lift (as_graph else_branch);
      '(else_expr, else_graph) ← import else_graph else_pb o;
      (* Add constants from both branches to parent graph. *)
      let graph_scope := merge_scope graph_scope then_graph (free_vars then_expr) in
      let graph_scope := merge_scope graph_scope else_graph (free_vars else_expr) in
      (* Now we can construct the relay if statement and return. *)
      let ret := EIf cond then_expr else_expr in
      let n := Py.len (graph.output then_pb) in
      mret (if 1 <? n then TupleWrapper ret n else Single ret, graph_scope)
  | _, _ => raise (AssertionError "")
  end.

(** [cond_fn] of the Loop converter: the loop inputs are packed as
    [iter_count, max_count, condition, loop_deps, scan_outputs]. *)
Definition is_for_loop (max_loop_count cond : option expr) : bool :=
  bool_decide (is_Some max_loop_count) && bool_decide (cond = None).

Definition is_condition_for_loop (max_loop_count cond : option expr) : bool :=
  bool_decide (is_Some cond) && bool_decide (is_Some max_loop_count).

Definition cond_fn (max_loop_count cond : option expr) (loop_inputs : list expr)
    : result expr :=
  i ← Py.index loop_inputs 0;
  max_count ← Py.index loop_inputs 1;
  w ← Py.index loop_inputs 2;
  let out_while :=
    if bool_decide (is_Some cond)
    then Some (relay_op "equal" [] [w; scalar_const 1 "bool"]) else None in
  let out_loop :=
    if bool_decide (is_Some max_loop_count)
    then Some (relay_op "less" [] [i; max_count]) else None in
  let unbound := Raise (TypeError "local variable referenced before assignment") in
  if is_condition_for_loop max_loop_count cond then
    match out_while, out_loop with
    | Some a, Some b => Ok (relay_op "logical_and" [] [a; b])
    | _, _ => unbound
    end
  else if is_for_loop max_loop_count cond then from_option Ok unbound out_loop
  else from_option Ok unbound out_while.

(** [get_var] of the Loop converter. *)
Definition get_var (name : string) (val : option expr) (scan : bool) : M var :=
  ty ← lift (infer_type (as_expr val));
  let actual_shape :=
    (λ d, match d with
          | DimInt n => if n =? 0 then DimAny else DimInt n
          | DimAny => DimAny
          end) <$> ty.1 in
  if scan then new_var name (Some (DimAny :: actual_shape)) (Some ty.2)
  else new_var name (Some actual_shape) (Some ty.2).

(** [shape_of(x, dtype)] *)
Definition shape_of (x : expr) (dtype : string) : result expr :=
  ty ← infer_type x;
  match mapM (λ d, match d with DimInt n => Some n | DimAny => None end) ty.1 with
  | Some shape =>
      Ok (EConst {| nd_shape := [Py.len shape]; nd_dtype := dtype; nd_data := shape |}
                 (Some dtype))
  | None => Ok (relay_op ("shape_of:" +:+ dtype) [] [x])
  end.

(** Modelled from the spec: [_loops.while_loop] (relay/loops.py) is not
    part of the frontend file.  It builds the explicit fixed-point
    construct: a recursive function over fresh copies of the loop
    variables that, while the condition holds, calls itself on the body's
    results and otherwise returns the current state.  [cond] and
    [loop_bodies] are each applied once, to the fresh variables; [S] is
    whatever state the body closure updates. *)
Definition while_loop {S : Type} (cond : list expr → result expr)
    (loop_vars : list var) (loop_bodies : list expr → S → M (list expr * S))
    (s : S) : M (expr * S) :=
  loop ← new_var "while_loop" None None;
  fresh_vars ← foldM (λ acc lv,
                        v ← new_var (name_hint lv) (var_shape lv) (var_dtype lv);
                        mret (acc ++ [v])) [] loop_vars;
  c ← lift (cond (EVar <$> fresh_vars));
  '(outs, s) ← loop_bodies (EVar <$> fresh_vars) s;
  let body := EIf c (ECall (EVar loop) outs) (ETuple (EVar <$> fresh_vars)) in
  mret (ELet loop (EFunction fresh_vars body) (EVar loop), s).

(** [list(range(lo, hi))] for the comprehensions below. *)
Definition upto (lo hi : Z) : list Z := Py.range lo hi 1.

(** [body_fn] of the Loop converter; [subgraph_scope] is the closure's
    importer object, returned updated. *)
Definition body_fn (import : importer) (o : Z) (body : GraphPb)
    (loop_var_names : list string) (num_deps : Z) (iter_dtype : string)
    (max_loop_count : option expr)
    (loop_inputs : list expr) (subgraph_scope : GraphProto)
    : M (list expr * GraphProto) :=
  (* Unpack inputs *)
  loop_count ← lift (Py.index loop_inputs 0);
  max_count ← lift (Py.index loop_inputs 1);
  cond ← lift (Py.index loop_inputs 2);
  current_vars ← lift (Py.list_getslice loop_inputs
                         (Py.Slice (Some 3) (Some (3 + num_deps)) None));
  scan_outputs ← lift (Py.list_getslice loop_inputs
                         (Py.Slice (Some (3 + num_deps)) None None));
  (* Prepare body inputs by adding them to node dictionary. *)
  let new_inputs := [loop_count; max_count; cond] ++ current_vars in
  nodes ← lift (foldl (λ acc p,
                         d ← acc;
                         k ← Py.index loop_var_names p.1;
                         Ok (odict.set d k p.2))
                      (Ok (_nodes subgraph_scope)) (Py.enumerate new_inputs));
  let subgraph_scope := with_nodes subgraph_scope nodes in
  (* Get the output of the current loop using the updated inputs. *)
  '(loop_outputs, subgraph_scope) ← import subgraph_scope body o;
  (* Unpack the body outputs and prepare variables for next iteration. *)
  new_cond ← lift (expr_getitem loop_outputs 0);
  new_loop_vars ← lift (mapM (expr_getitem loop_outputs) (upto 1 (1 + num_deps)));
  n ← lift (expr_len loop_outputs);
  new_scan_outputs ← lift (mapM (expr_getitem loop_outputs) (upto (1 + num_deps) n));
  (* Add new scan outputs to tracking *)
  combined_scan_outputs ←
    lift (mapM (λ p,
                  let scan := p.2 in
                  ty ← infer_type scan;
                  let rank := Py.len ty.1 - 1 in
                  new_scan ← Py.index new_scan_outputs p.1;
                  let expand_scan := relay_op "expand_dims" [0] [new_scan] in
                  (* For non scalar outputs we need to broadcast the initial value. *)
                  scan ← (if 0 <? rank then
                            new_scan_shape ← shape_of new_scan iter_dtype;
                            let scan_broadcast :=
                              relay_op "concatenate" [0]
                                [ETuple [relay_op "reshape" [1] [loop_count];
                                         new_scan_shape]] in
                            Ok (relay_op "broadcast_to" [] [scan; scan_broadcast])
                          else Ok scan);
                  Ok (relay_op "concatenate" [0] [ETuple [scan; expand_scan]]))
               (Py.enumerate scan_outputs));
  (* Increment counter. *)
  let loop_count :=
    if bool_decide (is_Some max_loop_count)
    then relay_op "add" [] [loop_count; scalar_const 1 iter_dtype]
    else loop_count in
  (* Pack loop outputs for next iteration *)
  mret ([loop_count; max_count; new_cond] ++ new_loop_vars ++ combined_scan_outputs,
        subgraph_scope).

Definition Loop__impl_v11 (import : importer) (graph_scope : GraphProto)
    (inputs : onnx_input expr) (attr : odict.t attr_value)
    : M (op_result * GraphProto) :=
  max_loop_count ← lift (getitem_int inputs 0);
  cond ← lift (getitem_int inputs 1);
  sliced ← lift (onnx_input_getitem inputs (KSlice (Py.Slice (Some 2) None None)));
  let loop_deps := match sliced with Items xs => xs | Item _ => [] end in
  let num_deps := Py.len loop_deps in
  body_attr ← lift (odict.getitem attr "body");
  ty ← lift (infer_type (as_expr max_loop_count));
  let iter_dtype := ty.2 in
  (* Determine what condition mode we're in. *)
  _ ← lift (py_assert (bool_decide (is_Some cond) || bool_decide (is_Some max_loop_count)) "");
  (* Get the current graph proto and create a clone for the subgraph *)
  let subgraph_scope := subscope graph_scope in
  body ← lift (as_graph body_attr);
  (* Create a list of variables for each value updated in the loop. *)
  in0 ← lift (Py.index (graph.input body) 0);
  v_iter ← new_var (value_name in0) (Some []) (Some iter_dtype);
  v_max ← new_var "max_count" (Some []) (Some iter_dtype);
  in1 ← lift (Py.index (graph.input body) 1);
  v_cond ← get_var (value_name in1) cond false;
  v_deps ← foldM (λ acc p,
                    inp ← lift (Py.index (graph.input body) (p.1 + 2));
                    v ← get_var (value_name inp) p.2 false;
                    mret (acc ++ [v])) [] (Py.enumerate loop_deps);
  let loop_vars := [v_iter; v_max; v_cond] ++ v_deps in
  let loop_var_names := name_hint <$> loop_vars in
  let num_scan_outputs := Py.len (graph.output body) - (1 + num_deps) in
  o ← lift (scope_opset graph_scope);
  (* Construct variables and initial empty tensors for any scan outputs. *)
  '(loop_outputs, subgraph_scope) ←
    (if 0 <? num_scan_outputs then
       '(e, sub) ← import subgraph_scope body o;
       mret (Some e, sub)
     else mret (None, subgraph_scope));
  scans ← foldM (λ acc i,
                   out ← lift (Py.index (graph.output body) (i + 1 + num_deps));
                   '(name, _, _) ← lift (get_info out);
                   tup ← lift (from_option Ok (Raise (TypeError "loop_outputs unbound"))
                                 loop_outputs);
                   x ← lift (wrapper_getitem tup (Py.len (graph.output body))
                               (i + 1 + num_deps));
                   ty ← lift (infer_type x);
                   v ← new_var name (Some (replicate (S (length ty.1)) DimAny)) (Some ty.2);
                   let init :=
                     relay_op "reshape" (0 :: replicate (length ty.1) 1)
                       [EConst {| nd_shape := [0]; nd_dtype := ty.2; nd_data := [] |} None] in
                   mret (acc ++ [(v, init)]))
                [] (upto 0 num_scan_outputs);
  let scan_output_vars := scans.*1 in
  let scan_output_init := scans.*2 in
  (* Now we can remove loop iter variables from our inner loop's inputs. *)
  let body := graph.clear_input body in
  (* Create the loop function. *)
  '(loop, subgraph_scope) ←
    while_loop (cond_fn max_loop_count cond) (loop_vars ++ scan_output_vars)
      (body_fn import o body loop_var_names num_deps iter_dtype max_loop_count)
      subgraph_scope;
  let loop := fold_constant loop in
  (* Now need to run initial values through the graph. *)
  let init_count := scalar_const 0 iter_dtype in
  let loop_vals :=
    ECall loop ([init_count; as_expr max_loop_count; as_expr cond]
                ++ (as_expr <$> loop_deps) ++ scan_output_init) in
  (* Extract final iteration outputs. *)
  let n := num_deps + num_scan_outputs in
  let outputs :=
    if n =? 1 then Single (ETupleGetItem loop_vals 3)
    else TupleWrapper (ETuple ((λ i, ETupleGetItem loop_vals (i + 3)) <$> upto 0 n)) n in
  (* Update outer graph with constants found in the subgraph. *)
  mret (outputs, merge_scope graph_scope subgraph_scope (free_vars loop)).

(** What converting nodes may do to the importer object: the declared
    input table stays, bindings and constants are only added or rebound. *)
Definition scope_grows (self self' : GraphProto) : Prop :=
  _inputs self' = _inputs self ∧
  _freeze_params self' = _freeze_params self ∧
  odict.keys (_nodes self) ⊆ odict.keys (_nodes self') ∧
  odict.keys (_params self) ⊆ odict.keys (_params self') ∧
  (NoDup (odict.keys (_nodes self)) → NoDup (odict.keys (_nodes self'))).

(** *** [GraphProto._convert_operator] *)

Definition _convert_operator (import : importer) (self : GraphProto)
    (op_name : string) (inputs : onnx_input expr) (attrs : odict.t attr_value)
    (opset : Z) : M (op_result * GraphProto) :=
  convert_map ← lift (_get_convert_map opset);
  if bool_decide (op_name ∈ _identity_list) then
    mret (Single (relay_op op_name [] (as_expr <$> inputs)), self)
  else
    match convert_map op_name with
    | Some (Ordinary c) =>
        sym ← lift (c inputs attrs (_params self));
        mret (sym, self)
    | Some (Control Loop_impl_v11) => Loop__impl_v11 import self inputs attrs
    | Some (Control If_impl_v1) => If__impl_v1 import self inputs attrs
    | None => raise (NotImplementedError ("Operator " +:+ op_name +:+ " not implemented."))
    end.

(** *** [GraphProto.from_onnx] *)

(** One iteration of the node loop. *)
Definition convert_node (import : importer) (opset : Z) (self : GraphProto)
    (n : NodePb) : M GraphProto :=
  let op_name := node.op_type n in
  attr ← lift (_parse_attr (node.attribute n));
  (* Create and populate input list. *)
  inputs ← lift (mapM (λ i,
                         if bool_decide (i ≠ "") then
                           Some <$> odict.getitem (_nodes self)
                                      (default i (odict.get (_renames self) i))
                         else Ok None)
                      (node.input n));
  let i_name := node.name n in
  let node_output := _fix_outputs op_name (node.output n) in
  let attr := odict.set attr "tvm_custom" (ACustom i_name (Py.len node_output)) in
  '(op, self) ← _convert_operator import self op_name inputs attr opset;
  nodes ← lift (reconcile (_nodes self) op node_output);
  mret (with_nodes self nodes).

(** Everything up to the registration of the declared inputs. *)
Definition register (self : GraphProto) (gr : GraphPb) (opset : Z) : M GraphProto :=
  let self := with_opset self opset in
  (* parse network inputs to relay, aka parameters *)
  self ← foldM register_initializer self (graph.initializer gr);
  self ← foldM register_input self (graph.input gr);
  _ ← lift (check_user_shapes self);
  mret self.

(** A declared input that [register_input] passes over: its name is that
    of an initializer frozen into a constant. *)
Definition frozen_initializer (freeze_params : bool) (gr : GraphPb) (name : string) : Prop :=
  freeze_params = true ∧ name ∈ tensor_name <$> graph.initializer gr.

#[global] Instance frozen_initializer_dec (freeze_params : bool) (gr : GraphPb)
    (name : string) : Decision (frozen_initializer freeze_params gr name) :=
  and_dec _ _.

(** The names of [l] that are not in [seen], each once and at the place
    where it first occurs: the order in which a dict that already holds
    the keys [seen] receives the keys [l]. *)
Fixpoint first_occurrences (seen l : list string) : list string :=
  match l with
  | [] => []
  | k :: l =>
      if bool_decide (k ∈ seen) then first_occurrences seen l
      else k :: first_occurrences (k :: seen) l
  end.

(** From the completeness check to the output expression. *)
Definition convert_nodes (import : importer) (self : GraphProto) (gr : GraphPb)
    (opset : Z) : M (expr * GraphProto) :=
  (* get list of unsupported ops *)
  convert_map ← lift (_get_convert_map opset);
  _ ← lift (check_unsupported convert_map (graph.node gr));
  (* construct nodes, nodes are stored as directed acyclic graph *)
  self ← foldM (convert_node import opset) self (graph.node gr);
  (* now return the outputs *)
  outputs ← lift (mapM (λ i, odict.getitem (_nodes self) (value_name i))
                       (graph.output gr));
  mret (match outputs with [x] => x | _ => ETuple outputs end, self).

(** [nodes[var]] where [nodes = {v: k for k, v in self._nodes.items()}]:
    of the names bound to this very variable, the last one. *)
Definition is_var (v : var) (e : expr) : bool :=
  match e with
  | EVar v' => var_eqb v v'
  | _ => false
  end.

Definition name_of_var (nodes : odict.t expr) (v : var) : result string :=
  match last (filter (λ p, is_var v p.2 = true) nodes) with
  | Some p => Ok p.1
  | None => Raise (KeyError (name_hint v))
  end.

Definition as_var (e : expr) : result var :=
  match e with
  | EVar v => Ok v
  | _ => Raise (TypeError "Function parameter is not a Var")
  end.

Inductive import_result : Type :=
  | Outputs (e : expr)
  | Module (func : expr) (params : odict.t NDArray).

(** Maintain the order of inputs and parameters from the ONNX graph, but
    only include those parameters that are needed to execute the relay
    graph. *)
Definition assemble (self : GraphProto) (outputs : expr)
    : result (import_result * GraphProto) :=
  free_names ← mapM (name_of_var (_nodes self)) (free_vars outputs);
  inputs ← foldl (λ acc i_name,
                    inputs ← acc;
                    if bool_decide (i_name ∈ free_names) && negb (odict.mem inputs i_name)
                    then x ← odict.getitem (_nodes self) i_name;
                         Ok (odict.set inputs i_name x)
                    else Ok inputs)
                 (Ok (_inputs self)) (odict.keys (_params self));
  let self := with_inputs self inputs in
  (* Create a function from our output expression and all input variables. *)
  params ← mapM as_var (odict.values (_inputs self));
  Ok (Module (EFunction params outputs) (_params self), self).

Definition from_onnx_body (import : importer) (self : GraphProto) (gr : GraphPb)
    (opset : Z) (get_output_expr : bool) : M (import_result * GraphProto) :=
  self ← register self gr opset;
  '(outputs, self) ← convert_nodes import self gr opset;
  (* If requested, directly return the converted expressions. *)
  if get_output_expr then mret (Outputs outputs, self)
  else lift (assemble self outputs).

(** The nesting depth of control-flow bodies is bounded by [fuel]. *)
Fixpoint from_onnx_outputs (fuel : nat) : importer :=
  match fuel with
  | O => λ _ _ _, raise OutOfFuel
  | S fuel' => λ self gr opset,
      '(r, self) ← from_onnx_body (from_onnx_outputs fuel') self gr opset true;
      match r with
      | Outputs e => mret (e, self)
      | Module _ _ => raise (TypeError "expected the output expression")
      end
  end.

Definition from_onnx (fuel : nat) (self : GraphProto) (gr : GraphPb) (opset : Z)
    (get_output_expr : bool) : M (import_result * GraphProto) :=
  match fuel with
  | O => raise OutOfFuel
  | S fuel' => from_onnx_body (from_onnx_outputs fuel') self gr opset get_output_expr
  end.

(** *** The module-level [from_onnx] *)

Record ModelProto : Type := {
  model_graph : GraphPb;
  opset_import : list Z
}.

Definition frontend_from_onnx (fuel : nat) (model : ModelProto)
    (shape : odict.t (list dim)) (dtype : dtype_spec) (opset : option Z)
    (freeze_params : bool) : result (expr * odict.t NDArray) :=
  let g := GraphProto_init shape dtype freeze_params true in
  let opset_in_model := default 1 (head (opset_import model)) in
  let opset := default opset_in_model opset in
  (* Use the graph proto as a scope so that ops can access other nodes if needed. *)
  '(r, _, _) ← from_onnx fuel g (model_graph model) opset false 0%nat;
  match r with
  | Module func params => Ok (func, params)
  | Outputs _ => Raise (TypeError "expected a module")
  end.

End importer.

(** ** A small concrete setting for running the importer

    Tensors are taken as they come, constant folding is the identity,
    every expression but [None] is typed as a scalar int64, and four
    ordinary converters are registered: [Add], [Split] (three outputs),
    [Clip] (which, given only its data input, returns it unchanged, as
    [Clip._impl_v11] does) and [Dropout]. *)

Module Demo.

Definition table (opset : Z) (name : string) : option converter :=
  if bool_decide (name = "Add") then
    Some (λ inputs _ _, Ok (Single (relay_op "add" [] (as_expr <$> inputs))))
  else if bool_decide (name = "Split") then
    Some (λ inputs _ _, Ok (TupleWrapper (relay_op "split" [] (as_expr <$> inputs)) 3))
  else if bool_decide (name = "Clip") then
    Some (λ inputs _ _, x ← getitem_int inputs 0; Ok (Single (as_expr x)))
  else if bool_decide (name = "Dropout") then
    Some (λ inputs _ _, Ok (Single (relay_op "dropout" [] (as_expr <$> inputs))))
  else None.

#[local] Instance oracles : Oracles := {|
  to_array t := Ok {| nd_shape := dims t; nd_dtype := "float32"; nd_data := raw_data t |};
  np_reshape a d := Ok {| nd_shape := d; nd_dtype := nd_dtype a; nd_data := nd_data a |};
  TENSOR_TYPE_TO_NP_TYPE n :=
    if n =? 1 then Some "float32" else if n =? 7 then Some "int64"
    else if n =? 9 then Some "bool" else None;
  fold_constant e := e;
  infer_type e :=
    match e with
    | ENull => Raise (OracleError "infer_type(None)")
    | _ => Ok ([], "int64")
    end;
  op_table := table
|}.

Definition tensor (n : string) (data : list Z) : TensorProto :=
  {| tensor_name := n; dims := [Py.len data]; data_type := 1; raw_data := data |}.

Definition info (n : string) : ValueInfoProto :=
  {| value_name := n;
     shape_dim := [ {| dim_param := ""; dim_value := Some 2 |} ];
     elem_type := 1 |}.

Definition plain (op : string) (i o : list string) : NodePb := MkNode "" op i o [].

Definition with_graphs (op : string) (i o : list string)
    (gs : list (string * GraphPb)) : NodePb :=
  MkNode "" op i o
    ((λ p, MkAttribute p.1 None None None (Some p.2) [] [] [] None [] []) <$> gs).

(** [from_onnx(model, freeze_params=freeze)] at opset 11. *)
Definition import (gr : GraphPb) (freeze : bool) : result (expr * odict.t NDArray) :=
  frontend_from_onnx 3 {| model_graph := gr; opset_import := [11] |}
    [] (DtypeStr "float32") None freeze.

Definition w : var := Var 0 "w" (Some [DimInt 2]) (Some "float32").
Definition w_value : NDArray :=
  {| nd_shape := [2]; nd_dtype := "float32"; nd_data := [1; 2] |}.

Definition c : var := Var 1 "c" (Some [DimInt 2]) (Some "float32").
Definition x : var := Var 2 "x" (Some [DimInt 2]) (Some "float32").

(** An [If] whose branches read [x] and [w] from the enclosing graph and
    bind [t] and [e]. *)
Definition then_body : GraphPb :=
  MkGraph [plain "Add" ["x"; "w"] ["t"]] [] [] [info "t"].
Definition else_body : GraphPb :=
  MkGraph [plain "Add" ["x"; "x"] ["e"]] [] [] [info "e"].
Definition if_attr : odict.t attr_value :=
  [("then_branch", AGraph then_body); ("else_branch", AGraph else_body)].
Definition if_node : NodePb :=
  with_graphs "If" ["c"] ["y"] [("then_branch", then_body); ("else_branch", else_body)].

(** An [If] whose then branch hands on the enclosing graph's [w] as it
    is, through a [Clip] without bounds, under the name [t]. *)
Definition alias_body : GraphPb :=
  MkGraph [plain "Clip" ["w"] ["t"]] [] [] [info "t"].
Definition alias_attr : odict.t attr_value :=
  [("then_branch", AGraph alias_body); ("else_branch", AGraph else_body)].
Definition alias_node : NodePb :=
  with_graphs "If" ["c"] ["y"] [("then_branch", alias_body); ("else_branch", else_body)].

(** A [Loop] with one loop-carried value; its body adds the enclosing
    graph's [w] to it. *)
Definition loop_body : GraphPb :=
  MkGraph [plain "Add" ["v_in"; "w"] ["v_out"]; plain "Clip" ["cond_in"] ["cond_out"]]
    [] [info "i"; info "cond_in"; info "v_in"] [info "cond_out"; info "v_out"].
Definition loop_attr : odict.t attr_value := [("body", AGraph loop_body)].
Definition loop_node : NodePb :=
  with_graphs "Loop" ["c"; "c"; "x"] ["v_final"] [("body", loop_body)].

(** The top-level importer object of a graph with initializer [w] and
    declared inputs [c] and [x], once they are registered. *)
Definition scope : GraphProto :=
  {| _nodes := [("w", EVar w); ("c", EVar c); ("x", EVar x)];
     _params := [("w", w_value)];
     _inputs := [("c", EVar c); ("x", EVar x)];
     _renames := [];
     _num_input := 2; _num_param := 0; _shape := []; _input_names := ["c"; "x"];
     _dtype := DtypeStr "float32"; opset := Some 11; _freeze_params := false;
     _old_manager_is_None := true |}.

Definition registered (nodes : list NodePb) (output : string) : GraphPb :=
  MkGraph nodes [tensor "w" [1; 2]] [info "c"; info "x"] [info output].

End Demo.

(** ** A setting that types an absent value

    The Loop converter applies [infer_type] to its maximum trip count and
    to its condition before it looks at which of them is present.  Here
    [infer_type] types [None] too, as a scalar int64, so that the
    converter can be run with either of them left out; all else is as in
    [Demo]. *)

Module Lenient.

#[local] Instance oracles : Oracles := {|
  to_array := @to_array Demo.oracles;
  np_reshape := @np_reshape Demo.oracles;
  TENSOR_TYPE_TO_NP_TYPE := @TENSOR_TYPE_TO_NP_TYPE Demo.oracles;
  fold_constant e := e;
  infer_type e := Ok ([], "int64");
  op_table := Demo.table
|}.

End Lenient.

(** * The converter helpers of the frontend

    The module-level helpers that the pooling, convolution, slicing and
    unsqueeze converters share.  Besides Python's own exceptions they
    raise [tvm.error.OpAttributeInvalid]. *)

Inductive error : Type :=
  | PyExn (e : exn)
  | ZeroDivisionError
  | OpAttributeInvalid (msg : string).

Definition outcome (A : Type) : Type := error + A.

(** [sub in s] on strings. *)
Fixpoint contains (s sub : string) : bool :=
  String.prefix sub s
  || match s with
     | EmptyString => false
     | String _ s' => contains s' sub
     end.

(** [len(x)] on an attribute value: the repeated fields are tuples, a
    byte string has its length, the [tvm_custom] dict has two keys, and
    numbers and protobuf messages have none. *)
Definition attr_len (x : attr_value) : result Z :=
  match x with
  | AFloats xs => Ok (Py.len xs)
  | AInts xs => Ok (Py.len xs)
  | AStrings xs => Ok (Py.len xs)
  | ATensors xs => Ok (Py.len xs)
  | AStr s => Ok (Z.of_nat (String.length s))
  | ACustom _ _ => Ok 2
  | AFloat _ => Raise (TypeError "object of type 'float' has no len()")
  | AInt _ => Raise (TypeError "object of type 'int' has no len()")
  | AGraph _ => Raise (TypeError "object of type 'GraphProto' has no len()")
  | ATensor _ => Raise (TypeError "object of type 'TensorProto' has no len()")
  end.

(** [len(attr["kernel_shape"])] *)
Definition kernel_rank (attr : odict.t attr_value) : result Z :=
  kernel ← odict.getitem attr "kernel_shape";
  attr_len kernel.

(** [dimension_picker(prefix, suffix)(attr)]: Check that dimensions are
    supported. *)
Definition dimension_picker (prefix suffix : string) (attr : odict.t attr_value)
    : outcome string :=
  match kernel_rank attr with
  | inl e => inl (PyExn e)
  | inr n =>
      if n =? 1 then inr (prefix +:+ "1d" +:+ suffix)
      else if n =? 2 then inr (prefix +:+ "2d" +:+ suffix)
      else if n =? 3 then inr (prefix +:+ "3d" +:+ suffix)
      else
        let op_name := prefix +:+ "1d/2d/3d" in
        inl (OpAttributeInvalid
               ("Only 1D, 2D, and 3D kernels are supported for operator "
                +:+ op_name +:+ "."))
  end.

(** [dimension_constraint()]: the check and its message. *)
Definition _dim_check (attrs : odict.t attr_value) : result bool :=
  n ← kernel_rank attrs;
  Ok (bool_decide (n ∈ [1; 2; 3])).

Definition dimension_constraint : (odict.t attr_value → result bool) * string :=
  (_dim_check, "Only 1d, 2d and 3d kernel supported.").

(** [revert_caffe2_pad]: Caffe2 requires two times the normal padding. *)
Definition revert_caffe2_pad {A} (pads : list A) : outcome (list A) :=
  if Py.len pads =? 4 then inr (take 2 pads)
  else if Py.len pads =? 2 then inr pads
  else inl (OpAttributeInvalid "Number of pads must be either 2 or 4.").

(** [get_pad_pair]: infer pad size.  [%] and [//] are Python's, which
    round towards minus infinity as [Z.modulo] and [Z.div] do. *)
Definition get_pad_pair (input1d kernel1d stride1d : Z) (mode : string)
    : outcome (list Z) :=
  if stride1d =? 0 then inl ZeroDivisionError
  else
    let pad :=
      if input1d mod stride1d =? 0 then Z.max (kernel1d - stride1d) 0
      else Z.max (kernel1d - input1d mod stride1d) 0 in
    let pad_before := pad / 2 in
    let pad_after := pad - pad_before in
    if contains mode "LOWER" then inr [pad_after; pad_before]
    else inr [pad_before; pad_after].

Definition layout_unsupported {A} (op_name : string) : outcome A :=
  inl (OpAttributeInvalid
         ("Only 1D, 2D and 3D layouts are currently supported for operator "
          +:+ op_name +:+ ".")).

Definition onnx_default_layout (dims : Z) (op_name : string) : outcome string :=
  if dims =? 1 then inr "NCW"
  else if dims =? 2 then inr "NCHW"
  else if dims =? 3 then inr "NCDHW"
  else layout_unsupported op_name.

(** [onnx_storage_order2layout]: converter of onnx storage order
    parameter to tvm storage order format. *)
Definition onnx_storage_order2layout (storage_order dims : Z) (op_name : string)
    : outcome string :=
  if negb (bool_decide (storage_order ∈ [0; 1])) then
    inl (OpAttributeInvalid "Mode of storage_order must be either 0 or 1")
  else if dims =? 1 then inr (if storage_order =? 0 then "NCW" else "NWC")
  else if dims =? 2 then inr (if storage_order =? 0 then "NCHW" else "NHWC")
  else if dims =? 3 then inr (if storage_order =? 0 then "NCDHW" else "NDHWC")
  else layout_unsupported op_name.

(** [l[i] = x] on a list. *)
Definition list_setitem {A} (l : list A) (i : Z) (x : A) : result (list A) :=
  let j := if i <? 0 then i + Py.len l else i in
  if (j <? 0) || (Py.len l <=? j) then Raise IndexError
  else Ok (<[Z.to_nat j := x]> l).

(** [np.iinfo(np.int32).max] *)
Definition int32_max : Z := 2147483647.

(** [Slice._common]: starts and ends spread over the axes [0 .. max(axes)]. *)
Definition Slice__common (starts ends axes : list Z)
    : result (list Z * list Z * list Z) :=
  m ← Py.max axes;
  let N := m + 1 in
  let new_axes := Py.range 0 N 1 in
  let new_starts := replicate (Z.to_nat N) 0 in
  let new_ends := replicate (Z.to_nat N) int32_max in
  '(new_starts, new_ends) ←
    foldl (λ acc p,
             '(new_starts, new_ends) ← acc;
             s ← Py.index starts p.1;
             new_starts ← list_setitem new_starts p.2 s;
             e ← Py.index ends p.1;
             new_ends ← list_setitem new_ends p.2 e;
             Ok (new_starts, new_ends))
          (Ok (new_starts, new_ends)) (Py.enumerate axes);
  Ok (new_starts, new_ends, new_axes).

(** [Unsqueeze.run_calculation]: one [expand_dims] per axis, in
    ascending order of the axes. *)
Definition Unsqueeze_run_calculation (tensor : expr) (axes : list Z) : expr :=
  foldl (λ tensor axis, relay_op "expand_dims" [axis; 1] [tensor])
        tensor (Py.sorted axes).

(** ** Reading an [AttributeProto]

    [attribute.fields] lists the values an attribute carries, in the
    order in which [_parse_attr] looks at its fields: [f], [i], [s], [g],
    then the non-empty ones of [floats], [ints], [strings], then [t], then
    [tensors] when non-empty. *)

Definition repeated {X} (wrap : list X → attr_value) (xs : list X) : list attr_value :=
  match xs with
  | [] => []
  | _ => [wrap xs]
  end.

Module attribute.
Definition name (a : AttributePb) : string :=
  let 'MkAttribute x _ _ _ _ _ _ _ _ _ _ := a in x.
Definition graphs (a : AttributePb) : list GraphPb :=
  let 'MkAttribute _ _ _ _ _ _ _ _ _ _ x := a in x.
Definition fields (a : AttributePb) : list attr_value :=
  let 'MkAttribute _ f i s g floats ints strings t tensors _ := a in
  option_list (AFloat <$> f) ++ option_list (AInt <$> i)
  ++ option_list (AStr <$> s) ++ option_list (AGraph <$> g)
  ++ repeated AFloats floats ++ repeated AInts ints ++ repeated AStrings strings
  ++ option_list (ATensor <$> t) ++ repeated ATensors tensors.
End attribute.

(** ** Importer objects that embed their constants

    An importer created with [freeze_params=True] that holds no entry in
    its constant table. *)
Definition frozen (self : GraphProto) : Prop :=
  _freeze_params self = true ∧ _params self = [].

(** ** [Sum._impl_v1]

    The converter adds in place: each input is replaced by its sum with
    the one before, and the last entry is the result.  [_op.add] builds
    the call of the relay operator [add]. *)
Definition Sum__impl_v1 (inputs : onnx_input expr) : result (option expr) :=
  inputs ←
    foldl (λ acc in_index,
             inputs ← acc;
             a ← getitem_int inputs in_index;
             b ← getitem_int inputs (in_index + 1);
             list_setitem inputs (in_index + 1)
               (Some (relay_op "add" [] [as_expr a; as_expr b])))
          (Ok inputs) (Py.range 0 (Py.len inputs - 1) 1);
  getitem_int inputs (Py.len inputs - 1).

(** ** [Clip._impl_v11]

    [Clip.convert_attributes] goes through [AttrCvt] of the frontend's
    common module, and [x.data.numpy().item()] through numpy; both are
    taken as given.  Slicing the node inputs yields a plain list, on
    which an index out of range raises instead of giving [None]: the
    flag [plain] says which of the two the current [inputs] is. *)

(** [isinstance(x, _expr.Constant)] *)
Definition is_constant (x : option expr) : bool :=
  match x with
  | Some (EConst _ _) => true
  | _ => false
  end.

Definition seq_getitem (plain : bool) (l : list (option expr)) (i : Z)
    : result (option expr) :=
  if plain then Py.index l i else getitem_int l i.

Definition seq_getslice (plain : bool) (l : list (option expr)) (s : Py.slice)
    : result (list (option expr)) :=
  if plain then Py.list_getslice l s
  else
    r ← onnx_input_getitem l (KSlice s);
    match r with
    | Items xs => Ok xs
    | Item _ => Raise (TypeError "a slice yields a list")
    end.

(** [op(result, x)] when [x is not None], else [result]. *)
Definition apply_bound (op : string) (result : option expr) (x : option expr)
    : option expr :=
  match x with
  | Some e => Some (relay_op op [] [as_expr result; e])
  | None => result
  end.

Section Clip.
Variable convert_attributes :
  list (option expr) → odict.t attr_value → odict.t NDArray → result expr.
Variable numpy_item : NDArray → result attr_value.

(** [attr[key] = inputs[i].data.numpy().item(); inputs = inputs[0:i]]
    when [inputs[i]] is a constant. *)
Definition take_constant (key : string) (i : Z) (plain : bool)
    (inputs : list (option expr)) (attr : odict.t attr_value)
    : result (bool * list (option expr) * odict.t attr_value) :=
  x ← seq_getitem plain inputs i;
  match x with
  | Some (EConst a _) =>
      v ← numpy_item a;
      xs ← seq_getslice plain inputs (Py.Slice (Some 0) (Some i) None);
      Ok (true, xs, odict.set attr key v)
  | _ => Ok (plain, inputs, attr)
  end.

(** The bounds that are left as inputs, applied one after the other. *)
Definition clip_inputs (plain : bool) (inputs : list (option expr))
    : result (option expr) :=
  _ ← py_assert (Py.len inputs <=? 3) "Clip-11 takes up to 3 inputs, input, min, max";
  result ← seq_getitem plain inputs 0;
  foldl (λ acc p,
           result ← acc;
           if p.1 <? Py.len inputs - 1 then
             x ← seq_getitem plain inputs (p.1 + 1);
             Ok (apply_bound p.2 result x)
           else Ok result)
        (Ok result) (Py.enumerate ["maximum"; "minimum"]).

Definition Clip__impl_v11 (inputs : onnx_input expr) (attr : odict.t attr_value)
    (params : odict.t NDArray) : result (option expr) :=
  '(plain, inputs, attr) ←
    (if Py.len inputs =? 3 then take_constant "max" 2 false inputs attr
     else Ok (false, inputs, attr));
  '(plain, inputs, attr) ←
    (if 2 <=? Py.len inputs then take_constant "min" 1 plain inputs attr
     else Ok (plain, inputs, attr));
  if odict.mem attr "min" && odict.mem attr "max" then
    Some <$> convert_attributes inputs attr params
  else clip_inputs plain inputs.

End Clip.

(** * Properties *)

(** ** The error monad *)

Lemma bind_Ok {A B} (m : result A) (k : A → result B) (y : B) :
  m ≫= k = Ok y → ∃ x, m = Ok x ∧ k x = Ok y.
Proof. destruct m as [e|x]; [discriminate|]. intros Hk. by exists x. Qed.

Lemma mapM_result_ext {A B} (f g : A → result B) (l : list A) :
  (∀ x, x ∈ l → f x = g x) → mapM f l = mapM g l.
Proof.
  induction l as [|x l IH]; intros Hfg; [done|].
  cbn. rewrite (Hfg x) by left.
  rewrite IH; [done|]. intros y Hy. apply Hfg. by right.
Qed.

Lemma mapM_result_Ok {A B} (f : A → result B) (l : list A) :
  (∀ x, x ∈ l → ∃ y, f x = Ok y) → ∃ ys, mapM f l = Ok ys.
Proof.
  induction l as [|x l IH]; intros Hf; [by exists []|].
  destruct (Hf x) as [y Hy]; [left|].
  destruct IH as [ys Hys]; [intros z Hz; apply Hf; by right|].
  exists (y :: ys). cbn. rewrite Hy. cbn. by rewrite Hys.
Qed.

(** ** Python sequences *)

Lemma len_nonneg {A} (l : list A) : 0 ≤ Py.len l.
Proof. unfold Py.len. lia. Qed.

Lemma len_app {A} (l1 l2 : list A) : Py.len (l1 ++ l2) = Py.len l1 + Py.len l2.
Proof. unfold Py.len. rewrite length_app. lia. Qed.

Lemma index_in_range {A} (l : list A) (i : Z) :
  0 ≤ i < Py.len l → ∃ x, l !! Z.to_nat i = Some x ∧ Py.index l i = Ok x.
Proof.
  intros Hi. unfold Py.index.
  destruct (Z.ltb_spec i 0); [lia|].
  destruct (Z.ltb_spec i 0); [lia|].
  destruct (Z.leb_spec (Py.len l) i); [lia|]. cbn.
  destruct (lookup_lt_is_Some_2 l (Z.to_nat i)) as [x Hx].
  { unfold Py.len in *. lia. }
  exists x. by rewrite Hx.
Qed.

Lemma index_nat {A} (l : list A) (k : nat) (x : A) :
  l !! k = Some x → Py.index l (Z.of_nat k) = Ok x.
Proof.
  intros Hk. destruct (index_in_range l (Z.of_nat k)) as (y & Hy & ->).
  { apply lookup_lt_Some in Hk. unfold Py.len. lia. }
  rewrite Nat2Z.id in Hy. congruence.
Qed.

(** Every index a clamped slice of a length-[n] sequence produces lies
    inside the sequence. *)
Lemma range_of_slice_in_bounds (s : Py.slice) (n st sp stp : Z) :
  0 ≤ n → Py.slice_indices s n = Ok (st, sp, stp) →
  ∀ i, i ∈ Py.range st sp stp → 0 ≤ i < n.
Proof.
  intros Hn Hs i Hi. unfold Py.slice_indices in Hs.
  destruct (Z.eqb_spec (default 1 (Py.step s)) 0) as [|Hstep]; [discriminate|].
  injection Hs as Hst Hsp Hstp. rewrite Hstp in *.
  unfold Py.range in Hi. apply list_elem_of_fmap in Hi as (k & -> & Hk).
  apply elem_of_seq in Hk. unfold Py.range_length in Hk.
  destruct (Z.ltb_spec stp 0) as [Hneg|Hpos].
  - (* negative step: start <= n - 1, stop >= -1 *)
    destruct (Z.ltb_spec 0 stp); [lia|].
    assert (st ≤ n - 1) as Hst_hi.
    { subst st. destruct (Py.start s) as [x|]; [|lia].
      destruct (Z.ltb_spec x 0); lia. }
    assert (-1 ≤ sp) as Hsp_lo.
    { subst sp. destruct (Py.stop s) as [x|]; [|lia].
      destruct (Z.ltb_spec x 0); lia. }
    destruct (Z.ltb_spec sp st) as [Hlt|]; [|simpl in Hk; lia].
    assert (0 ≤ (st - sp - 1) / - stp) by (apply Z.div_pos; lia).
    assert (- stp * ((st - sp - 1) / - stp) ≤ st - sp - 1)
      by (apply Z.mul_div_le; lia).
    nia.
  - (* positive step: start >= 0, stop <= n *)
    destruct (Z.ltb_spec 0 stp); [|lia].
    assert (0 ≤ st) as Hst_lo.
    { subst st. destruct (Py.start s) as [x|]; [|lia].
      destruct (Z.ltb_spec x 0); lia. }
    assert (sp ≤ n) as Hsp_hi.
    { subst sp. destruct (Py.stop s) as [x|]; [|lia].
      destruct (Z.ltb_spec x 0); lia. }
    destruct (Z.ltb_spec st sp) as [Hlt|]; [|simpl in Hk; lia].
    assert (0 ≤ (sp - st - 1) / stp) by (apply Z.div_pos; lia).
    assert (stp * ((sp - st - 1) / stp) ≤ sp - st - 1)
      by (apply Z.mul_div_le; lia).
    nia.
Qed.

(** ** [onnx_input] *)

Section onnx_input_facts.
Context {A : Type}.
Implicit Types self : onnx_input A.

Lemma len_padded self stop : Py.len self ≤ stop → Py.len (padded self stop) = stop.
Proof.
  intros. unfold padded. rewrite len_app. unfold Py.len at 2.
  rewrite length_replicate. pose proof (len_nonneg self). lia.
Qed.

Lemma getitem_int_padded self stop i :
  Py.len self ≤ stop → 0 ≤ i < stop →
  ∃ x, getitem_int self i = Ok x ∧ Py.index (padded self stop) i = Ok x.
Proof.
  intros Hstop Hi.
  destruct (index_in_range (padded self stop) i) as (x & Hx & Hidx).
  { by rewrite len_padded. }
  exists x. split; [|done]. unfold getitem_int.
  destruct (Z.ltb_spec i (Py.len self)) as [Hin|Hout].
  - destruct (index_in_range self i) as (y & Hy & ->); [lia|].
    unfold padded in Hx. rewrite lookup_app_l in Hx; [congruence|].
    unfold Py.len in Hin. lia.
  - unfold padded in Hx. rewrite lookup_app_r in Hx by (unfold Py.len in Hout; lia).
    apply lookup_replicate in Hx as [-> _]. done.
Qed.

(** C9.  Indexing the input-list wrapper: an integer at or past the
    end yields [None]; a slice whose stop exceeds the length reads as
    the same slice of the list padded with [None] up to that stop; a
    key that is neither an integer nor a slice raises TypeError; a
    negative integer is handed to ordinary list indexing unchecked. *)
Theorem onnx_input_getitem_spec self :
  (∀ i, Py.len self ≤ i → onnx_input_getitem self (KInt i) = Ok (Item None)) ∧
  (∀ start stop step,
     Py.len self < stop → step ≠ Some 0 →
     ∃ xs, Py.list_getslice (padded self stop) (Py.Slice start (Some stop) step) = Ok xs ∧
           onnx_input_getitem self (KSlice (Py.Slice start (Some stop) step))
           = Ok (Items xs)) ∧
  (∀ t, onnx_input_getitem self (KOther t)
        = Raise (TypeError ("list indices must be integers or slices, not " +:+ t))) ∧
  (∀ i, i < 0 → onnx_input_getitem self (KInt i) = Item <$> Py.index self i).
Proof.
  split_and!.
  - intros i Hi. cbn. unfold getitem_int.
    by destruct (Z.ltb_spec i (Py.len self)); [lia|].
  - intros start stop step Hstop Hstep.
    pose proof (len_nonneg self) as Hlen.
    set (s := Py.Slice start (Some stop) step).
    unfold Py.list_getslice, onnx_input_getitem, Py.range_getslice. cbn [Py.stop s].
    rewrite len_padded by lia. rewrite Z.max_r by lia.
    destruct (Py.slice_indices s stop) as [e|[[st sp] stp]] eqn:Hs.
    { exfalso. unfold Py.slice_indices in Hs. cbn in Hs.
      destruct step as [x|]; cbn in Hs; [|discriminate].
      destruct (Z.eqb_spec x 0); [congruence|discriminate]. }
    cbn.
    pose proof (range_of_slice_in_bounds s stop st sp stp ltac:(lia) Hs) as Hin.
    destruct (mapM_result_Ok (Py.index (padded self stop)) (Py.range st sp stp))
      as [xs Hxs].
    { intros i Hi. destruct (getitem_int_padded self stop i) as (x & _ & Hx);
        [lia|by apply Hin|]. by exists x. }
    exists xs. split; [done|].
    rewrite (mapM_result_ext (getitem_int self) (Py.index (padded self stop))).
    + by rewrite Hxs.
    + intros i Hi. destruct (getitem_int_padded self stop i) as (x & -> & ->);
        [lia|by apply Hin|done].
  - done.
  - intros i Hi. cbn. unfold getitem_int.
    pose proof (len_nonneg self).
    destruct (Z.ltb_spec i (Py.len self)); [|lia].
    by destruct (Py.index self i).
Qed.

End onnx_input_facts.

Lemma onnx_input_getitem_spec_witness :
  onnx_input_getitem [Some 7%nat] (KInt 1) = Ok (Item None)
  ∧ (∃ xs, Py.list_getslice (padded [Some 7%nat] 3) (Py.Slice (Some 0) (Some 3) None) = Ok xs
           ∧ onnx_input_getitem [Some 7%nat] (KSlice (Py.Slice (Some 0) (Some 3) None))
             = Ok (Items xs))
  ∧ onnx_input_getitem [Some 7%nat] (KInt (-1)) = Item <$> Py.index [Some 7%nat] (-1).
Proof.
  pose proof (onnx_input_getitem_spec [Some 7%nat]) as (H1 & H2 & _ & H4).
  split_and!.
  - apply H1. vm_compute. discriminate.
  - apply H2; [reflexivity|discriminate].
  - apply H4. reflexivity.
Defined.

(** What the wrapper returns on a three-element input list, for the keys a
    converter typically uses. *)
Example onnx_input_getitem_runs :
  let inputs : onnx_input nat := [Some 1%nat; None; Some 3%nat] in
  onnx_input_getitem inputs (KInt 2) = Ok (Item (Some 3%nat)) ∧
  onnx_input_getitem inputs (KInt 3) = Ok (Item None) ∧
  onnx_input_getitem inputs (KInt (-1)) = Ok (Item (Some 3%nat)) ∧
  onnx_input_getitem inputs (KInt (-4)) = Raise IndexError ∧
  onnx_input_getitem inputs (KSlice (Py.Slice (Some 2) None None))
  = Ok (Items [Some 3%nat]) ∧
  onnx_input_getitem inputs (KSlice (Py.Slice (Some 1) (Some 5) None))
  = Ok (Items [None; Some 3%nat; None; None]).
Proof. by vm_compute. Qed.

(** ** [get_converter] *)

Lemma elem_of_enumerate {A} (l : list A) (i : Z) (x : A) :
  (i, x) ∈ Py.enumerate l ↔ 0 ≤ i ∧ l !! Z.to_nat i = Some x.
Proof.
  unfold Py.enumerate, zip. rewrite list_elem_of_lookup. split.
  - intros (k & Hk). apply lookup_zip_with_Some in Hk as (a & b & [= -> ->] & Ha & Hb).
    rewrite list_lookup_fmap in Ha. apply fmap_Some in Ha as (j & Hj & ->).
    apply lookup_seq in Hj as [-> _]. rewrite Nat2Z.id. split; [lia|done].
  - intros [Hi Hx]. exists (Z.to_nat i). apply lookup_zip_with_Some.
    exists i, x. split_and!; [done| |done].
    rewrite list_lookup_fmap, lookup_seq_lt by (by eapply lookup_lt_Some).
    cbn. f_equal. lia.
Qed.

Lemma max_spec (x : Z) (l : list Z) :
  ∃ m, Py.max (x :: l) = Ok m ∧ m ∈ x :: l ∧ ∀ y, y ∈ x :: l → y ≤ m.
Proof.
  unfold Py.max. exists (foldl Z.max x l). split; [done|].
  revert x. induction l as [|z l IH]; intros x; cbn.
  - split; [left|]. intros y Hy. apply list_elem_of_singleton in Hy. lia.
  - destruct (IH (Z.max x z)) as [Hin Hle]. split.
    + apply elem_of_cons in Hin as [Heq|Hin]; [|by do 2 right].
      rewrite Heq. destruct (Z.max_spec x z) as [[_ ->]|[_ ->]]; [right|]; left.
    + intros y Hy. apply elem_of_cons in Hy as [->|Hy].
      * transitivity (Z.max x z); [lia|]. apply Hle. left.
      * apply elem_of_cons in Hy as [->|Hy].
        -- transitivity (Z.max x z); [lia|]. apply Hle. left.
        -- apply Hle. by right.
Qed.

(** [sorted(versions + [opset])] is the versions up to [opset], then
    [opset], then the versions above it. *)
Lemma sorted_split (vs : list Z) (r : Z) :
  ∃ lo hi,
    Py.sorted (vs ++ [r]) = lo ++ r :: hi ∧
    lo ++ hi ≡ₚ vs ∧
    StronglySorted Z.le lo ∧ StronglySorted Z.le hi ∧
    (∀ x, x ∈ lo → x ≤ r) ∧ (∀ x, x ∈ hi → r < x).
Proof.
  set (lo := merge_sort Z.le (filter (λ x, x ≤ r) vs)).
  set (hi := merge_sort Z.le (filter (λ x, ¬ x ≤ r) vs)).
  assert (∀ x, x ∈ lo → x ≤ r) as Hlo.
  { intros x. unfold lo. rewrite merge_sort_Permutation, list_elem_of_filter. tauto. }
  assert (∀ x, x ∈ hi → r < x) as Hhi.
  { intros x. unfold hi. rewrite merge_sort_Permutation, list_elem_of_filter. lia. }
  assert (lo ++ hi ≡ₚ vs) as Hperm.
  { unfold lo, hi. rewrite !merge_sort_Permutation. apply filter_app_complement. }
  exists lo, hi. split_and!; try done; try apply StronglySorted_merge_sort; try apply _.
  apply (StronglySorted_unique Z.le).
  - apply StronglySorted_merge_sort; apply _.
  - apply StronglySorted_app_2.
    + intros x y Hx Hy. apply Hlo in Hx.
      apply elem_of_cons in Hy as [->|Hy]; [done|]. apply Hhi in Hy. lia.
    + apply StronglySorted_merge_sort; apply _.
    + apply StronglySorted_cons. split; [|apply StronglySorted_merge_sort; apply _].
      apply Forall_forall. intros y Hy. apply Hhi in Hy. lia.
  - unfold Py.sorted. rewrite merge_sort_Permutation.
    rewrite <- Hperm, <- Permutation_middle, app_nil_r. apply Permutation_middle.
Qed.

(** The index [get_converter] computes: the position of [opset] behind
    the versions that do not exceed it. *)
Lemma max_index_of_opset (lo hi : list Z) (r : Z) :
  (∀ x, x ∈ hi → r < x) →
  Py.max ((λ p, p.1) <$> filter (λ p, p.2 = r) (Py.enumerate (lo ++ r :: hi)))
  = Ok (Py.len lo).
Proof.
  intros Hhi.
  set (idxs := (λ p : Z * Z, p.1) <$> _).
  assert (∀ i, i ∈ idxs ↔ 0 ≤ i ∧ (lo ++ r :: hi) !! Z.to_nat i = Some r) as Hidx.
  { intros i. unfold idxs. rewrite list_elem_of_fmap. split.
    - intros ([j x] & -> & Hp). apply list_elem_of_filter in Hp as [Hx Hp].
      cbn in Hx. subst x. by apply elem_of_enumerate in Hp.
    - intros [Hi Hl]. exists (i, r). split; [done|].
      apply list_elem_of_filter. split; [done|]. by apply elem_of_enumerate. }
  assert (Py.len lo ∈ idxs) as Hin.
  { apply Hidx. split; [apply len_nonneg|]. unfold Py.len. rewrite Nat2Z.id.
    by rewrite list_lookup_middle. }
  destruct idxs as [|x l] eqn:Heq; [by apply elem_of_nil in Hin|].
  destruct (max_spec x l) as (m & -> & Hm & Hmax). f_equal.
  apply Hidx in Hm as [Hm0 Hm]. apply Hmax in Hin.
  destruct (Z.eq_dec m (Py.len lo)) as [|Hne]; [done|]. exfalso.
  unfold Py.len in *.
  rewrite lookup_app_r in Hm by lia.
  destruct (Z.to_nat m - length lo)%nat as [|k] eqn:Hk; [lia|].
  cbn in Hm. apply list_elem_of_lookup_2, Hhi in Hm. lia.
Qed.

Lemma StronglySorted_last_max (l : list Z) (x m : Z) :
  StronglySorted Z.le l → last l = Some m → x ∈ l → x ≤ m.
Proof.
  intros Hs Hl Hx. apply last_Some in Hl as [l' ->].
  apply elem_of_app in Hx as [Hx|Hx].
  - eapply (StronglySorted_app_1_elem_of Z.le); [done..|left].
  - apply list_elem_of_singleton in Hx. lia.
Qed.

Lemma index_last {A} (l : list A) (x : A) :
  last l = Some x → Py.index l (Py.len l - 1) = Ok x.
Proof.
  intros Hl. assert (l ≠ []) as Hne by (by intros ->).
  assert (0 < length l)%nat by (destruct l; [done|cbn; lia]).
  destruct (index_in_range l (Py.len l - 1)) as (y & Hy & ->).
  { unfold Py.len. lia. }
  rewrite last_lookup in Hl. unfold Py.len in Hy.
  replace (Z.to_nat (Z.of_nat (length l) - 1)) with (pred (length l)) in Hy by lia.
  congruence.
Qed.

Lemma index_minus_one {A} (l : list A) (x : A) :
  last l = Some x → Py.index l (-1) = Ok x.
Proof.
  intros Hl. pose proof (index_last l x Hl) as Hi.
  assert (0 < length l)%nat by (destruct l; [done|cbn; lia]).
  unfold Py.index in *. cbn [Z.ltb Z.compare].
  destruct (Z.ltb_spec (Py.len l - 1) 0) as [|_]; [unfold Py.len in *; lia|].
  by replace (-1 + Py.len l) with (Py.len l - 1) by lia.
Qed.

Section get_converter_facts.
Context {Impl : Type}.
Implicit Types cls : OnnxOpConverter Impl.

Lemma getattr_impl_registered cls v :
  v ∈ (impls cls).*1 → ∃ f, getattr_impl cls v = Some f ∧ (v, f) ∈ impls cls.
Proof.
  intros Hv. unfold getattr_impl.
  apply list_elem_of_fmap in Hv as ([v' f] & -> & Hin).
  destruct (list_find _ _) as [[i [v'' f'']]|] eqn:Hfind.
  - apply list_find_Some in Hfind as (Hi & Heq & _). cbn in Heq. subst v''.
    exists f''. split; [done|]. by eapply list_elem_of_lookup_2.
  - apply list_find_None in Hfind. rewrite Forall_forall in Hfind.
    by destruct (Hfind _ Hin).
Qed.

Lemma getattr_impl_missing cls v :
  v ∉ (impls cls).*1 → getattr_impl cls v = None.
Proof.
  intros Hv. unfold getattr_impl.
  destruct (list_find _ _) as [[i [v' f']]|] eqn:Hfind; [|done].
  apply list_find_Some in Hfind as (Hi & Heq & _). cbn in Heq. subst v'.
  destruct Hv. apply list_elem_of_fmap. exists (v, f'). split; [done|].
  by eapply list_elem_of_lookup_2.
Qed.

(** Where a registered version does not exceed the requested opset, the
    lookup returns the implementation of the largest such version. *)
Lemma get_converter_largest_le cls (r v0 : Z) :
  v0 ∈ (impls cls).*1 → v0 ≤ r →
  ∃ v f, get_converter cls r = Ok (v, f) ∧ (v, f) ∈ impls cls ∧ v ≤ r ∧
         ∀ v', v' ∈ (impls cls).*1 → v' ≤ r → v' ≤ v.
Proof.
  intros Hv0 Hle. unfold get_converter.
  destruct (sorted_split (impls cls).*1 r) as (lo & hi & -> & Hperm & Hslo & _ & Hlo & Hhi).
  rewrite max_index_of_opset by done. cbn.
  assert (∀ v, v ∈ (impls cls).*1 → v ≤ r → v ∈ lo) as Hinlo.
  { intros v Hv Hvr. rewrite <- Hperm in Hv.
    apply elem_of_app in Hv as [|Hv]; [done|]. apply Hhi in Hv. lia. }
  destruct (last lo) as [m|] eqn:Hlast.
  2: { apply last_None in Hlast. subst lo. specialize (Hinlo _ Hv0 Hle).
       by apply elem_of_nil in Hinlo. }
  assert (m ∈ lo) as Hm by (by apply last_Some_elem_of).
  assert (Py.index (lo ++ r :: hi) (Py.len lo - 1) = Ok m) as ->.
  { pose proof (index_last lo m Hlast) as Hi.
    destruct (index_in_range lo (Py.len lo - 1)) as (y & Hy & Hy').
    { unfold Py.len. destruct lo; [done|]. cbn. lia. }
    destruct (index_in_range (lo ++ r :: hi) (Py.len lo - 1)) as (z & Hz & ->).
    { rewrite len_app. pose proof (len_nonneg (r :: hi)).
      unfold Py.len in *. destruct lo; [done|]. cbn. lia. }
    rewrite lookup_app_l in Hz by (eapply lookup_lt_Some; done). congruence. }
  cbn.
  destruct (getattr_impl_registered cls m) as (f & -> & Hf).
  { rewrite <- Hperm. apply elem_of_app. by left. }
  exists m, f. split_and!; [done|done|by apply Hlo|].
  intros v' Hv' Hv'r. eapply StronglySorted_last_max; [done..|]. by apply Hinlo.
Qed.

(** Where every registered version exceeds the requested opset, the index
    [-1] wraps around and the lookup returns the implementation of the
    largest registered version. *)
Lemma get_converter_below_all cls (r v0 : Z) :
  v0 ∈ (impls cls).*1 → (∀ v, v ∈ (impls cls).*1 → r < v) →
  ∃ v f, get_converter cls r = Ok (v, f) ∧ (v, f) ∈ impls cls ∧ r < v ∧
         ∀ v', v' ∈ (impls cls).*1 → v' ≤ v.
Proof.
  intros Hv0 Habove. unfold get_converter.
  destruct (sorted_split (impls cls).*1 r) as (lo & hi & -> & Hperm & _ & Hshi & Hlo & Hhi).
  rewrite max_index_of_opset by done. cbn.
  assert (lo = []) as ->.
  { destruct lo as [|x lo]; [done|]. exfalso.
    assert (x ∈ (impls cls).*1) as Hx by (rewrite <- Hperm; left).
    apply Habove in Hx. assert (x ≤ r) by (apply Hlo; left). lia. }
  cbn in Hperm. cbn [app].
  destruct (last hi) as [m|] eqn:Hlast.
  2: { apply last_None in Hlast. subst hi. rewrite <- Hperm in Hv0.
       by apply elem_of_nil in Hv0. }
  assert (m ∈ hi) as Hm by (by apply last_Some_elem_of).
  change (Py.len [] - 1) with (-1).
  rewrite (index_minus_one (r :: hi) m).
  2: { rewrite last_cons, Hlast. done. }
  cbn.
  destruct (getattr_impl_registered cls m) as (f & -> & Hf).
  { by rewrite <- Hperm. }
  exists m, f. split_and!; [done|done|by apply Hhi|].
  intros v' Hv'. rewrite <- Hperm in Hv'. by eapply StronglySorted_last_max.
Qed.

(** The only way to reach [NotImplementedError]: a class without any
    [_impl_v<n>]. *)
Lemma get_converter_no_versions (name : string) (r : Z) :
  get_converter (Converter (Impl:=Impl) name []) r
  = Raise (NotImplementedError ("opset version of " +:+ name +:+ " not implemented")).
Proof. unfold get_converter. cbn. by rewrite decide_True. Qed.

Lemma sorted_pair (v r : Z) :
  Py.sorted [v; r] = if decide (v ≤ r) then [v; r] else [r; v].
Proof.
  unfold Py.sorted, merge_sort. cbn. unfold list_merge.
  by destruct (decide (v ≤ r)).
Qed.

(** A class with a single implementation hands it out at every opset. *)
Lemma get_converter_single (name : string) (v : Z) (f : Impl) (r : Z) :
  get_converter (Converter name [(v, f)]) r = Ok (v, f).
Proof.
  unfold get_converter. cbn [impls fmap list_fmap fst app].
  rewrite sorted_pair. unfold Py.enumerate, getattr_impl.
  destruct (decide (v ≤ r)); cbn;
    repeat (case_decide; try lia; try congruence; cbn); try done.
  all: match goal with
       | |- context [Py.index ?l ?i] =>
           let r := eval vm_compute in (Py.index l i) in
           change (Py.index l i) with r
       end; cbn; by rewrite decide_True.
Qed.

End get_converter_facts.

(** C1.  Requested below the only registered version, [Loop] at opset 1
    does not fail: the lookup hands out [_impl_v11]. *)
Theorem get_converter_Loop_opset_1 :
  get_converter Loop 1 = Ok (11, Loop_impl_v11).
Proof. apply get_converter_single. Qed.

(** ** The loop test *)


(** ** Ordered dictionaries *)

Section odict_facts.
Context {V : Type}.
Implicit Types d : odict.t V.

Lemma mem_true d k : odict.mem d k = true ↔ k ∈ odict.keys d.
Proof. unfold odict.mem. apply bool_decide_eq_true. Qed.

Lemma mem_false d k : odict.mem d k = false ↔ k ∉ odict.keys d.
Proof. unfold odict.mem. apply bool_decide_eq_false. Qed.

Lemma get_is_Some d k : is_Some (odict.get d k) ↔ k ∈ odict.keys d.
Proof.
  induction d as [|[k' v] d IH]; cbn.
  - split; [by intros [? ?]|by intros ?%elem_of_nil].
  - case_bool_decide as Hk.
    + subst. split; [left|by eexists].
    + rewrite IH, elem_of_cons. naive_solver.
Qed.

Lemma get_Some_elem_of d k v : odict.get d k = Some v → (k, v) ∈ d.
Proof.
  induction d as [|[k' v'] d IH]; cbn; [done|].
  case_bool_decide as Hk.
  - intros [= ->]. subst. left.
  - intros Hg. right. by apply IH.
Qed.

Lemma elem_of_get_NoDup d k v :
  NoDup (odict.keys d) → (k, v) ∈ d → odict.get d k = Some v.
Proof.
  induction d as [|[k' v'] d IH]; cbn; [by intros _ ?%elem_of_nil|].
  intros [Hk' Hnd]%NoDup_cons [[= -> ->]|Hin]%elem_of_cons.
  - by rewrite bool_decide_eq_true_2.
  - rewrite bool_decide_eq_false_2; [by apply IH|].
    intros ->. apply Hk'. apply list_elem_of_fmap. by exists (k, v).
Qed.

Lemma keys_set d k v :
  odict.keys (odict.set d k v)
  = if bool_decide (k ∈ odict.keys d) then odict.keys d else odict.keys d ++ [k].
Proof.
  unfold odict.keys. induction d as [|[k' v'] d IH]; [done|]. cbn [odict.set].
  destruct (decide (k' = k)) as [->|Hne].
  - rewrite bool_decide_eq_true_2 by done. rewrite !fmap_cons. cbn [fst].
    by rewrite bool_decide_eq_true_2 by left.
  - rewrite bool_decide_eq_false_2 by done. rewrite !fmap_cons, IH. cbn [fst].
    destruct (decide (k ∈ d.*1)) as [Hin|Hnin].
    + rewrite (bool_decide_eq_true_2 (k ∈ d.*1)) by done.
      by rewrite bool_decide_eq_true_2 by (by right).
    + rewrite (bool_decide_eq_false_2 (k ∈ d.*1)) by done.
      rewrite bool_decide_eq_false_2; [done|].
      rewrite elem_of_cons. naive_solver.
Qed.

Lemma elem_of_keys_set d k v x :
  x ∈ odict.keys (odict.set d k v) ↔ x = k ∨ x ∈ odict.keys d.
Proof.
  rewrite keys_set. case_bool_decide.
  - naive_solver.
  - rewrite elem_of_app, list_elem_of_singleton. naive_solver.
Qed.

Lemma keys_set_prefix d k v :
  ∃ extra, odict.keys (odict.set d k v) = odict.keys d ++ extra.
Proof.
  rewrite keys_set. case_bool_decide; [exists []; by rewrite app_nil_r|by exists [k]].
Qed.

Lemma NoDup_keys_set d k v :
  NoDup (odict.keys d) → NoDup (odict.keys (odict.set d k v)).
Proof.
  intros Hnd. rewrite keys_set. case_bool_decide; [done|].
  apply NoDup_app. split_and!; [done| |apply NoDup_singleton].
  intros x Hx ->%list_elem_of_singleton. done.
Qed.

Lemma get_set_eq d k v : odict.get (odict.set d k v) k = Some v.
Proof.
  induction d as [|[k' v'] d IH]; cbn.
  - by rewrite bool_decide_eq_true_2.
  - case_bool_decide as Hk; cbn.
    + by rewrite bool_decide_eq_true_2.
    + by rewrite bool_decide_eq_false_2.
Qed.

Lemma get_set_ne d k v k' :
  k ≠ k' → odict.get (odict.set d k v) k' = odict.get d k'.
Proof.
  intros Hne. induction d as [|[k0 v0] d IH]; cbn.
  - by rewrite bool_decide_eq_false_2.
  - case_bool_decide as Hk; cbn.
    + subst. by rewrite !bool_decide_eq_false_2.
    + by rewrite IH.
Qed.

Lemma set_fresh d k v :
  k ∉ odict.keys d → odict.set d k v = d ++ [(k, v)].
Proof.
  induction d as [|[k' v'] d IH]; cbn; [done|].
  intros Hk. apply not_elem_of_cons in Hk as [Hne Hk].
  rewrite bool_decide_eq_false_2 by done. by rewrite IH.
Qed.

Lemma update_cons d k v d2 :
  odict.update d ((k, v) :: d2) = odict.update (odict.set d k v) d2.
Proof. done. Qed.

Lemma elem_of_keys_update d d2 x :
  x ∈ odict.keys (odict.update d d2) ↔ x ∈ odict.keys d ∨ x ∈ odict.keys d2.
Proof.
  revert d. induction d2 as [|[k v] d2 IH]; intros d.
  - cbn. rewrite elem_of_nil. tauto.
  - rewrite update_cons, IH, elem_of_keys_set. unfold odict.keys.
    rewrite fmap_cons, elem_of_cons. cbn. tauto.
Qed.

Lemma NoDup_keys_update d d2 :
  NoDup (odict.keys d) → NoDup (odict.keys (odict.update d d2)).
Proof.
  revert d. induction d2 as [|[k v] d2 IH]; intros d Hnd; [done|].
  rewrite update_cons. by apply IH, NoDup_keys_set.
Qed.



Lemma keys_remove_subseteq d k x :
  x ∈ odict.keys (odict.remove d k) ↔ x ∈ odict.keys d ∧ x ≠ k.
Proof.
  unfold odict.remove, odict.keys. rewrite !list_elem_of_fmap. split.
  - intros ([k' v] & -> & [Hne Hin]%list_elem_of_filter). split; [|done].
    by exists (k', v).
  - intros [([k' v] & -> & Hin) Hne]. exists (k', v). split; [done|].
    by apply list_elem_of_filter.
Qed.

Lemma NoDup_keys_remove d k :
  NoDup (odict.keys d) → NoDup (odict.keys (odict.remove d k)).
Proof.
  unfold odict.remove, odict.keys. induction d as [|[k' v] d IH]; [done|].
  rewrite fmap_cons. intros [Hk' Hnd]%NoDup_cons.
  cbn. destruct (decide (k' ≠ k)); [|by apply IH].
  cbn. apply NoDup_cons. split; [|by apply IH].
  intros ([k0 v0] & Heq & [_ Hin]%list_elem_of_filter)%list_elem_of_fmap.
  cbn in Heq. subst. apply Hk'. apply list_elem_of_fmap. by exists (k0, v0).
Qed.

End odict_facts.

Lemma promote_cons (nodes : odict.t expr) (v : var) (vars : list var) :
  promote nodes (v :: vars) = promote (odict.set nodes (name_hint v) (EVar v)) vars.
Proof. done. Qed.

Lemma elem_of_keys_promote (nodes : odict.t expr) (vars : list var) (x : string) :
  x ∈ odict.keys (promote nodes vars) ↔ x ∈ odict.keys nodes ∨ x ∈ name_hint <$> vars.
Proof.
  revert nodes. induction vars as [|v vars IH]; intros nodes.
  - cbn. rewrite elem_of_nil. tauto.
  - rewrite promote_cons, IH, elem_of_keys_set, fmap_cons, elem_of_cons. tauto.
Qed.

Lemma NoDup_keys_promote (nodes : odict.t expr) (vars : list var) :
  NoDup (odict.keys nodes) → NoDup (odict.keys (promote nodes vars)).
Proof.
  revert nodes. induction vars as [|v vars IH]; intros nodes Hnd; [done|].
  rewrite promote_cons. by apply IH, NoDup_keys_set.
Qed.

(** A promoted name is bound to a promoted variable with that name hint. *)
Lemma get_promote (nodes : odict.t expr) (vars : list var) (v : var) :
  v ∈ vars →
  ∃ v', v' ∈ vars ∧ name_hint v' = name_hint v ∧
        odict.get (promote nodes vars) (name_hint v) = Some (EVar v').
Proof.
  unfold promote. revert nodes. induction vars as [|v0 vars IH] using rev_ind;
    intros nodes Hv; [by apply elem_of_nil in Hv|].
  rewrite foldl_snoc.
  destruct (decide (name_hint v0 = name_hint v)) as [Heq|Hne].
  - exists v0. split_and!; [apply elem_of_app; right; left|done|].
    rewrite <- Heq. apply get_set_eq.
  - apply elem_of_app in Hv as [Hv|Hv%list_elem_of_singleton]; [|by subst].
    destruct (IH nodes Hv) as (v' & Hv' & Hname & Hget).
    exists v'. split_and!; [apply elem_of_app; by left|done|].
    by rewrite get_set_ne.
Qed.


(** ** The allocation monad *)

Lemma M_bind_Ok {A B} (m : M A) (k : A → M B) (n : nat) (r : B * nat) :
  (m ≫= k) n = inr r → ∃ x n', m n = inr (x, n') ∧ k x n' = inr r.
Proof.
  unfold mbind, M_bind. destruct (m n) as [e|[x n']]; [discriminate|].
  intros Hk. by exists x, n'.
Qed.

Lemma lift_Ok {A} (r : result A) (n : nat) (x : A) (n' : nat) :
  lift r n = inr (x, n') → r = Ok x ∧ n' = n.
Proof. unfold lift. destruct r; [discriminate|]. by intros [= -> ->]. Qed.

Lemma mret_Ok {A} (x y : A) (n n' : nat) :
  (mret x : M A) n = inr (y, n') → y = x ∧ n' = n.
Proof. by intros [= -> ->]. Qed.


Ltac inv_bind H :=
  let x := fresh "x" in
  let Hx := fresh "Hbind" in
  apply bind_Ok in H as (x & Hx & H).

Lemma py_assert_Ok (c : bool) (msg : string) (u : unit) :
  py_assert c msg = Ok u → c = true.
Proof. by destruct c. Qed.

Lemma index_Ok_elem_of {A} (l : list A) (i : Z) (x : A) :
  Py.index l i = Ok x → x ∈ l.
Proof.
  unfold Py.index. destruct (_ || _); [discriminate|].
  destruct (l !! _) eqn:Hl; [|discriminate].
  intros [= ->]. by eapply list_elem_of_lookup_2.
Qed.

Lemma enumerate_snoc {A} (l : list A) (x : A) :
  Py.enumerate (l ++ [x]) = Py.enumerate l ++ [(Py.len l, x)].
Proof.
  unfold Py.enumerate, Py.len. rewrite length_app. cbn [length].
  rewrite seq_app, fmap_app. cbn. rewrite zip_with_app.
  - done.
  - by rewrite length_fmap, length_seq.
Qed.

Lemma enumerate_snd {A} (l : list A) : (Py.enumerate l).*2 = l.
Proof.
  unfold Py.enumerate. apply snd_zip. rewrite length_fmap, length_seq. done.
Qed.

Lemma enumerate_fst {A} (l : list A) :
  (Py.enumerate l).*1 = Z.of_nat <$> seq 0 (length l).
Proof.
  unfold Py.enumerate. apply fst_zip. rewrite length_fmap, length_seq. done.
Qed.

(** ** The importer *)

Section importer_facts.
Context `{Oracles}.

(** Building the convert map never fails: [Loop] and [If] each hold one
    implementation, which [get_converter] hands out at any opset. *)
Lemma _get_convert_map_Ok (opset : Z) :
  _get_convert_map opset
  = Ok (λ op_name,
          if bool_decide (op_name = "Loop") then Some (Control Loop_impl_v11)
          else if bool_decide (op_name = "If") then Some (Control If_impl_v1)
          else Ordinary <$> op_table opset op_name).
Proof.
  unfold _get_convert_map, Loop, If. by rewrite !get_converter_single.
Qed.

Lemma drop_missing_names (op op' : op_result) (n n' : Z) (names names' : list string) :
  drop_missing op n names = Ok (op', n', names') → names' ⊆ names.
Proof.
  unfold drop_missing. destruct (1 <? n); [|by intros [= _ _ ->]].
  intros Hd. inv_bind Hd. destruct (forallb id x); [by injection Hd as _ _ ->|].
  destruct op as [e|tup size]; [discriminate|].
  inv_bind Hd. injection Hd as _ _ <-.
  intros k [_ Hk]%list_elem_of_filter. done.
Qed.

Lemma bind_loop_keys (g : Z → result expr) (l : list (Z * string))
    (acc : result (odict.t expr)) (nodes' : odict.t expr) :
  foldl (λ acc p, d ← acc; x ← g p.1; Ok (odict.set d p.2 x)) acc l = Ok nodes' →
  ∃ nodes, acc = Ok nodes ∧
           ∀ k, k ∈ odict.keys nodes' → k ∈ odict.keys nodes ∨ k ∈ l.*2.
Proof.
  revert acc. induction l as [|p l IH]; intros acc; cbn [foldl].
  - intros ->. exists nodes'. split; [done|]. by left.
  - intros Hf. destruct (IH _ Hf) as (nodes1 & Hstep & Hkeys).
    inv_bind Hstep. inv_bind Hstep. injection Hstep as <-.
    exists x. split; [done|]. intros k Hk.
    destruct (Hkeys k Hk) as [Hk1|Hk1].
    + apply elem_of_keys_set in Hk1 as [->|Hk1]; [|by left].
      right. rewrite fmap_cons. left.
    + right. rewrite fmap_cons. by right.
Qed.

Lemma bind_outputs_keys (nodes nodes' : odict.t expr) (op : op_result) (n : Z)
    (names : list string) :
  bind_outputs nodes op n names = Ok nodes' →
  ∀ k, k ∈ odict.keys nodes' → k ∈ odict.keys nodes ∨ k ∈ names.
Proof.
  unfold bind_outputs. intros Hb. inv_bind Hb. destruct (n =? 1).
  - inv_bind Hb. destruct op as [e|]; [|discriminate]. injection Hb as <-.
    intros k [->|Hk]%elem_of_keys_set; [|by left].
    right. by eapply index_Ok_elem_of.
  - apply bind_loop_keys in Hb as (nodes0 & [= <-] & Hkeys).
    intros k Hk. destruct (Hkeys k Hk) as [|Hk']; [by left|right].
    by rewrite enumerate_snd in Hk'.
Qed.

(** Reconciliation binds declared names only. *)
Lemma reconcile_keys (nodes nodes' : odict.t expr) (op : op_result)
    (node_output : list string) :
  reconcile nodes op node_output = Ok nodes' →
  ∀ k, k ∈ odict.keys nodes' → k ∈ odict.keys nodes ∨ k ∈ node_output.
Proof.
  unfold reconcile. intros Hr. inv_bind Hr. inv_bind Hr.
  destruct x0 as [[op' n'] names'].
  intros k Hk. destruct (bind_outputs_keys _ _ _ _ _ Hr k Hk) as [|Hk']; [by left|].
  right. by eapply drop_missing_names.
Qed.

Lemma bind_loop_mono (g : Z → result expr) (l : list (Z * string))
    (acc : result (odict.t expr)) (nodes' : odict.t expr) :
  foldl (λ acc p, d ← acc; x ← g p.1; Ok (odict.set d p.2 x)) acc l = Ok nodes' →
  ∃ nodes, acc = Ok nodes ∧ odict.keys nodes ⊆ odict.keys nodes'.
Proof.
  revert acc. induction l as [|p l IH]; intros acc; cbn [foldl].
  - intros ->. by exists nodes'.
  - intros Hf. destruct (IH _ Hf) as (nodes1 & Hstep & Hkeys).
    inv_bind Hstep. inv_bind Hstep. injection Hstep as <-.
    exists x. split; [done|]. intros k Hk. apply Hkeys, elem_of_keys_set. by right.
Qed.

(** Reconciliation removes no binding. *)
Lemma reconcile_keys_mono (nodes nodes' : odict.t expr) (op : op_result)
    (node_output : list string) :
  reconcile nodes op node_output = Ok nodes' →
  odict.keys nodes ⊆ odict.keys nodes'.
Proof.
  unfold reconcile. intros Hr. inv_bind Hr. inv_bind Hr.
  destruct x0 as [[op' n'] names']. unfold bind_outputs in Hr.
  inv_bind Hr. destruct (n' =? 1).
  - inv_bind Hr. destruct op' as [e|]; [|discriminate]. injection Hr as <-.
    intros k Hk. apply elem_of_keys_set. by right.
  - by apply bind_loop_mono in Hr as (nodes0 & [= <-] & Hkeys).
Qed.

Lemma NoDup_bind_loop (g : Z → result expr) (l : list (Z * string))
    (acc : result (odict.t expr)) (nodes' : odict.t expr) :
  foldl (λ acc p, d ← acc; x ← g p.1; Ok (odict.set d p.2 x)) acc l = Ok nodes' →
  ∃ nodes, acc = Ok nodes ∧ (NoDup (odict.keys nodes) → NoDup (odict.keys nodes')).
Proof.
  revert acc. induction l as [|p l IH]; intros acc; cbn [foldl].
  - intros ->. by exists nodes'.
  - intros Hf. destruct (IH _ Hf) as (nodes1 & Hstep & Hnd).
    inv_bind Hstep. inv_bind Hstep. injection Hstep as <-.
    exists x. split; [done|]. intros Hx. by apply Hnd, NoDup_keys_set.
Qed.

Lemma NoDup_reconcile (nodes nodes' : odict.t expr) (op : op_result)
    (node_output : list string) :
  reconcile nodes op node_output = Ok nodes' →
  NoDup (odict.keys nodes) → NoDup (odict.keys nodes').
Proof.
  unfold reconcile. intros Hr. inv_bind Hr. inv_bind Hr.
  destruct x0 as [[op' n'] names']. unfold bind_outputs in Hr.
  inv_bind Hr. destruct (n' =? 1).
  - inv_bind Hr. destruct op' as [e|]; [|discriminate]. injection Hr as <-.
    apply NoDup_keys_set.
  - apply NoDup_bind_loop in Hr as (nodes0 & [= <-] & Hnd). done.
Qed.

End importer_facts.

Ltac inv_M H :=
  let x := fresh "x" in
  let n := fresh "n" in
  let Hx := fresh "Hrun" in
  apply M_bind_Ok in H as (x & n & Hx & H).

Ltac inv_lift H :=
  let Hn := fresh "Hn" in
  apply lift_Ok in H as [H Hn]; try subst.

Section node_facts.
Context `{Oracles}.

Lemma removelast_snoc {A} (l : list A) (x : A) : removelast (l ++ [x]) = l.
Proof. apply removelast_last. Qed.

(** An ordinary converter leaves the importer object as it is. *)
Lemma _convert_operator_ordinary (import : importer) (self self' : GraphProto)
    (op_name : string) (inputs : onnx_input expr) (attrs : odict.t attr_value)
    (opset : Z) (op : op_result) (n n' : nat) :
  op_name ≠ "Loop" → op_name ≠ "If" →
  _convert_operator import self op_name inputs attrs opset n = inr (op, self', n') →
  self' = self ∧ n' = n ∧
  ∃ c, op_table opset op_name = Some c ∧ c inputs attrs (_params self) = Ok op.
Proof.
  intros HL HI. unfold _convert_operator. rewrite _get_convert_map_Ok.
  intros Hc. inv_M Hc. inv_lift Hrun. injection Hrun as <-.
  rewrite bool_decide_eq_false_2 in Hc by (unfold _identity_list; by intros ?%elem_of_nil).
  rewrite !bool_decide_eq_false_2 in Hc by done.
  destruct (op_table opset op_name) as [c|]; [|discriminate]. cbn in Hc.
  inv_M Hc. inv_lift Hrun. apply mret_Ok in Hc as [[= -> ->] ->].
  split_and!; [done..|]. by exists c.
Qed.

(** C10.  [_fix_outputs] removes the last declared output name of a
    Dropout node that declares more than one, and nothing else; the names
    a Dropout node binds in the scope are therefore among the declared
    names before the last. *)
Theorem fix_outputs_Dropout (import : importer) (opset : Z)
    (op_name : string) (outputs : list string) :
  (op_name = "Dropout" → (1 < length outputs)%nat →
   ∃ pre mask, outputs = pre ++ [mask] ∧ _fix_outputs op_name outputs = pre) ∧
  (op_name = "Dropout" → length outputs = 1%nat →
   _fix_outputs op_name outputs = outputs) ∧
  (op_name ≠ "Dropout" → _fix_outputs op_name outputs = outputs) ∧
  (∀ (nd : NodePb) (self self' : GraphProto) (n n' : nat),
     node.op_type nd = "Dropout" → node.output nd = outputs →
     (1 < length outputs)%nat →
     convert_node import opset self nd n = inr (self', n') →
     ∀ k, k ∈ odict.keys (_nodes self') →
          k ∈ odict.keys (_nodes self) ∨ k ∈ removelast outputs).
Proof.
  assert (∀ outs, (1 < length outs)%nat →
          _fix_outputs "Dropout" outs = removelast outs) as Hfix.
  { intros outs Hlen. unfold _fix_outputs. rewrite bool_decide_eq_true_2 by done.
    rewrite bool_decide_eq_false_2 by lia. done. }
  split_and!.
  - intros -> Hlen. rewrite Hfix by done.
    destruct outputs as [|x l] using rev_ind; [cbn in Hlen; lia|].
    exists l, x. by rewrite removelast_snoc.
  - intros -> Hlen. unfold _fix_outputs. by rewrite !bool_decide_eq_true_2.
  - intros Hop. unfold _fix_outputs. by rewrite bool_decide_eq_false_2.
  - intros nd self self' n n' Hop Hout Hlen Hc k Hk.
    unfold convert_node in Hc. rewrite Hop, Hout in Hc.
    inv_M Hc. inv_lift Hrun. inv_M Hc. inv_lift Hrun0.
    inv_M Hc. destruct x1 as [op self1].
    apply _convert_operator_ordinary in Hrun1 as (-> & -> & _); [|done..].
    inv_M Hc. inv_lift Hrun1. apply mret_Ok in Hc as [-> ->]. cbn in Hk.
    apply reconcile_keys with (k := k) in Hrun1; [|done].
    rewrite Hfix in Hrun1; done.
Qed.

End node_facts.

Section node_runs.
#[local] Existing Instance Demo.oracles.

Lemma fix_outputs_Dropout_witness :
  let self := with_nodes (GraphProto_init [] (DtypeStr "float32") false true)
                [("x", ENull)] in
  let nd := Demo.plain "Dropout" ["x"] ["y"; "mask"] in
  (∃ pre mask, ["y"; "mask"] = pre ++ [mask] ∧ _fix_outputs "Dropout" ["y"; "mask"] = pre)
  ∧ _fix_outputs "Dropout" ["y"] = ["y"]
  ∧ _fix_outputs "Split" ["a"; "b"] = ["a"; "b"]
  ∧ match convert_node (from_onnx_outputs 0) 11 self nd 0%nat with
    | inr (self', _) =>
        ∀ k, k ∈ odict.keys (_nodes self') →
             k ∈ odict.keys (_nodes self) ∨ k ∈ removelast ["y"; "mask"]
    | inl _ => False
    end.
Proof.
  intros self nd.
  pose proof (fix_outputs_Dropout
                (from_onnx_outputs 0) 11 "Dropout" ["y"; "mask"]) as (H1 & _ & _ & H4).
  pose proof (fix_outputs_Dropout
                (from_onnx_outputs 0) 11 "Dropout" ["y"]) as (_ & H2 & _ & _).
  pose proof (fix_outputs_Dropout
                (from_onnx_outputs 0) 11 "Split" ["a"; "b"]) as (_ & _ & H3 & _).
  split_and!.
  - apply H1; [reflexivity|cbn; lia].
  - apply H2; reflexivity.
  - apply H3. discriminate.
  - destruct (convert_node (from_onnx_outputs 0) 11 self nd 0%nat)
      as [e|[self' n']] eqn:E.
    + vm_compute in E. discriminate.
    + apply (H4 nd self self' 0%nat n'); [reflexivity|reflexivity|cbn; lia|exact E].
Defined.

End node_runs.

(** ** Output arity reconciliation *)

Lemma declared_at_snoc_lt (l : list string) (x : string) (i : nat) :
  (i < length l)%nat → declared_at (l ++ [x]) i = declared_at l i.
Proof. intros Hi. unfold declared_at. by rewrite lookup_app_l. Qed.

Lemma declared_at_ge (l : list string) (i : nat) :
  (length l ≤ i)%nat → declared_at l i = false.
Proof.
  intros Hi. unfold declared_at. rewrite lookup_ge_None_2 by done.
  by apply bool_decide_eq_false_2; intros [].
Qed.

Lemma declared_at_snoc_last (l : list string) (x : string) :
  declared_at (l ++ [x]) (length l) = bool_decide (x ≠ "").
Proof. unfold declared_at. by rewrite list_lookup_middle. Qed.

Lemma declared_at_true (l : list string) (i : nat) :
  declared_at l i = true ↔ ∃ name, l !! i = Some name ∧ name ≠ "".
Proof.
  unfold declared_at. rewrite bool_decide_eq_true. destruct (l !! i) as [name|]; cbn.
  - split; [by exists name|by intros (? & [= <-] & ?)].
  - split; [done|by intros (? & ? & ?)].
Qed.

(** The marks [valid_outputs] ends up with when no non-empty name is
    declared past the produced outputs. *)
Lemma mark_valid_spec (size : Z) (node_output : list string) :
  (∀ i name, node_output !! i = Some name → name ≠ "" → Z.of_nat i < size) →
  mark_valid size node_output = Ok (declared_at node_output <$> seq 0 (Z.to_nat size)).
Proof.
  unfold mark_valid. induction node_output as [|x l IH] using rev_ind; intros Hin.
  - cbn. f_equal. erewrite (const_fmap _ (seq 0 (Z.to_nat size)) false).
    + by rewrite length_seq.
    + intros i j _. apply declared_at_ge. cbn. lia.
  - rewrite enumerate_snoc, foldl_snoc, IH.
    2: { intros i name Hi. apply Hin. by apply lookup_app_l_Some. }
    cbn. case_bool_decide as Hx.
    + subst x. f_equal. apply list_fmap_ext. intros ? i _.
      destruct (decide (i < length l)%nat).
      * by rewrite declared_at_snoc_lt.
      * rewrite declared_at_ge by lia. unfold declared_at.
        destruct (decide (i = length l)) as [->|].
        -- by rewrite list_lookup_middle.
        -- rewrite lookup_ge_None_2; [done|]. rewrite length_app. cbn. lia.
    + assert (Z.of_nat (length l) < size) as Hlt.
      { apply (Hin _ x); [|done]. by rewrite list_lookup_middle. }
      unfold Py.len at 1. rewrite length_fmap, length_seq.
      destruct (Z.leb_spec (Z.of_nat (Z.to_nat size)) (Py.len l)) as [Hbad|_].
      { unfold Py.len in Hbad. lia. }
      f_equal. unfold Py.len. rewrite Nat2Z.id. apply list_eq. intros i.
      destruct (decide (i = length l)) as [->|Hne].
      * rewrite list_lookup_insert_eq by (rewrite length_fmap, length_seq; lia).
        rewrite list_lookup_fmap, lookup_seq_lt by lia. cbn.
        rewrite declared_at_snoc_last. by rewrite bool_decide_eq_true_2.
      * rewrite list_lookup_insert_ne by done. rewrite !list_lookup_fmap.
        destruct (seq 0 (Z.to_nat size) !! i) as [j|] eqn:Hj; [|done]. cbn.
        apply lookup_seq in Hj as [-> _]. cbn. f_equal.
        destruct (decide (i < length l)%nat).
        -- by rewrite declared_at_snoc_lt.
        -- by rewrite !declared_at_ge by (try rewrite length_app; cbn; lia).
Qed.

Lemma kept_indices (b : nat → bool) (l : list nat) :
  (λ p : Z * bool, p.1) <$> filter (λ p, p.2 = true) (zip (Z.of_nat <$> l) (b <$> l))
  = Z.of_nat <$> filter (λ i, b i = true) l.
Proof.
  induction l as [|i l IH]; [done|]. rewrite !fmap_cons.
  change (zip (Z.of_nat i :: (Z.of_nat <$> l)) (b i :: (b <$> l)))
    with ((Z.of_nat i, b i) :: zip (Z.of_nat <$> l) (b <$> l)).
  rewrite !filter_cons. cbn [snd].
  destruct (decide (b i = true)) as [Hb|Hb]; [|done].
  by rewrite !fmap_cons, IH.
Qed.

Lemma select_valid_kept (size : Z) (node_output : list string) (f : Z → result expr) :
  select_valid (declared_at node_output <$> seq 0 (Z.to_nat size)) f
  = mapM f (kept_positions size node_output).
Proof.
  unfold select_valid, kept_positions, Py.enumerate.
  rewrite length_fmap, length_seq. by rewrite kept_indices.
Qed.

Lemma filter_none {A} (P : A → Prop) `{!∀ x, Decision (P x)} (l : list A) :
  (∀ x, x ∈ l → ¬ P x) → filter P l = [].
Proof.
  induction l as [|x l IH]; intros HP; [done|].
  rewrite filter_cons, decide_False by (apply HP; left).
  apply IH. intros y Hy. apply HP. by right.
Qed.

Lemma filter_ext_in {A} (P Q : A → Prop) `{!∀ x, Decision (P x), !∀ x, Decision (Q x)}
    (l : list A) :
  (∀ x, x ∈ l → P x ↔ Q x) → filter P l = filter Q l.
Proof.
  induction l as [|x l IH]; intros HPQ; [done|].
  rewrite !filter_cons, IH by (intros y Hy; apply HPQ; by right).
  destruct (decide (P x)) as [HP|HP].
  - rewrite decide_True; [done|]. apply HPQ; [left|done].
  - rewrite decide_False; [done|]. intros HQ. apply HP, HPQ; [left|done].
Qed.

Lemma filter_seq_false (P : nat → bool) (a k : nat) :
  (∀ i, (a ≤ i < a + k)%nat → P i = false) →
  filter (λ i, P i = true) (seq 0 (a + k)) = filter (λ i, P i = true) (seq 0 a).
Proof.
  intros HP. rewrite seq_app, filter_app. cbn [Nat.add].
  rewrite (filter_none _ (seq a k)); [by rewrite app_nil_r|].
  intros i Hi%elem_of_seq. rewrite HP by lia. done.
Qed.

Lemma length_filter_positions (l : list string) :
  length (filter (λ i, declared_at l i = true) (seq 0 (length l)))
  = length (declared_names l).
Proof.
  unfold declared_names. induction l as [|x l IH] using rev_ind; [done|].
  rewrite length_app. cbn [length].
  rewrite seq_app, !filter_app, !length_app. cbn [Nat.add]. f_equal.
  - rewrite <- IH. f_equal. apply filter_ext_in.
    intros i Hi%elem_of_seq. by rewrite declared_at_snoc_lt by lia.
  - cbn. rewrite declared_at_snoc_last.
    destruct (decide (x ≠ "")) as [Hx|Hx].
    + rewrite bool_decide_eq_true_2 by done. by rewrite decide_True.
    + rewrite bool_decide_eq_false_2 by done. by rewrite decide_False.
Qed.

(** As many positions are kept as there are non-empty declared names. *)
Lemma length_kept_positions (size : Z) (node_output : list string) :
  (∀ i name, node_output !! i = Some name → name ≠ "" → Z.of_nat i < size) →
  length (kept_positions size node_output) = length (declared_names node_output).
Proof.
  intros Hin. unfold kept_positions. rewrite length_fmap, <- length_filter_positions.
  f_equal. set (n := Z.to_nat size). set (m := length node_output).
  destruct (decide (n ≤ m)%nat) as [Hnm|Hnm].
  - replace m with (n + (m - n))%nat by lia. symmetry. apply filter_seq_false.
    intros i Hi. destruct (declared_at node_output i) eqn:Hd; [|done].
    apply declared_at_true in Hd as (name & Hl & Hne). specialize (Hin _ _ Hl Hne). lia.
  - replace n with (m + (n - m))%nat by lia. apply filter_seq_false.
    intros i Hi. apply declared_at_ge. lia.
Qed.

Lemma kept_positions_bound (size : Z) (node_output : list string) (i : Z) :
  i ∈ kept_positions size node_output → 0 ≤ i < size.
Proof.
  unfold kept_positions. intros (j & -> & [_ Hj%elem_of_seq]%list_elem_of_filter)%list_elem_of_fmap.
  lia.
Qed.

(** If some produced position is dropped, fewer values survive than were
    produced. *)
Lemma length_kept_positions_lt (size : Z) (node_output : list string) (i : nat) :
  Z.of_nat i < size → declared_at node_output i = false →
  Z.of_nat (length (kept_positions size node_output)) < size.
Proof.
  intros Hi Hd. unfold kept_positions. rewrite length_fmap.
  pose proof (length_filter_lt (λ i, declared_at node_output i = true)
                (seq 0 (Z.to_nat size)) i) as Hlt.
  rewrite length_seq in Hlt. cut (length (filter (λ i, declared_at node_output i = true)
                                     (seq 0 (Z.to_nat size))) < Z.to_nat size)%nat; [lia|].
  apply Hlt; [apply elem_of_seq; lia|by rewrite Hd].
Qed.

Lemma bind_loop_pure (g : Z → result expr) (g' : Z → expr) (l : list (Z * string))
    (nodes : odict.t expr) :
  (∀ p, p ∈ l → g p.1 = Ok (g' p.1)) →
  foldl (λ acc p, d ← acc; x ← g p.1; Ok (odict.set d p.2 x)) (Ok nodes) l
  = Ok (foldl (λ d p, odict.set d p.2 (g' p.1)) nodes l).
Proof.
  revert nodes. induction l as [|p l IH]; intros nodes Hg; [done|].
  cbn [foldl]. rewrite <- IH by (intros q Hq; apply Hg; by right).
  f_equal. cbn. rewrite Hg by left. done.
Qed.

Section reconcile_facts.
Context `{Oracles}.

Lemma select_produced (tup : expr) (size : Z) (node_output : list string) :
  match tup with
  | ETuple fields =>
      select_valid (declared_at node_output <$> seq 0 (Z.to_nat size)) (Py.index fields)
  | _ =>
      select_valid (declared_at node_output <$> seq 0 (Z.to_nat size))
        (wrapper_getitem tup size)
  end
  = mapM (produced_at tup) (kept_positions size node_output).
Proof.
  assert (mapM (wrapper_getitem tup size) (kept_positions size node_output)
          = mapM (λ i, Ok (ETupleGetItem tup i)) (kept_positions size node_output)) as Hw.
  { apply mapM_result_ext. intros i Hi%kept_positions_bound. unfold wrapper_getitem.
    by destruct (Z.leb_spec size i); [lia|]. }
  destruct tup; rewrite select_valid_kept; try exact Hw. done.
Qed.

Lemma length_mapM_result {A B} (f : A → result B) (l : list A) (ys : list B) :
  mapM f l = Ok ys → length ys = length l.
Proof.
  revert ys. induction l as [|x l IH]; intros ys; cbn.
  - by intros [= <-].
  - intros Hm. inv_bind Hm. inv_bind Hm. injection Hm as <-. cbn. f_equal. by apply IH.
Qed.

(** C3, as the code has it.  Dropping happens only where the converter
    produced more than one value: if some produced position has no
    non-empty declared name and no non-empty name is declared past the
    produced positions, the values at the positions with a non-empty name
    survive, as many as there are such names and in their order, and are
    bound to those names, renumbered from 0.  A single produced value is
    never dropped: it is bound under the one declared name, empty or not,
    and any other number of declared names is a mismatch. *)
Theorem reconcile_keeps_declared (nodes : odict.t expr) (tup e : expr) (size : Z)
    (node_output : list string) (values : list expr) :
  (1 < size →
   (∃ i : nat, Z.of_nat i < size ∧ declared_at node_output i = false) →
   (∀ i name, node_output !! i = Some name → name ≠ "" → Z.of_nat i < size) →
   mapM (produced_at (fold_constant tup)) (kept_positions size node_output) = Ok values →
   length values = length (declared_names node_output) ∧
   reconcile nodes (TupleWrapper tup size) node_output
   = Ok (bind_survivors nodes (declared_names node_output) values)) ∧
  (∀ name, reconcile nodes (Single e) [name]
           = Ok (odict.set nodes name (fold_constant e))) ∧
  (length node_output ≠ 1%nat →
   reconcile nodes (Single e) node_output
   = Raise (AssertionError "Number of output mismatch")).
Proof.
  split_and!.
  - intros Hsize (i & Hi & Hdrop) Hin Hvalues.
    assert (length values = length (declared_names node_output)) as Hlen.
    { rewrite (length_mapM_result _ _ _ Hvalues). by apply length_kept_positions. }
    split; [done|].
    unfold reconcile, fold_result.
    destruct (Z.eqb_spec size 1) as [|_]; [lia|]. cbn.
    unfold drop_missing. destruct (Z.ltb_spec 1 size) as [_|]; [|lia].
    rewrite mark_valid_spec by done. cbn.
    destruct (forallb id _) eqn:Hall.
    { exfalso. rewrite forallb_forall in Hall.
      specialize (Hall false). cbn in Hall. discriminate Hall.
      apply list_elem_of_In, list_elem_of_fmap. exists i. split; [done|].
      apply elem_of_seq. lia. }
    rewrite select_produced, Hvalues. cbn.
    assert (Py.len values < size) as Hfewer.
    { unfold Py.len. rewrite (length_mapM_result _ _ _ Hvalues).
      by eapply length_kept_positions_lt. }
    unfold bind_outputs.
    fold (declared_names node_output).
    rewrite (bool_decide_eq_true_2 (Py.len (declared_names node_output) = Py.len values))
      by (unfold Py.len; lia).
    cbn [py_assert mbind result_bind Ok].
    destruct values as [|x [|y values]].
    + (* no survivor *)
      destruct (declared_names node_output); [|done]. done.
    + (* one survivor, bound directly *)
      destruct (declared_names node_output) as [|k [|? ?]]; [done| |done]. done.
    + (* several survivors, bound as components of their tuple *)
      rewrite bool_decide_eq_true_2 by lia.
      set (vs := x :: y :: values) in *.
      destruct (Z.eqb_spec (Py.len vs) 1) as [Hone|_].
      { unfold Py.len, vs in Hone. cbn in Hone. lia. }
      unfold bind_survivors. fold vs.
      replace (match vs with [x0] => _ | _ => _ end)
        with (foldl (λ d p, odict.set d p.2 (ETupleGetItem (ETuple vs) p.1))
                nodes (Py.enumerate (declared_names node_output))) by done.
      apply bind_loop_pure. intros [j k] [Hj Hk]%elem_of_enumerate. cbn.
      unfold wrapper_getitem. apply lookup_lt_Some in Hk.
      destruct (Z.leb_spec (Py.len vs) j) as [Hbad|]; [|done].
      unfold Py.len in Hbad. lia.
  - intros name. unfold reconcile. cbn. done.
  - intros Hlen. unfold reconcile. cbn. unfold bind_outputs.
    rewrite bool_decide_eq_false_2; [done|]. unfold Py.len. lia.
Qed.

Lemma mark_valid_snoc (size : Z) (l : list string) (x : string) :
  mark_valid size (l ++ [x])
  = (valid ← mark_valid size l;
     if bool_decide (x = "") then Ok valid
     else if Py.len valid <=? Py.len l then Raise IndexError
     else Ok (<[Z.to_nat (Py.len l) := true]> valid)).
Proof. unfold mark_valid. by rewrite enumerate_snoc, foldl_snoc. Qed.

Lemma mark_valid_length (size : Z) (l : list string) (valid : list bool) :
  mark_valid size l = Ok valid → length valid = Z.to_nat size.
Proof.
  revert valid. induction l as [|x l IH] using rev_ind; intros valid.
  - intros [= <-]. apply length_replicate.
  - rewrite mark_valid_snoc. intros Hm. inv_bind Hm.
    specialize (IH _ Hbind). case_bool_decide; [by injection Hm as <-|].
    destruct (_ <=? _); [discriminate|]. injection Hm as <-.
    by rewrite length_insert.
Qed.

Lemma mark_valid_error (size : Z) (l : list string) (e : exn) :
  mark_valid size l = inl e → e = IndexError.
Proof.
  revert e. induction l as [|x l IH] using rev_ind; intros e; [done|].
  rewrite mark_valid_snoc. destruct (mark_valid size l) as [e'|valid]; cbn.
  - intros [= <-]. by apply IH.
  - case_bool_decide; [done|]. destruct (_ <=? _); [|done]. by intros [= <-].
Qed.

(** A non-empty name declared past the produced outputs stops the import
    with an IndexError, before the mismatch assertion is reached. *)
Lemma mark_valid_past_outputs (size : Z) (node_output : list string) (i : nat)
    (name : string) :
  0 ≤ size → node_output !! i = Some name → name ≠ "" → size ≤ Z.of_nat i →
  mark_valid size node_output = Raise IndexError.
Proof.
  intros Hsize. induction node_output as [|x l IH] using rev_ind; [done|].
  intros Hi Hname Hpast. rewrite mark_valid_snoc.
  destruct (decide (i < length l)%nat) as [Hlt|Hge].
  - rewrite lookup_app_l in Hi by done. by rewrite IH.
  - assert (i = length l) as ->.
    { apply lookup_lt_Some in Hi. rewrite length_app in Hi. cbn in Hi. lia. }
    rewrite list_lookup_middle in Hi by done. injection Hi as ->.
    destruct (mark_valid size l) as [e|valid] eqn:Hm; cbn.
    + by apply mark_valid_error in Hm as ->.
    + rewrite bool_decide_eq_false_2 by done.
      apply mark_valid_length in Hm.
      destruct (Z.leb_spec (Py.len valid) (Py.len l)) as [|Hbad]; [done|].
      unfold Py.len in Hbad. lia.
Qed.

Lemma reconcile_name_past_outputs (nodes : odict.t expr) (tup : expr) (size : Z)
    (node_output : list string) (i : nat) (name : string) :
  1 < size → node_output !! i = Some name → name ≠ "" → size ≤ Z.of_nat i →
  reconcile nodes (TupleWrapper tup size) node_output = Raise IndexError.
Proof.
  intros Hsize Hi Hname Hpast.
  unfold reconcile, fold_result.
  destruct (Z.eqb_spec size 1) as [|_]; [lia|]. cbn.
  unfold drop_missing. destruct (Z.ltb_spec 1 size) as [_|]; [|lia].
  by rewrite (mark_valid_past_outputs size node_output i name) by (done || lia).
Qed.

End reconcile_facts.

Section reconcile_runs.
#[local] Existing Instance Demo.oracles.

Lemma reconcile_keeps_declared_witness :
  let tup := relay_op "split" [] [ENull] in
  let values := [ETupleGetItem tup 0; ETupleGetItem tup 2] in
  (length values = length (declared_names ["a"; ""; "c"]) ∧
   reconcile [] (TupleWrapper tup 3) ["a"; ""; "c"]
   = Ok (bind_survivors [] (declared_names ["a"; ""; "c"]) values)) ∧
  reconcile [] (Single tup) ["y"] = Ok (odict.set [] "y" (fold_constant tup)) ∧
  reconcile [] (Single tup) ["y"; ""] = Raise (AssertionError "Number of output mismatch").
Proof.
  intros tup values.
  pose proof (reconcile_keeps_declared [] tup tup 3 ["a"; ""; "c"] values) as (H1 & H2 & _).
  pose proof (reconcile_keeps_declared [] tup tup 3 ["y"; ""] values) as (_ & _ & H3).
  split; [|split].
  - apply H1.
    + reflexivity.
    + exists 1%nat. split; reflexivity.
    + intros [|[|[|i]]] name; cbn; intros [= <-]; lia || done.
    + reflexivity.
  - apply H2.
  - apply H3. cbn. lia.
Defined.

(** C3 does not hold as stated.  A node that declares the single output
    name [""] and whose converter produces one value is imported without
    error and the value is bound under the empty name: one value is kept
    although no declared name is non-empty.  And a node that declares
    [["y"; ""]] for one produced value fails the mismatch assertion
    although one value was produced and one name is non-empty. *)
Lemma reconcile_single_output_not_reconciled :
  let produced := relay_op "add" [] [ENull; ENull] in
  (declared_names [""] = [] ∧
   reconcile [] (Single produced) [""] = Ok [("", produced)]) ∧
  (declared_names ["y"; ""] = ["y"] ∧
   reconcile [] (Single produced) ["y"; ""]
   = Raise (AssertionError "Number of output mismatch")) ∧
  ∃ func, Demo.import (MkGraph [Demo.plain "Add" ["x"; "x"] [""]] []
                         [Demo.info "x"] [Demo.info ""]) false
          = Ok (func, []).
Proof.
  split_and!; [done..|]. eexists. vm_compute. reflexivity.
Qed.

End reconcile_runs.

(** ** The import as a whole *)

Lemma M_bind_run {A B} (m : M A) (k : A → M B) (n n' : nat) (x : A) :
  m n = inr (x, n') → (m ≫= k) n = k x n'.
Proof. unfold mbind, M_bind. by intros ->. Qed.

Lemma M_bind_raise {A B} (m : M A) (k : A → M B) (n : nat) (e : exn) :
  m n = inl e → (m ≫= k) n = inl e.
Proof. unfold mbind, M_bind. by intros ->. Qed.

Section import_facts.
Context `{Oracles}.

Lemma convert_map_None (opset : Z) (op_name : string) :
  (if bool_decide (op_name = "Loop") then Some (Control Loop_impl_v11)
   else if bool_decide (op_name = "If") then Some (Control If_impl_v1)
   else Ordinary <$> op_table opset op_name) = None
  ↔ ¬ in_convert_map opset op_name.
Proof.
  unfold in_convert_map. repeat case_bool_decide.
  - split; [done|]. intros []. by left.
  - split; [done|]. intros []. right. by left.
  - rewrite fmap_None, eq_None_not_Some. tauto.
Qed.

Lemma elem_of_unsupported_ops (cm : string → option entry) (nodes : list NodePb)
    (op_name : string) :
  op_name ∈ unsupported_ops cm nodes ↔
  op_name ∈ node.op_type <$> nodes ∧ cm op_name = None ∧ op_name ≠ "Constant".
Proof.
  unfold unsupported_ops.
  cut (∀ acc : gset string,
         op_name ∈ foldl (λ (acc : gset string) n,
                            if negb (bool_decide (is_Some (cm (node.op_type n))))
                               && negb (bool_decide (node.op_type n = "Constant"))
                               && negb (bool_decide (node.op_type n ∈ _identity_list))
                            then acc ∪ {[ node.op_type n ]} else acc) acc nodes
         ↔ op_name ∈ acc ∨
           (op_name ∈ node.op_type <$> nodes ∧ cm op_name = None ∧ op_name ≠ "Constant")).
  { intros Hcut. rewrite Hcut. set_solver. }
  induction nodes as [|n nodes IH]; intros acc.
  - cbn. set_solver.
  - cbn [foldl]. rewrite IH, fmap_cons, elem_of_cons. clear IH.
    rewrite (bool_decide_eq_false_2 (_ ∈ _identity_list))
      by (unfold _identity_list; by intros ?%elem_of_nil).
    rewrite andb_true_r.
    destruct (cm (node.op_type n)) as [c|] eqn:Hcm.
    + rewrite bool_decide_eq_true_2 by done. cbn.
      split; [tauto|]. intros [?|([->|?] & Hn & ?)]; [tauto|congruence|tauto].
    + rewrite bool_decide_eq_false_2 by (by intros [? ?]). cbn.
      case_bool_decide as Hc; cbn.
      * split; [tauto|]. intros [?|([->|?] & ? & ?)]; [tauto|done|tauto].
      * rewrite elem_of_union, elem_of_singleton.
        split; [|intros [?|([->|?] & ? & ?)]; tauto].
        intros [[?| ->]|?]; tauto.
Qed.

(** C4.  When two distinct operator names of the graph's nodes have no
    registered converter, the import raises one [OpNotImplemented] that
    carries exactly the unregistered names of the graph's nodes.  It does
    so whatever the converters of the registered operators would do and
    whatever the depth allowance: no node has been converted by then. *)
Theorem unsupported_ops_reported_together (fuel : nat) (self self1 : GraphProto)
    (gr : GraphPb) (opset : Z) (get_output_expr : bool) (n n1 : nat) (a b : string) :
  register self gr opset n = inr (self1, n1) →
  a ≠ b →
  a ∈ node.op_type <$> graph.node gr → ¬ in_convert_map opset a → a ≠ "Constant" →
  b ∈ node.op_type <$> graph.node gr → ¬ in_convert_map opset b → b ≠ "Constant" →
  ∃ ops : gset string,
    from_onnx (S fuel) self gr opset get_output_expr n = inl (OpNotImplemented ops) ∧
    a ∈ ops ∧ b ∈ ops ∧
    ∀ op_name, op_name ∈ ops ↔
               op_name ∈ node.op_type <$> graph.node gr ∧
               ¬ in_convert_map opset op_name ∧ op_name ≠ "Constant".
Proof.
  intros Hreg Hab Ha Hna Hca Hb Hnb Hcb.
  set (cm := λ op_name,
               if bool_decide (op_name = "Loop") then Some (Control Loop_impl_v11)
               else if bool_decide (op_name = "If") then Some (Control If_impl_v1)
               else Ordinary <$> op_table opset op_name).
  exists (unsupported_ops cm (graph.node gr)).
  assert (∀ op_name, op_name ∈ unsupported_ops cm (graph.node gr) ↔
                     op_name ∈ node.op_type <$> graph.node gr ∧
                     ¬ in_convert_map opset op_name ∧ op_name ≠ "Constant") as Hops.
  { intros op_name. rewrite elem_of_unsupported_ops. unfold cm.
    by rewrite convert_map_None. }
  split_and!; [|by apply Hops..|done].
  cbn [from_onnx]. unfold from_onnx_body.
  rewrite (M_bind_run _ _ _ _ _ Hreg).
  apply M_bind_raise. unfold convert_nodes.
  rewrite _get_convert_map_Ok. fold cm.
  erewrite M_bind_run by reflexivity.
  apply M_bind_raise. unfold check_unsupported.
  rewrite bool_decide_eq_false_2; [done|].
  intros Hempty. apply (not_elem_of_empty (C := gset string) a).
  rewrite <- Hempty. by apply Hops.
Qed.

End import_facts.

Section roundtrip.
Context `{Oracles}.

(** C8.  A graph made of one initializer and one declared output naming
    it: with frozen constants the function has no parameter and its body
    is the tensor as a constant; otherwise the function takes exactly one
    parameter, returns it, and the constant table binds the name to the
    tensor.  The name must survive [strip()] and the tensor must
    materialize, as the importer requires of every initializer. *)
Theorem single_initializer_roundtrip (fuel : nat) (init_tensor : TensorProto)
    (out : ValueInfoProto) (array : NDArray) (opsets : list Z) (dtype : dtype_spec)
    (opset : option Z) :
  strip_is_empty (tensor_name init_tensor) = false →
  _parse_array init_tensor = Ok array →
  value_name out = tensor_name init_tensor →
  let model := {| model_graph := MkGraph [] [init_tensor] [] [out];
                  opset_import := opsets |} in
  let param := Var 0 (tensor_name init_tensor)
                 (Some (DimInt <$> nd_shape array)) (Some (nd_dtype array)) in
  frontend_from_onnx (S fuel) model [] dtype opset true
  = Ok (EFunction [] (EConst array None), []) ∧
  frontend_from_onnx (S fuel) model [] dtype opset false
  = Ok (EFunction [param] (EVar param), [(tensor_name init_tensor, array)]).
Proof.
  intros Hname Harray Hout model param.
  unfold frontend_from_onnx, from_onnx, from_onnx_body, register, convert_nodes.
  cbn [model_graph model graph.initializer graph.input graph.node graph.output foldM].
  unfold register_initializer. rewrite Hname, Harray, _get_convert_map_Ok.
  assert (∀ cm, check_unsupported cm [] = Ok tt) as Hcheck.
  { intros cm. unfold check_unsupported. by rewrite bool_decide_eq_true_2. }
  split.
  - cbn. unfold mbind, M_bind, mret, M_ret, lift, result_bind, result_ret. cbn.
    rewrite Hout, Hcheck. unfold odict.getitem. cbn.
    rewrite bool_decide_eq_true_2 by done. done.
  - cbn. unfold mbind, M_bind, mret, M_ret, lift, result_bind, result_ret, new_var. cbn.
    rewrite Hout, Hcheck. unfold odict.getitem. cbn.
    rewrite bool_decide_eq_true_2 by done. cbn.
    unfold mbind, result_bind, name_of_var, odict.getitem, odict.mem. cbn.
    rewrite (bool_decide_eq_false_2 (_ ∈ [])) by (by intros ?%elem_of_nil).
    rewrite (decide_True (P := false = false)) by done. cbn.
    rewrite (decide_True (P := var_eqb _ _ = true)) by done. cbn.
    rewrite (bool_decide_eq_true_2 (_ ∈ _)) by left. cbn.
    rewrite bool_decide_eq_true_2 by done. done.
Qed.

End roundtrip.

Section import_runs.
#[local] Existing Instance Demo.oracles.

Lemma unsupported_ops_reported_together_witness :
  let gr := MkGraph [Demo.plain "Foo" ["x"] ["y"]; Demo.plain "Add" ["x"; "x"] ["z"];
                     Demo.plain "Bar" ["y"] ["t"]]
              [] [Demo.info "x"] [Demo.info "z"] in
  ∃ ops : gset string,
    from_onnx 1 (GraphProto_init [] (DtypeStr "float32") false true) gr 11 false 0%nat
    = inl (OpNotImplemented ops) ∧
    "Foo" ∈ ops ∧ "Bar" ∈ ops ∧
    ∀ op_name, op_name ∈ ops ↔
               op_name ∈ node.op_type <$> graph.node gr ∧
               ¬ in_convert_map 11 op_name ∧ op_name ≠ "Constant".
Proof.
  intros gr.
  destruct (register (GraphProto_init [] (DtypeStr "float32") false true) gr 11 0%nat)
    as [e|[self1 n1]] eqn:E.
  { vm_compute in E. discriminate. }
  apply (unsupported_ops_reported_together 0 _ self1 gr 11 false 0%nat n1 "Foo" "Bar" E).
  - discriminate.
  - cbn. left.
  - intros [?|[?|[c Hc]]]; [discriminate..|]. vm_compute in Hc. discriminate.
  - discriminate.
  - cbn. do 2 right. left.
  - intros [?|[?|[c Hc]]]; [discriminate..|]. vm_compute in Hc. discriminate.
  - discriminate.
Defined.

(** The same graph through the module-level entry point: one error, both
    names. *)
Example unsupported_ops_run :
  Demo.import
    (MkGraph [Demo.plain "Foo" ["x"] ["y"]; Demo.plain "Add" ["x"; "x"] ["z"];
              Demo.plain "Bar" ["y"] ["t"]]
       [] [Demo.info "x"] [Demo.info "z"]) false
  = Raise (OpNotImplemented {[ "Foo"; "Bar" ]}).
Proof. vm_compute. reflexivity. Qed.

Lemma single_initializer_roundtrip_witness :
  let model := {| model_graph := MkGraph [] [Demo.tensor "w" [1; 2]] [] [Demo.info "w"];
                  opset_import := [11] |} in
  frontend_from_onnx 1 model [] (DtypeStr "float32") None true
  = Ok (EFunction [] (EConst Demo.w_value None), []) ∧
  frontend_from_onnx 1 model [] (DtypeStr "float32") None false
  = Ok (EFunction [Demo.w] (EVar Demo.w), [("w", Demo.w_value)]).
Proof.
  apply (single_initializer_roundtrip 0 (Demo.tensor "w" [1; 2]) (Demo.info "w")
           Demo.w_value [11] (DtypeStr "float32") None); reflexivity.
Defined.

(** A name of Unicode whitespace only is as blank to [strip()] as one of
    ASCII spaces: here U+00A0, U+2003 and U+3000 in UTF-8.  The importer
    refuses the initializer. *)
Example unicode_blank_name_rejected :
  let name :=
    String.string_of_list_ascii
      (Ascii.ascii_of_nat <$> [194; 160; 226; 128; 131; 227; 128; 128]%nat) in
  code_points (utf8_bytes name) = [160; 8195; 12288] ∧
  strip_is_empty name = true ∧
  frontend_from_onnx 1
    {| model_graph := MkGraph [] [Demo.tensor name [1; 2]] [] [Demo.info name];
       opset_import := [11] |} [] (DtypeStr "float32") None false
  = Raise (ValueError "Tensor's name is required.").
Proof. split_and!; vm_compute; reflexivity. Qed.

End import_runs.

(** ** Control flow and scopes *)

Tactic Notation "inv_M" hyp(H) "as" simple_intropattern(x) ident(Hx) :=
  let n := fresh "n" in
  apply M_bind_Ok in H as (x & n & Hx & H);
  try (apply lift_Ok in Hx as [Hx ->]).

Section scope_facts.
Context `{Oracles}.

Lemma merge_scope_inputs (gs sub : GraphProto) (fv : list var) :
  _inputs (merge_scope gs sub fv) = _inputs gs.
Proof. done. Qed.

Lemma merge_scope_nodes (gs sub : GraphProto) (fv : list var) :
  _nodes (merge_scope gs sub fv)
  = promote (odict.update (_nodes gs) (_nodes sub)) fv.
Proof. done. Qed.

Lemma merge_scope_params (gs sub : GraphProto) (fv : list var) :
  _params (merge_scope gs sub fv) = odict.update (_params gs) (_params sub).
Proof. done. Qed.

Lemma elem_of_keys_merge_scope (gs sub : GraphProto) (fv : list var) (k : string) :
  k ∈ odict.keys (_nodes (merge_scope gs sub fv)) ↔
  k ∈ odict.keys (_nodes gs) ∨ k ∈ odict.keys (_nodes sub) ∨ k ∈ name_hint <$> fv.
Proof.
  rewrite merge_scope_nodes, elem_of_keys_promote, elem_of_keys_update. tauto.
Qed.

Lemma NoDup_merge_scope (gs sub : GraphProto) (fv : list var) :
  NoDup (odict.keys (_nodes gs)) → NoDup (odict.keys (_nodes (merge_scope gs sub fv))).
Proof.
  intros Hnd. rewrite merge_scope_nodes. by apply NoDup_keys_promote, NoDup_keys_update.
Qed.

(** What a successful [If] conversion went through. *)
Lemma If_inv (import : importer) (gs gs' : GraphProto) (inputs : onnx_input expr)
    (attr : odict.t attr_value) (r : op_result) (n n' : nat) :
  If__impl_v1 import gs inputs attr n = inr (r, gs', n') →
  ∃ o then_pb else_pb then_expr else_expr then_graph else_graph cond n1,
    opset gs = Some o ∧
    odict.get attr "then_branch" = Some (AGraph then_pb) ∧
    odict.get attr "else_branch" = Some (AGraph else_pb) ∧
    import (subscope gs) then_pb o n = inr (then_expr, then_graph, n1) ∧
    import (subscope gs) else_pb o n1 = inr (else_expr, else_graph, n') ∧
    gs' = merge_scope (merge_scope gs then_graph (free_vars then_expr))
                      else_graph (free_vars else_expr) ∧
    r = (if 1 <? Py.len (graph.output then_pb)
         then TupleWrapper (EIf cond then_expr else_expr) (Py.len (graph.output then_pb))
         else Single (EIf cond then_expr else_expr)).
Proof.
  unfold If__impl_v1. intros Hif.
  inv_M Hif as cond0 Hcond. inv_M Hif as ty Hty.
  destruct (odict.get attr "then_branch") as [then_branch|] eqn:Hthen; [|done].
  destruct (odict.get attr "else_branch") as [else_branch|] eqn:Helse; [|done].
  inv_M Hif as o Ho. inv_M Hif as then_pb Hthen_pb.
  inv_M Hif as [then_expr then_graph] Himp1.
  inv_M Hif as else_pb Helse_pb.
  inv_M Hif as [else_expr else_graph] Himp2.
  apply mret_Ok in Hif as [[= -> ->] ->].
  destruct then_branch; try discriminate. injection Hthen_pb as ->.
  destruct else_branch; try discriminate. injection Helse_pb as ->.
  unfold scope_opset in Ho. destruct (opset gs) as [o'|] eqn:Hopset; [|discriminate].
  injection Ho as ->.
  by eexists _, _, _, _, _, _, _, _, _.
Qed.

Lemma while_loop_inv {S : Type} (cond : list expr → result expr) (loop_vars : list var)
    (loop_bodies : list expr → S → M (list expr * S)) (s s' : S) (e : expr) (n n' : nat) :
  while_loop cond loop_vars loop_bodies s n = inr (e, s', n') →
  ∃ loop fresh_vars test outs m,
    cond (EVar <$> fresh_vars) = Ok test ∧
    loop_bodies (EVar <$> fresh_vars) s m = inr (outs, s', n') ∧
    e = ELet loop
          (EFunction fresh_vars
             (EIf test (ECall (EVar loop) outs) (ETuple (EVar <$> fresh_vars))))
          (EVar loop).
Proof.
  unfold while_loop. intros Hw.
  inv_M Hw as loop Hloop. inv_M Hw as fresh_vars Hfresh. inv_M Hw as test Htest.
  inv_M Hw as [outs s1] Hbody. apply mret_Ok in Hw as [[= -> ->] ->].
  by eexists _, _, _, _, _.
Qed.

Lemma body_fn_inv (import : importer) (o : Z) (body : GraphPb)
    (loop_var_names : list string) (num_deps : Z) (iter_dtype : string)
    (max_loop_count : option expr) (loop_inputs outs : list expr)
    (sub sub' : GraphProto) (n n' : nat) :
  body_fn import o body loop_var_names num_deps iter_dtype max_loop_count
    loop_inputs sub n = inr (outs, sub', n') →
  ∃ nodes loop_outputs,
    odict.keys (_nodes sub) ⊆ odict.keys nodes ∧
    import (with_nodes sub nodes) body o n = inr (loop_outputs, sub', n').
Proof.
  unfold body_fn. intros Hb.
  inv_M Hb as loop_count Hcount. inv_M Hb as max_count Hmax. inv_M Hb as cond Hcond.
  inv_M Hb as current_vars Hcur. inv_M Hb as scan_outputs Hscan.
  inv_M Hb as nodes Hnodes. inv_M Hb as [loop_outputs sub1] Himp.
  inv_M Hb as new_cond Hnew. inv_M Hb as new_loop_vars Hvars. inv_M Hb as len Hlen.
  inv_M Hb as new_scan Hnscan. inv_M Hb as combined Hcomb.
  apply mret_Ok in Hb as [[= -> ->] ->].
  exists nodes, loop_outputs. split; [|done].
  clear -Hnodes. revert Hnodes.
  generalize (Py.enumerate ([loop_count; max_count; cond] ++ current_vars)).
  intros l. revert nodes. induction l as [|p l IH] using rev_ind; intros nodes.
  - cbn. by intros [= <-].
  - rewrite foldl_snoc. intros Hf. inv_bind Hf. inv_bind Hf. injection Hf as <-.
    intros k Hk. apply elem_of_keys_set. right. by apply (IH x).
Qed.


(** What a successful [Loop] conversion went through: the body, its
    declared inputs removed, is imported in a child scope, and the child
    scope that import leaves behind is merged into the enclosing one
    together with the free variables of the loop expression. *)
Lemma Loop_inv (import : importer) (gs gs' : GraphProto) (inputs : onnx_input expr)
    (attr : odict.t attr_value) (r : op_result) (n n' : nat) :
  Loop__impl_v11 import gs inputs attr n = inr (r, gs', n') →
  ∃ o body sub loop_outputs subgraph_scope max_loop_count cond
    loop fresh_vars test outs args k m,
    opset gs = Some o ∧
    odict.get attr "body" = Some (AGraph body) ∧
    getitem_int inputs 0 = Ok max_loop_count ∧
    getitem_int inputs 1 = Ok cond ∧
    import sub (graph.clear_input body) o m = inr (loop_outputs, subgraph_scope, n') ∧
    cond_fn max_loop_count cond (EVar <$> fresh_vars) = Ok test ∧
    let loop_expr :=
      fold_constant
        (ELet loop
           (EFunction fresh_vars
              (EIf test (ECall (EVar loop) outs) (ETuple (EVar <$> fresh_vars))))
           (EVar loop)) in
    r = (if k =? 1 then Single (ETupleGetItem (ECall loop_expr args) 3)
         else TupleWrapper
                (ETuple ((λ i, ETupleGetItem (ECall loop_expr args) (i + 3)) <$> upto 0 k))
                k) ∧
    gs' = merge_scope gs subgraph_scope (free_vars loop_expr).
Proof.
  unfold Loop__impl_v11. intros HL.
  inv_M HL as max_loop_count Hmax. inv_M HL as cond Hcond. inv_M HL as sliced Hsl.
  inv_M HL as body_attr Hattr. inv_M HL as ty Hty. inv_M HL as u Hassert.
  inv_M HL as body Hbody. inv_M HL as in0 Hin0. inv_M HL as v_iter Hviter.
  inv_M HL as v_max Hvmax. inv_M HL as in1 Hin1. inv_M HL as v_cond Hvcond.
  inv_M HL as v_deps Hvdeps. inv_M HL as o Ho.
  inv_M HL as [loop_outputs0 sub1] Hfirst.
  inv_M HL as scans Hscans. inv_M HL as [loop sub2] Hwhile.
  apply mret_Ok in HL as [[= -> ->] ->].
  apply while_loop_inv in Hwhile as (lv & fresh_vars & test & outs & m & Htest & Hbfn & ->).
  apply body_fn_inv in Hbfn as (nodes & loop_outputs & Hkeys & Himp).
  unfold scope_opset in Ho. destruct (opset gs) as [o'|] eqn:Hopset; [|discriminate].
  injection Ho as ->.
  unfold odict.getitem in Hattr. destruct (odict.get attr "body") as [b|] eqn:Hb; [|discriminate].
  injection Hattr as ->. destruct body_attr; try discriminate. injection Hbody as ->.
  by eexists o, body, (with_nodes sub1 nodes), loop_outputs, sub2, max_loop_count, cond,
    lv, fresh_vars, test, outs, _, _, m.
Qed.


(** *** Converting nodes only grows the scope *)

Lemma scope_grows_refl (self : GraphProto) : scope_grows self self.
Proof. by unfold scope_grows. Qed.

Lemma scope_grows_trans (a b c : GraphProto) :
  scope_grows a b → scope_grows b c → scope_grows a c.
Proof.
  intros (Hi1 & Hf1 & Hn1 & Hp1 & Hd1) (Hi2 & Hf2 & Hn2 & Hp2 & Hd2).
  split_and!; [congruence|congruence|set_solver|set_solver|tauto].
Qed.

Lemma scope_grows_merge (gs sub : GraphProto) (fv : list var) :
  scope_grows gs (merge_scope gs sub fv).
Proof.
  split_and!; [done|done| | |apply NoDup_merge_scope].
  - intros k Hk. apply elem_of_keys_merge_scope. by left.
  - intros k Hk. rewrite merge_scope_params. apply elem_of_keys_update. by left.
Qed.

Lemma _convert_operator_grows (import : importer) (self self' : GraphProto)
    (op_name : string) (inputs : onnx_input expr) (attrs : odict.t attr_value)
    (opset : Z) (op : op_result) (n n' : nat) :
  _convert_operator import self op_name inputs attrs opset n = inr (op, self', n') →
  scope_grows self self'.
Proof.
  unfold _convert_operator. rewrite _get_convert_map_Ok.
  intros Hc. inv_M Hc as cm Hcm. injection Hcm as <-.
  rewrite bool_decide_eq_false_2 in Hc by (unfold _identity_list; by intros ?%elem_of_nil).
  repeat case_bool_decide.
  - apply Loop_inv in Hc as (? & ? & ? & ? & ? & ? & ? & ? & ? & ? & ? & ? & ? & ? & Hc).
    destruct Hc as (_ & _ & _ & _ & _ & _ & _ & ->). apply scope_grows_merge.
  - apply If_inv in Hc as (? & ? & ? & ? & ? & ? & ? & ? & ? & Hc).
    destruct Hc as (_ & _ & _ & _ & _ & -> & _).
    eapply scope_grows_trans; apply scope_grows_merge.
  - destruct (op_table opset op_name) as [c|]; [|discriminate]. cbn in Hc.
    inv_M Hc as sym Hsym. apply mret_Ok in Hc as [[= _ ->] _]. apply scope_grows_refl.
Qed.

Lemma convert_node_grows (import : importer) (opset : Z) (self self' : GraphProto)
    (nd : NodePb) (n n' : nat) :
  convert_node import opset self nd n = inr (self', n') → scope_grows self self'.
Proof.
  unfold convert_node. intros Hc.
  inv_M Hc as attr Hattr. inv_M Hc as inputs Hinputs.
  inv_M Hc as [op self1] Hop. inv_M Hc as nodes Hrec.
  apply mret_Ok in Hc as [-> ->].
  apply _convert_operator_grows in Hop.
  eapply scope_grows_trans; [exact Hop|].
  split_and!; [done|done| |done|].
  - cbn. by eapply reconcile_keys_mono.
  - cbn. by eapply NoDup_reconcile.
Qed.

Lemma convert_node_loop_grows (import : importer) (opset : Z) (nodes : list NodePb)
    (self self' : GraphProto) (n n' : nat) :
  foldM (convert_node import opset) self nodes n = inr (self', n') →
  scope_grows self self'.
Proof.
  revert self n. induction nodes as [|nd nodes IH]; intros self n; cbn [foldM].
  - intros [-> ->]%mret_Ok. apply scope_grows_refl.
  - intros Hf. inv_M Hf as self1 Hnd.
    eapply scope_grows_trans; [by eapply convert_node_grows|by eapply IH].
Qed.

Lemma convert_nodes_grows (import : importer) (self self' : GraphProto) (gr : GraphPb)
    (opset : Z) (outputs : expr) (n n' : nat) :
  convert_nodes import self gr opset n = inr (outputs, self', n') →
  scope_grows self self'.
Proof.
  unfold convert_nodes. intros Hc.
  inv_M Hc as cm Hcm. inv_M Hc as u Hu. inv_M Hc as self1 Hloop. inv_M Hc as outs Houts.
  apply mret_Ok in Hc as [[= _ ->] _]. by eapply convert_node_loop_grows.
Qed.

End scope_facts.

(** ** Assembly of the function *)

Tactic Notation "inv_res" hyp(H) "as" simple_intropattern(x) ident(Hx) :=
  apply bind_Ok in H as (x & Hx & H).

Section assemble_facts.
Context `{Oracles}.

Lemma mapM_as_var (l : list expr) (ps : list var) :
  mapM as_var l = Ok ps → l = EVar <$> ps.
Proof.
  revert ps. induction l as [|e l IH]; intros ps; cbn.
  - by intros [= <-].
  - intros Hm. inv_res Hm as v Hv. inv_res Hm as vs Hvs. injection Hm as <-.
    destruct e; try discriminate. injection Hv as ->. cbn. f_equal. by apply IH.
Qed.

Lemma values_app {V} (d1 d2 : odict.t V) :
  odict.values (d1 ++ d2) = odict.values d1 ++ odict.values d2.
Proof. unfold odict.values. apply fmap_app. Qed.

Lemma keys_app {V} (d1 d2 : odict.t V) :
  odict.keys (d1 ++ d2) = odict.keys d1 ++ odict.keys d2.
Proof. unfold odict.keys. apply fmap_app. Qed.

(** The loop over the constant table: the names added to the input table
    are, in table order, those bound to a free variable of the result and
    not yet an input. *)
Lemma assemble_loop (nodes : odict.t expr) (free_names ks : list string)
    (inputs0 inputs : odict.t expr) :
  foldl (λ acc i_name,
           inputs ← acc;
           if bool_decide (i_name ∈ free_names) && negb (odict.mem inputs i_name)
           then x ← odict.getitem nodes i_name; Ok (odict.set inputs i_name x)
           else Ok inputs)
        (Ok inputs0) ks = Ok inputs →
  ∃ extra,
    inputs = inputs0 ++ extra ∧
    odict.keys extra `sublist_of` ks ∧
    (∀ k, k ∈ odict.keys extra ↔ k ∈ ks ∧ k ∈ free_names ∧ k ∉ odict.keys inputs0) ∧
    (∀ k e, (k, e) ∈ extra → odict.get nodes k = Some e).
Proof.
  revert inputs0. induction ks as [|k ks IH]; intros inputs0.
  - cbn. intros [= <-]. exists []. rewrite app_nil_r. split_and!; [done|done| |].
    + intros k. cbn. rewrite !elem_of_nil. tauto.
    + by intros k e ?%elem_of_nil.
  - cbn [foldl]. cbn [mbind result_bind Ok].
    destruct (decide (k ∈ free_names ∧ k ∉ odict.keys inputs0)) as [[Hfree Hnew]|Hskip].
    + rewrite bool_decide_eq_true_2 by done.
      rewrite (proj2 (mem_false inputs0 k)) by done. cbn [negb andb].
      unfold odict.getitem. destruct (odict.get nodes k) as [x|] eqn:Hget.
      2: { cbn. intros Hf. exfalso. revert Hf. clear.
           induction ks as [|k' ks IH]; [done|]. cbn. exact IH. }
      cbn [mbind result_bind Ok]. rewrite set_fresh by done.
      intros Hf. destruct (IH _ Hf) as (extra & -> & Hsub & Hkeys & Hvals).
      exists ((k, x) :: extra). split_and!.
      * by rewrite <- app_assoc.
      * cbn. by apply sublist_skip.
      * intros k'. cbn. rewrite elem_of_cons, Hkeys, keys_app, elem_of_app. cbn.
        rewrite list_elem_of_singleton, elem_of_cons.
        destruct (decide (k' = k)) as [->|]; [tauto|]. tauto.
      * intros k' e [[= -> ->]|Hin]%elem_of_cons; [done|]. by apply Hvals.
    + assert (bool_decide (k ∈ free_names) && negb (odict.mem inputs0 k) = false) as ->.
      { apply andb_false_iff.
        destruct (decide (k ∈ free_names)) as [Hfree|Hfree].
        - right. apply negb_false_iff, mem_true.
          destruct (decide (k ∈ odict.keys inputs0)); [done|tauto].
        - left. by apply bool_decide_eq_false_2. }
      intros Hf. destruct (IH _ Hf) as (extra & -> & Hsub & Hkeys & Hvals).
      exists extra. split_and!; [done|by apply sublist_cons|..|done].
      intros k'. rewrite Hkeys, elem_of_cons. split; [tauto|].
      intros ([->|?] & ? & ?); tauto.
Qed.

Lemma assemble_inv (self self' : GraphProto) (outputs : expr) (r : import_result) :
  assemble self outputs = Ok (r, self') →
  ∃ free_names ps extra,
    mapM (name_of_var (_nodes self)) (free_vars outputs) = Ok free_names ∧
    r = Module (EFunction ps outputs) (_params self) ∧
    self' = with_inputs self (_inputs self ++ extra) ∧
    odict.values (_inputs self ++ extra) = EVar <$> ps ∧
    odict.keys extra `sublist_of` odict.keys (_params self) ∧
    (∀ k, k ∈ odict.keys extra ↔
          k ∈ odict.keys (_params self) ∧ k ∈ free_names ∧ k ∉ odict.keys (_inputs self)) ∧
    (∀ k e, (k, e) ∈ extra → odict.get (_nodes self) k = Some e).
Proof.
  unfold assemble. intros Ha.
  inv_res Ha as free_names Hfree. inv_res Ha as inputs Hinputs. inv_res Ha as ps Hps.
  injection Ha as <- <-.
  apply assemble_loop in Hinputs as (extra & -> & Hsub & Hkeys & Hvals).
  exists free_names, ps, extra. split_and!; try done.
  by apply mapM_as_var.
Qed.

End assemble_facts.

(** ** Registration of initializers and declared inputs *)

Ltac simpl_scope :=
  cbn [_nodes _params _inputs _freeze_params with_nodes with_params with_inputs
       with_opset count_param count_input GraphProto_init].

Section register_facts.
Context `{Oracles}.

Lemma new_var_Ok (name : string) (shape : option (list dim)) (dtype : option string)
    (n n' : nat) (v : var) :
  new_var name shape dtype n = inr (v, n') → v = Var n name shape dtype ∧ n' = S n.
Proof. by intros [= <- <-]. Qed.

Lemma register_initializer_spec (self self' : GraphProto) (t : TensorProto) (n n' : nat) :
  register_initializer self t n = inr (self', n') →
  _inputs self' = _inputs self ∧
  _freeze_params self' = _freeze_params self ∧
  (NoDup (odict.keys (_nodes self)) → NoDup (odict.keys (_nodes self'))) ∧
  (∀ k, k ∈ odict.keys (_nodes self') ↔ k = tensor_name t ∨ k ∈ odict.keys (_nodes self)) ∧
  (if _freeze_params self then _params self' = _params self
   else ∀ k, k ∈ odict.keys (_params self') ↔
             k = tensor_name t ∨ k ∈ odict.keys (_params self)).
Proof.
  unfold register_initializer. destruct (strip_is_empty _); [done|].
  intros Hr. inv_M Hr as array Harray.
  destruct (_freeze_params self) eqn:Hfreeze.
  - apply mret_Ok in Hr as [-> ->]. simpl_scope. rewrite Hfreeze.
    split_and!; [done|done|apply NoDup_keys_set| |done].
    intros k. apply elem_of_keys_set.
  - inv_M Hr as v Hv. apply mret_Ok in Hr as [-> ->]. simpl_scope. rewrite Hfreeze.
    split_and!; [done|done|apply NoDup_keys_set| |].
    + intros k. apply elem_of_keys_set.
    + intros k. apply elem_of_keys_set.
Qed.

Lemma register_initializers_spec (inits : list TensorProto) (self self' : GraphProto)
    (n n' : nat) :
  foldM register_initializer self inits n = inr (self', n') →
  _inputs self' = _inputs self ∧
  _freeze_params self' = _freeze_params self ∧
  (NoDup (odict.keys (_nodes self)) → NoDup (odict.keys (_nodes self'))) ∧
  (∀ k, k ∈ odict.keys (_nodes self') ↔
        k ∈ tensor_name <$> inits ∨ k ∈ odict.keys (_nodes self)) ∧
  (if _freeze_params self then _params self' = _params self
   else ∀ k, k ∈ odict.keys (_params self') ↔
             k ∈ tensor_name <$> inits ∨ k ∈ odict.keys (_params self)).
Proof.
  revert self n. induction inits as [|t inits IH]; intros self n; cbn [foldM].
  - intros [-> ->]%mret_Ok. split_and!; [done|done|done| |].
    + intros k. cbn. rewrite elem_of_nil. tauto.
    + destruct (_freeze_params self); [done|]. intros k. cbn. rewrite elem_of_nil. tauto.
  - intros Hf. inv_M Hf as self1 Hstep.
    apply register_initializer_spec in Hstep as (Hi1 & Hf1 & Hd1 & Hn1 & Hp1).
    apply IH in Hf as (Hi2 & Hf2 & Hd2 & Hn2 & Hp2).
    split_and!; [congruence|congruence|tauto| |].
    + intros k. rewrite Hn2, Hn1, fmap_cons, elem_of_cons. tauto.
    + rewrite Hf1 in Hp2. destruct (_freeze_params self); [congruence|].
      intros k. rewrite Hp2, Hp1, fmap_cons, elem_of_cons. tauto.
Qed.

Lemma get_info_name (i : ValueInfoProto) (name : string) (shape : list dim)
    (dtype : option string) :
  get_info i = Ok (name, shape, dtype) → name = value_name i.
Proof. unfold get_info. intros Hg. inv_res Hg as d Hd. by injection Hg as <- _ _. Qed.

Lemma register_input_spec (self self' : GraphProto) (i : ValueInfoProto) (n n' : nat) :
  register_input self i n = inr (self', n') →
  _freeze_params self' = _freeze_params self ∧
  (NoDup (odict.keys (_nodes self)) → NoDup (odict.keys (_nodes self'))) ∧
  (∀ k, k ∈ odict.keys (_params self') ↔ k ∈ odict.keys (_params self)) ∧
  (∀ k, k ∈ odict.keys (_nodes self') ↔ k ∈ odict.keys (_nodes self) ∨ k = value_name i) ∧
  (∃ extra, odict.keys (_inputs self') = odict.keys (_inputs self) ++ extra ∧
            extra `sublist_of` [value_name i]) ∧
  (value_name i ∈ odict.keys (_inputs self') ∨
   (value_name i ∈ odict.keys (_nodes self) ∧ value_name i ∉ odict.keys (_params self))).
Proof.
  unfold register_input. intros Hr. inv_M Hr as [[i_name i_shape] d_type] Hinfo.
  apply get_info_name in Hinfo as ->.
  assert (∀ (d : odict.t expr) v,
            ∃ extra, odict.keys (odict.set d (value_name i) v) = odict.keys d ++ extra ∧
                     extra `sublist_of` [value_name i]) as Hextra.
  { intros d v. rewrite keys_set. case_bool_decide.
    - exists []. rewrite app_nil_r. split; [done|]. apply sublist_nil_l.
    - by exists [value_name i]. }
  destruct (odict.mem (_params self) (value_name i)) eqn:Hparam.
  - apply mem_true in Hparam.
    cbn [_params count_param] in Hr.
    destruct (odict.get (_params self) (value_name i)) as [array|] eqn:Hget; [|done].
    inv_M Hr as v Hv. apply mret_Ok in Hr as [-> ->]. simpl_scope.
    split_and!; [done|apply NoDup_keys_set| | |apply Hextra|].
    + intros k. rewrite elem_of_keys_set, keys_remove_subseteq.
      destruct (decide (k = value_name i)) as [->|]; tauto.
    + intros k. rewrite elem_of_keys_set. tauto.
    + left. apply elem_of_keys_set. by left.
  - apply mem_false in Hparam.
    destruct (odict.mem (_nodes self) (value_name i)) eqn:Hnode.
    + apply mem_true in Hnode. apply mret_Ok in Hr as [-> ->].
      split_and!; [done|done|done| | |by right].
      * intros k. split; [tauto|]. intros [?| ->]; done.
      * exists []. rewrite app_nil_r. split; [done|]. apply sublist_nil_l.
    + inv_M Hr as v Hv. apply mret_Ok in Hr as [-> ->]. simpl_scope.
      split_and!; [done|apply NoDup_keys_set|done| |apply Hextra|].
      * intros k. rewrite elem_of_keys_set. tauto.
      * left. apply elem_of_keys_set. by left.
Qed.

Lemma register_inputs_spec (inputs : list ValueInfoProto) (self self' : GraphProto)
    (n n' : nat) :
  foldM register_input self inputs n = inr (self', n') →
  _freeze_params self' = _freeze_params self ∧
  (NoDup (odict.keys (_nodes self)) → NoDup (odict.keys (_nodes self'))) ∧
  (∀ k, k ∈ odict.keys (_params self') ↔ k ∈ odict.keys (_params self)) ∧
  (∀ k, k ∈ odict.keys (_nodes self') ↔
        k ∈ odict.keys (_nodes self) ∨ k ∈ value_name <$> inputs) ∧
  (∃ extra, odict.keys (_inputs self') = odict.keys (_inputs self) ++ extra ∧
            extra `sublist_of` (value_name <$> inputs)) ∧
  (∀ i, i ∈ inputs →
        value_name i ∈ odict.keys (_inputs self') ∨
        (value_name i ∈ odict.keys (_nodes self) ∧ value_name i ∉ odict.keys (_params self))).
Proof.
  revert self n. induction inputs as [|i inputs IH]; intros self n; cbn [foldM].
  - intros [-> ->]%mret_Ok. split_and!; [done|done|done| | |].
    + intros k. cbn. rewrite elem_of_nil. tauto.
    + exists []. by rewrite app_nil_r.
    + by intros i ?%elem_of_nil.
  - intros Hf. inv_M Hf as self1 Hstep.
    apply register_input_spec in Hstep as (Hf1 & Hd1 & Hp1 & Hn1 & (ex1 & He1 & Hs1) & Hi1).
    apply IH in Hf as (Hf2 & Hd2 & Hp2 & Hn2 & (ex2 & He2 & Hs2) & Hi2).
    split_and!; [congruence|tauto| | | |].
    + intros k. by rewrite Hp2, Hp1.
    + intros k. rewrite Hn2, Hn1, fmap_cons, elem_of_cons. tauto.
    + exists (ex1 ++ ex2). split; [by rewrite He2, He1, app_assoc|].
      rewrite fmap_cons. change (value_name i :: (value_name <$> inputs))
        with ([value_name i] ++ (value_name <$> inputs)). by apply sublist_app.
    + intros j [->|Hj]%elem_of_cons.
      * destruct Hi1 as [Hin|?]; [|by right]. left.
        rewrite He2. apply elem_of_app. by left.
      * destruct (Hi2 j Hj) as [?|[Hnode Hparam]]; [by left|].
        apply Hn1 in Hnode as [Hnode|Heq].
        -- right. split; [done|]. by rewrite <- Hp1.
        -- rewrite Heq. destruct Hi1 as [Hin|?]; [|by right]. left.
           rewrite He2. apply elem_of_app. by left.
Qed.

(** The importer object once initializers and declared inputs of a fresh
    top-level import are registered. *)
Lemma register_spec (shape : odict.t (list dim)) (dtype : dtype_spec) (freeze : bool)
    (outermost : bool) (gr : GraphPb) (opset : Z) (self : GraphProto) (n n' : nat) :
  register (GraphProto_init shape dtype freeze outermost) gr opset n = inr (self, n') →
  _freeze_params self = freeze ∧
  NoDup (odict.keys (_nodes self)) ∧
  odict.keys (_inputs self) `sublist_of` (value_name <$> graph.input gr) ∧
  (∀ i, i ∈ graph.input gr → ¬ frozen_initializer freeze gr (value_name i) →
        value_name i ∈ odict.keys (_inputs self)) ∧
  (freeze = false → ∀ t, t ∈ graph.initializer gr →
                         tensor_name t ∈ odict.keys (_params self)).
Proof.
  unfold register. intros Hr.
  inv_M Hr as self1 Hinits. inv_M Hr as self2 Hinputs. inv_M Hr as u Hcheck.
  apply mret_Ok in Hr as [-> ->].
  apply register_initializers_spec in Hinits as (Hi1 & Hf1 & Hd1 & Hn1 & Hp1).
  apply register_inputs_spec in Hinputs as (Hf2 & Hd2 & Hp2 & Hn2 & (ex & He & Hs) & Hi2).
  cbn in Hi1, Hf1, Hd1, Hn1, Hp1. rewrite Hi1 in He. cbn in He.
  split_and!.
  - congruence.
  - apply Hd2, Hd1. constructor.
  - by rewrite He.
  - intros i Hi Hnot. destruct (Hi2 i Hi) as [|[Hnode Hparam]]; [done|]. exfalso.
    apply Hn1 in Hnode as [Hnode|Hnode]; [|by apply elem_of_nil in Hnode].
    destruct freeze.
    + by apply Hnot.
    + apply Hparam, Hp1. by left.
  - intros -> t Ht. apply Hp2, Hp1. left. by apply list_elem_of_fmap_2.
Qed.

End register_facts.

(** ** The order in which a dict receives its keys *)

Lemma elem_of_first_occurrences (seen l : list string) (x : string) :
  x ∈ first_occurrences seen l ↔ x ∈ l ∧ x ∉ seen.
Proof.
  revert seen. induction l as [|k l IH]; intros seen; cbn.
  - rewrite elem_of_nil. tauto.
  - case_bool_decide as Hk.
    + rewrite IH, elem_of_cons. split; [tauto|]. intros [[->|?] ?]; tauto.
    + rewrite !elem_of_cons, IH, elem_of_cons.
      destruct (decide (x = k)) as [->|]; tauto.
Qed.

Lemma NoDup_first_occurrences (seen l : list string) : NoDup (first_occurrences seen l).
Proof.
  revert seen. induction l as [|k l IH]; intros seen; cbn; [constructor|].
  case_bool_decide as Hk; [done|]. constructor; [|done].
  rewrite elem_of_first_occurrences, elem_of_cons. tauto.
Qed.

Lemma first_occurrences_sublist (seen l : list string) :
  first_occurrences seen l `sublist_of` l.
Proof.
  revert seen. induction l as [|k l IH]; intros seen; cbn; [done|].
  case_bool_decide; [by apply sublist_cons|by apply sublist_skip].
Qed.

(** Distinct names that are all new are received as they come. *)
Lemma first_occurrences_NoDup (seen l : list string) :
  NoDup l → (∀ x, x ∈ l → x ∉ seen) → first_occurrences seen l = l.
Proof.
  revert seen. induction l as [|k l IH]; intros seen Hnd Hnew; cbn; [done|].
  apply NoDup_cons in Hnd as [Hk Hnd].
  rewrite bool_decide_eq_false_2 by (apply Hnew; left). f_equal.
  apply IH; [done|]. intros x Hx [->|Hin]%elem_of_cons; [done|].
  by apply (Hnew x); [right|].
Qed.

Lemma first_occurrences_seen (seen seen' l : list string) :
  (∀ x, x ∈ seen ↔ x ∈ seen') → first_occurrences seen l = first_occurrences seen' l.
Proof.
  revert seen seen'. induction l as [|k l IH]; intros seen seen' Hs; cbn; [done|].
  rewrite (bool_decide_ext _ _ (Hs k)). case_bool_decide; [by apply IH|].
  f_equal. apply IH. intros x. rewrite !elem_of_cons, Hs. tauto.
Qed.

Lemma first_occurrences_filter (P Q : string → Prop) `{!∀ x, Decision (P x)}
    `{!∀ x, Decision (Q x)} (seen l : list string) :
  (∀ x, x ∉ seen → P x ↔ Q x) →
  first_occurrences seen (filter P l) = first_occurrences seen (filter Q l).
Proof.
  revert seen. induction l as [|k l IH]; intros seen HPQ; [done|].
  rewrite !filter_cons. destruct (decide (k ∈ seen)) as [Hk|Hk].
  - assert (∀ l', first_occurrences seen (k :: l') = first_occurrences seen l') as Hdrop.
    { intros l'. cbn. by rewrite bool_decide_eq_true_2. }
    destruct (decide (P k)), (decide (Q k)); rewrite ?Hdrop; by apply IH.
  - destruct (decide (P k)) as [HP|HP], (decide (Q k)) as [HQ|HQ];
      [|by apply HPQ in HP|by apply HPQ in HQ|by apply IH].
    cbn. rewrite bool_decide_eq_false_2 by done. f_equal.
    apply IH. intros x Hx. apply HPQ. rewrite elem_of_cons in Hx. tauto.
Qed.

Section declared_inputs.
Context `{Oracles}.

Lemma elem_of_set {V} (d : odict.t V) (k : string) (v : V) (k' : string) (v' : V) :
  (k', v') ∈ odict.set d k v → (k', v') ∈ d ∨ (k' = k ∧ v' = v).
Proof.
  induction d as [|[k0 v0] d IH]; cbn.
  - intros [= -> ->]%list_elem_of_singleton. by right.
  - case_bool_decide as Hk.
    + intros [[= -> ->]|Hin]%elem_of_cons; [by right|]. left. by right.
    + intros [[= -> ->]|Hin]%elem_of_cons; [left; left|].
      destruct (IH Hin) as [?|?]; [left; by right|by right].
Qed.

(** What one declared input does to the input table. *)
Lemma register_input_inputs (self self' : GraphProto) (i : ValueInfoProto) (n n' : nat) :
  register_input self i n = inr (self', n') →
  odict.keys (_inputs self')
  = (if decide (value_name i ∈ odict.keys (_params self)
                ∨ value_name i ∉ odict.keys (_nodes self))
     then if bool_decide (value_name i ∈ odict.keys (_inputs self))
          then odict.keys (_inputs self)
          else odict.keys (_inputs self) ++ [value_name i]
     else odict.keys (_inputs self)) ∧
  (∀ k e, (k, e) ∈ _inputs self' →
          (k, e) ∈ _inputs self ∨ ∃ v, e = EVar v ∧ name_hint v = k).
Proof.
  unfold register_input. intros Hr. inv_M Hr as [[i_name i_shape] d_type] Hinfo.
  apply get_info_name in Hinfo as ->.
  destruct (odict.mem (_params self) (value_name i)) eqn:Hparam.
  - apply mem_true in Hparam.
    cbn [_params count_param] in Hr.
    destruct (odict.get (_params self) (value_name i)) as [array|] eqn:Hget; [|done].
    inv_M Hr as v Hv. apply new_var_Ok in Hv as [-> _].
    apply mret_Ok in Hr as [-> ->]. simpl_scope.
    rewrite decide_True by (by left). split; [apply keys_set|].
    intros k e [?|[-> ->]]%elem_of_set; [by left|]. right. by eexists.
  - apply mem_false in Hparam.
    destruct (odict.mem (_nodes self) (value_name i)) eqn:Hnode.
    + apply mem_true in Hnode. apply mret_Ok in Hr as [-> ->].
      rewrite decide_False by tauto. split; [done|]. intros k e ?. by left.
    + apply mem_false in Hnode.
      inv_M Hr as v Hv. apply new_var_Ok in Hv as [-> _].
      apply mret_Ok in Hr as [-> ->]. simpl_scope.
      rewrite decide_True by (by right). split; [apply keys_set|].
      intros k e [?|[-> ->]]%elem_of_set; [by left|]. right. by eexists.
Qed.

(** The declared inputs in turn: the table receives, in declared order,
    the names that are constants or not bound yet. *)
Lemma register_inputs_inputs (inputs : list ValueInfoProto) (self self' : GraphProto)
    (n n' : nat) :
  foldM register_input self inputs n = inr (self', n') →
  odict.keys (_inputs self) ⊆ odict.keys (_nodes self) →
  odict.keys (_inputs self')
  = odict.keys (_inputs self)
    ++ first_occurrences (odict.keys (_inputs self))
         (filter (λ k, k ∈ odict.keys (_params self) ∨ k ∉ odict.keys (_nodes self))
                 (value_name <$> inputs)) ∧
  (∀ k e, (k, e) ∈ _inputs self' →
          (k, e) ∈ _inputs self ∨ ∃ v, e = EVar v ∧ name_hint v = k).
Proof.
  revert self n. induction inputs as [|i inputs IH]; intros self n; cbn [foldM].
  - intros [-> ->]%mret_Ok _. cbn. rewrite app_nil_r. split; [done|]. intros k e ?. by left.
  - intros Hf Hsub. inv_M Hf as self1 Hstep.
    pose proof (register_input_inputs _ _ _ _ _ Hstep) as [Hkeys1 Hent1].
    apply register_input_spec in Hstep as (_ & _ & Hp1 & Hn1 & _ & _).
    assert (odict.keys (_inputs self1) ⊆ odict.keys (_nodes self1)) as Hsub1.
    { intros x Hx. apply Hn1. rewrite Hkeys1 in Hx.
      destruct (decide _) as [_|_]; [|left; by apply Hsub].
      case_bool_decide; [left; by apply Hsub|].
      apply elem_of_app in Hx as [Hx|Hx%list_elem_of_singleton]; [left; by apply Hsub|by right]. }
    destruct (IH _ _ Hf Hsub1) as [Hkeys Hent]. split.
    2: { intros k e Hin. destruct (Hent k e Hin) as [Hin1|?]; [|by right]. by apply Hent1. }
    rewrite Hkeys, fmap_cons, filter_cons, Hkeys1. clear Hkeys Hkeys1 Hent Hent1 IH Hf.
    set (P := λ k, k ∈ odict.keys (_params self) ∨ k ∉ odict.keys (_nodes self)).
    set (P1 := λ k, k ∈ odict.keys (_params self1) ∨ k ∉ odict.keys (_nodes self1)).
    assert (∀ x, x ≠ value_name i → P1 x ↔ P x) as HP.
    { intros x Hx. unfold P1, P. rewrite Hp1, Hn1. tauto. }
    destruct (decide (P (value_name i))) as [HPk|HPk].
    + repeat (rewrite (decide_True (P := _ ∨ _)) by done).
      case_bool_decide as HkI.
      * f_equal. cbn. rewrite bool_decide_eq_true_2 by done.
        apply first_occurrences_filter. intros x Hx. apply HP. by intros ->.
      * rewrite <- app_assoc. f_equal. cbn.
        rewrite bool_decide_eq_false_2 by done. f_equal.
        rewrite (first_occurrences_seen (odict.keys (_inputs self) ++ [value_name i])
                   (value_name i :: odict.keys (_inputs self))).
        2: { intros x. rewrite elem_of_app, list_elem_of_singleton, elem_of_cons. tauto. }
        apply first_occurrences_filter. intros x Hx. apply HP.
        rewrite elem_of_cons in Hx. tauto.
    + repeat (rewrite (decide_False (P := _ ∨ _)) by done).
      f_equal. apply first_occurrences_filter. intros x Hx.
      destruct (decide (x = value_name i)) as [->|]; [|by apply HP].
      unfold P1, P in *. rewrite Hp1, Hn1. tauto.
Qed.

(** The input table of a fresh top-level import once registration is
    over: the declared inputs that are not frozen initializers, each once
    and in declared order, each bound to a variable of that name. *)
Lemma register_inputs_table (shape : odict.t (list dim)) (dtype : dtype_spec)
    (freeze outermost : bool) (gr : GraphPb) (opset : Z) (self : GraphProto)
    (n n' : nat) :
  register (GraphProto_init shape dtype freeze outermost) gr opset n = inr (self, n') →
  odict.keys (_inputs self)
  = first_occurrences []
      (filter (λ k, ¬ frozen_initializer freeze gr k) (value_name <$> graph.input gr)) ∧
  (∀ k e, (k, e) ∈ _inputs self → ∃ v, e = EVar v ∧ name_hint v = k).
Proof.
  unfold register. intros Hr.
  inv_M Hr as self1 Hinits. inv_M Hr as self2 Hinputs. inv_M Hr as u Hcheck.
  apply mret_Ok in Hr as [-> ->].
  apply register_initializers_spec in Hinits as (Hi1 & Hf1 & _ & Hn1 & Hp1).
  cbn in Hi1, Hf1, Hn1, Hp1.
  apply register_inputs_inputs in Hinputs as [Hkeys Hent].
  2: { rewrite Hi1. by intros x ?%elem_of_nil. }
  rewrite Hi1 in Hkeys, Hent. cbn in Hkeys. split.
  - rewrite Hkeys. f_equal. apply list_filter_iff. intros k.
    unfold frozen_initializer. rewrite Hn1, elem_of_nil.
    destruct freeze.
    + rewrite Hp1. cbn. rewrite elem_of_nil. tauto.
    + rewrite Hp1, elem_of_nil.
      destruct (decide (k ∈ tensor_name <$> graph.initializer gr)); [|tauto].
      split; [|tauto]. by intros _ [[=] _].
  - intros k e Hin. destruct (Hent k e Hin) as [?%elem_of_nil|?]; done.
Qed.

End declared_inputs.

(** ** The parameter list of the assembled function *)

Section parameters.
Context `{Oracles}.

(** The stages of a successful top-level import. *)
Lemma from_onnx_inv (fuel : nat) (self0 self' : GraphProto) (gr : GraphPb) (opset : Z)
    (f : expr) (params : odict.t NDArray) (n n' : nat) :
  from_onnx fuel self0 gr opset false n = inr (Module f params, self', n') →
  ∃ fuel' self1 self2 outputs n1,
    fuel = S fuel' ∧
    register self0 gr opset n = inr (self1, n1) ∧
    convert_nodes (from_onnx_outputs fuel') self1 gr opset n1 = inr (outputs, self2, n') ∧
    assemble self2 outputs = Ok (Module f params, self').
Proof.
  destruct fuel as [|fuel']; [done|]. cbn [from_onnx]. unfold from_onnx_body.
  intros Hf. inv_M Hf as self1 Hreg. inv_M Hf as [outputs self2] Hconv.
  cbn in Hf. apply lift_Ok in Hf as [Hasm ->].
  by exists fuel', self1, self2, outputs, n0.
Qed.

(** The names the loop over the constant table adds, in order. *)
Lemma assemble_loop_keys (nodes : odict.t expr) (free_names ks : list string)
    (inputs0 inputs : odict.t expr) :
  foldl (λ acc i_name,
           inputs ← acc;
           if bool_decide (i_name ∈ free_names) && negb (odict.mem inputs i_name)
           then x ← odict.getitem nodes i_name; Ok (odict.set inputs i_name x)
           else Ok inputs)
        (Ok inputs0) ks = Ok inputs →
  odict.keys inputs
  = odict.keys inputs0
    ++ first_occurrences (odict.keys inputs0) (filter (λ k, k ∈ free_names) ks).
Proof.
  revert inputs0. induction ks as [|k ks IH]; intros inputs0.
  - cbn. intros [= <-]. by rewrite app_nil_r.
  - cbn [foldl]. cbn [mbind result_bind Ok]. rewrite filter_cons.
    destruct (decide (k ∈ free_names)) as [Hfree|Hfree].
    + rewrite bool_decide_eq_true_2 by done. cbn [andb first_occurrences].
      unfold odict.mem. case_bool_decide as Hin; cbn [negb].
      * by apply IH.
      * unfold odict.getitem. destruct (odict.get nodes k) as [x|] eqn:Hget.
        2: { cbn. intros Hf. exfalso. revert Hf. clear.
             induction ks as [|k' ks IH]; [done|]. cbn. exact IH. }
        cbn [mbind result_bind Ok]. rewrite set_fresh by done.
        intros Hf. rewrite (IH _ Hf), keys_app, <- app_assoc. f_equal. cbn. f_equal.
        apply first_occurrences_seen. intros y.
        rewrite elem_of_app, list_elem_of_singleton, elem_of_cons. tauto.
    + rewrite bool_decide_eq_false_2 by done. cbn [andb]. by apply IH.
Qed.

Lemma getitem_entries (nodes extra : odict.t expr) :
  (∀ k e, (k, e) ∈ extra → odict.get nodes k = Some e) →
  mapM (odict.getitem nodes) (odict.keys extra) = Ok (odict.values extra).
Proof.
  induction extra as [|[k e] extra IH]; intros Hget; [done|].
  cbn. unfold odict.keys, odict.values in IH. rewrite IH.
  - unfold odict.getitem. by rewrite (Hget k e) by left.
  - intros k' e' Hin. apply Hget. by right.
Qed.

Lemma named_entries (d : odict.t expr) (ps : list var) :
  (∀ k e, (k, e) ∈ d → ∃ v, e = EVar v ∧ name_hint v = k) →
  odict.values d = EVar <$> ps →
  name_hint <$> ps = odict.keys d.
Proof.
  revert ps. induction d as [|[k e] d IH]; intros ps Hent Hvals.
  - by destruct ps.
  - destruct ps as [|p ps]; [done|]. cbn in Hvals. injection Hvals as -> Hvals.
    destruct (Hent k (EVar p)) as (v & [= <-] & Hv); [left|].
    cbn. f_equal; [done|]. apply IH; [|done]. intros k' e' Hin. apply Hent. by right.
Qed.

(** C2, as the code has it.  The parameters of the assembled function
    are the importer's input table.  First come the variables that
    registration bound to the declared inputs that are not frozen
    initializers: one for each such name, named after it, in declared
    order, whether or not the result reaches it.  Then come, in the order
    of the returned constant table, the variables the top-level table
    binds under the constant names that are not among the former and are
    the names the table gives to the free variables of the result.  The
    constant table is returned whole. *)
Theorem from_onnx_parameter_list (fuel : nat) (shape : odict.t (list dim))
    (dtype : dtype_spec) (freeze : bool) (gr : GraphPb) (opset : Z)
    (f : expr) (params : odict.t NDArray) (self' : GraphProto) (n n' : nat) :
  from_onnx fuel (GraphProto_init shape dtype freeze true) gr opset false n
  = inr (Module f params, self', n') →
  ∃ (registered : GraphProto) (n1 : nat) (declared extra : list var) (outputs : expr)
    (free_names : list string),
    let declared_names :=
      first_occurrences []
        (filter (λ k, ¬ frozen_initializer freeze gr k) (value_name <$> graph.input gr)) in
    let extra_names :=
      first_occurrences declared_names
        (filter (λ k, k ∈ free_names) (odict.keys params)) in
    f = EFunction (declared ++ extra) outputs ∧
    register (GraphProto_init shape dtype freeze true) gr opset n = inr (registered, n1) ∧
    odict.values (_inputs registered) = EVar <$> declared ∧
    odict.keys (_inputs registered) = declared_names ∧
    name_hint <$> declared = declared_names ∧
    mapM (name_of_var (_nodes self')) (free_vars outputs) = Ok free_names ∧
    mapM (odict.getitem (_nodes self')) extra_names = Ok (EVar <$> extra) ∧
    odict.keys (_inputs self') = declared_names ++ extra_names ∧
    params = _params self' ∧
    (freeze = false → ∀ t, t ∈ graph.initializer gr →
                           tensor_name t ∈ odict.keys params).
Proof.
  intros Hf.
  apply from_onnx_inv in Hf as (fuel' & self1 & self2 & outputs & n1 & -> & Hreg & Hconv & Hasm).
  pose proof (register_inputs_table _ _ _ _ _ _ _ _ _ Hreg) as [Hkeys Hent].
  pose proof (register_spec _ _ _ _ _ _ _ _ _ Hreg) as (_ & _ & _ & _ & Hinit).
  apply convert_nodes_grows in Hconv as (Hinputs & _ & _ & Hparams & _).
  pose proof Hasm as Hasm'. unfold assemble in Hasm'.
  inv_res Hasm' as free_names' Hfree'. inv_res Hasm' as inputs Hloop.
  inv_res Hasm' as ps' Hps'. injection Hasm' as _ _ Hself.
  apply assemble_loop_keys in Hloop.
  apply assemble_inv in Hasm
    as (free_names & ps & extra & Hfree & [= -> ->] & -> & Hvals & _ & _ & Hget).
  rewrite Hfree in Hfree'. injection Hfree' as <-.
  apply (f_equal _inputs) in Hself. cbn [_inputs with_inputs] in Hself. subst inputs.
  rewrite keys_app in Hloop. apply app_inv_head in Hloop.
  rewrite Hinputs in *.
  rewrite values_app in Hvals. symmetry in Hvals.
  apply fmap_app_inv in Hvals as (ps1 & ps2 & Hv1 & Hv2 & ->).
  exists self1, n1, ps1, ps2, outputs, free_names. cbn zeta. simpl_scope.
  rewrite <- Hkeys.
  split_and!; try done.
  - by apply named_entries.
  - rewrite <- Hloop, <- Hv2. by apply getitem_entries.
  - by rewrite keys_app, Hloop.
  - intros -> t Ht. by apply Hparams, Hinit.
Qed.

End parameters.

Section parameter_runs.
#[local] Existing Instance Demo.oracles.

Lemma from_onnx_parameter_list_witness :
  let gr := MkGraph [] [Demo.tensor "w" [1; 2]; Demo.tensor "w2" [3; 4]]
              [Demo.info "x"] [Demo.info "w"] in
  ∃ f params self' n',
    from_onnx 1 (GraphProto_init [] (DtypeStr "float32") false true) gr 11 false 0%nat
    = inr (Module f params, self', n') ∧
    ∃ (registered : GraphProto) (n1 : nat) (declared extra : list var) (outputs : expr)
      (free_names : list string),
      let declared_names :=
        first_occurrences []
          (filter (λ k, ¬ frozen_initializer false gr k) (value_name <$> graph.input gr)) in
      let extra_names :=
        first_occurrences declared_names
          (filter (λ k, k ∈ free_names) (odict.keys params)) in
      f = EFunction (declared ++ extra) outputs ∧
      register (GraphProto_init [] (DtypeStr "float32") false true) gr 11 0%nat
      = inr (registered, n1) ∧
      odict.values (_inputs registered) = EVar <$> declared ∧
      odict.keys (_inputs registered) = declared_names ∧
      name_hint <$> declared = declared_names ∧
      mapM (name_of_var (_nodes self')) (free_vars outputs) = Ok free_names ∧
      mapM (odict.getitem (_nodes self')) extra_names = Ok (EVar <$> extra) ∧
      odict.keys (_inputs self') = declared_names ++ extra_names ∧
      params = _params self' ∧
      (false = false → ∀ t, t ∈ graph.initializer gr →
                            tensor_name t ∈ odict.keys params).
Proof.
  intros gr.
  destruct (from_onnx 1 (GraphProto_init [] (DtypeStr "float32") false true) gr 11
              false 0%nat) as [e|[[[o|f params] self'] n']] eqn:E.
  - vm_compute in E. discriminate.
  - vm_compute in E. discriminate.
  - exists f, params, self', n'. split; [done|].
    exact (from_onnx_parameter_list 1 [] (DtypeStr "float32") false gr 11
             f params self' 0%nat n' E).
Defined.

(** The two name lists of the theorem on that graph, and on one that
    declares [x] twice and the initializer [w] as an input. *)
Example parameter_names_run :
  let inits := [Demo.tensor "w" [1; 2]; Demo.tensor "w2" [3; 4]] in
  let gr := MkGraph [] inits [Demo.info "x"] [Demo.info "w"] in
  let gr' := MkGraph [] inits [Demo.info "x"; Demo.info "w"; Demo.info "x"]
               [Demo.info "w2"] in
  let names freeze gr :=
    first_occurrences []
      (filter (λ k, ¬ frozen_initializer freeze gr k) (value_name <$> graph.input gr)) in
  names false gr = ["x"] ∧
  first_occurrences ["x"] (filter (λ k, k ∈ ["w"]) ["w"; "w2"]) = ["w"] ∧
  names false gr' = ["x"; "w"] ∧ names true gr' = ["x"] ∧
  (∃ x w w2,
     Demo.import gr' false
     = Ok (EFunction [x; w; w2] (EVar w2),
           [("w2", {| nd_shape := [2]; nd_dtype := "float32"; nd_data := [3; 4] |});
            ("w", Demo.w_value)]) ∧
     name_hint <$> [x; w; w2] = ["x"; "w"; "w2"]).
Proof.
  split_and!; [by vm_compute..|]. eexists _, _, _. split; by vm_compute.
Qed.

(** C2 does not hold as stated.  The declared input [x] is not reachable
    from the result, which is the initializer [w], yet [x] is the first
    parameter; and the returned table still holds [w2], which the function
    does not reference. *)
Lemma dead_input_kept_and_table_whole :
  let gr := MkGraph [] [Demo.tensor "w" [1; 2]; Demo.tensor "w2" [3; 4]]
              [Demo.info "x"] [Demo.info "w"] in
  let x := Var 2 "x" (Some [DimInt 2]) (Some "float32") in
  Demo.import gr false
  = Ok (EFunction [x; Demo.w] (EVar Demo.w),
        [("w", Demo.w_value);
         ("w2", {| nd_shape := [2]; nd_dtype := "float32"; nd_data := [3; 4] |})]) ∧
  free_vars (EVar Demo.w) = [Demo.w] ∧
  x ∉ free_vars (EVar Demo.w).
Proof.
  split_and!; [by vm_compute|by vm_compute|].
  intros Hx. vm_compute in Hx. apply list_elem_of_singleton in Hx. discriminate.
Qed.

End parameter_runs.

(** ** What a control-flow node leaves in the enclosing scope *)

Section control_flow.
Context `{Oracles}.




(** What promotion achieves.  When [If] or [Loop] returns, every free
    variable of the converted else branch or loop expression is bound in
    the enclosing table under its name hint, to a free variable with that
    hint, and the name hint of every free variable of the then branch is
    bound.  After the whole import, a variable free in the result whose
    name in the top-level table is a key of the constant table and not
    a declared input is a parameter of the assembled function. *)
Lemma free_variables_promoted (import : importer) (gs gs' : GraphProto)
    (inputs : onnx_input expr) (attr : odict.t attr_value) (r : op_result)
    (n n' : nat)
    (fuel : nat) (shape : odict.t (list dim)) (dtype : dtype_spec) (freeze : bool)
    (gr : GraphPb) (opset : Z) (f : expr) (params : odict.t NDArray)
    (self' : GraphProto) (m m' : nat) :
  (If__impl_v1 import gs inputs attr n = inr (r, gs', n') →
   ∃ cond then_expr else_expr k,
     r = (if 1 <? k then TupleWrapper (EIf cond then_expr else_expr) k
          else Single (EIf cond then_expr else_expr)) ∧
     (∀ v, v ∈ free_vars then_expr → name_hint v ∈ odict.keys (_nodes gs')) ∧
     (∀ v, v ∈ free_vars else_expr →
           ∃ v', v' ∈ free_vars else_expr ∧ name_hint v' = name_hint v ∧
                 odict.get (_nodes gs') (name_hint v) = Some (EVar v'))) ∧
  (Loop__impl_v11 import gs inputs attr n = inr (r, gs', n') →
   ∃ loop args k,
     r = (if k =? 1 then Single (ETupleGetItem (ECall loop args) 3)
          else TupleWrapper
                 (ETuple ((λ i, ETupleGetItem (ECall loop args) (i + 3)) <$> upto 0 k))
                 k) ∧
     (∀ v, v ∈ free_vars loop →
           ∃ v', v' ∈ free_vars loop ∧ name_hint v' = name_hint v ∧
                 odict.get (_nodes gs') (name_hint v) = Some (EVar v'))) ∧
  (from_onnx fuel (GraphProto_init shape dtype freeze true) gr opset false m
   = inr (Module f params, self', m') →
   ∃ ps outputs,
     f = EFunction ps outputs ∧
     ∀ v k, v ∈ free_vars outputs →
            name_of_var (_nodes self') v = Ok k →
            k ∈ odict.keys params →
            k ∉ value_name <$> graph.input gr →
            ∃ v', v' ∈ ps ∧ vid v' = vid v).
Proof.
  split_and!.
  - intros HIf.
    apply If_inv in HIf
      as (o & then_pb & else_pb & then_expr & else_expr & then_graph & else_graph
          & cond & n1 & _ & _ & _ & Hthen & Helse & -> & ->).
    exists cond, then_expr, else_expr, (Py.len (graph.output then_pb)).
    split_and!; [done| |].
    + intros v Hv. rewrite !elem_of_keys_merge_scope. left. right. right.
      by apply list_elem_of_fmap_2.
    + intros v Hv. rewrite merge_scope_nodes. by apply get_promote.
  - intros HLoop.
    apply Loop_inv in HLoop
      as (o & body & sub & loop_outputs & subgraph_scope & max_loop_count & cond
          & loop & fresh_vars & test & outs & args & k & m0
          & _ & _ & _ & _ & Himp & _ & -> & ->).
    eexists _, args, k. split; [done|].
    intros v Hv. rewrite merge_scope_nodes. by apply get_promote.
  - intros Hf.
    apply from_onnx_inv in Hf
      as (fuel' & self1 & self2 & outputs & n1 & -> & Hreg & Hconv & Hasm).
    apply register_spec in Hreg as (_ & Hnd & Hsub & _ & _).
    apply convert_nodes_grows in Hconv as (Hinputs & _ & _ & _ & Hnd2).
    specialize (Hnd2 Hnd).
    apply assemble_inv in Hasm
      as (free_names & ps & extra & Hfree & [= -> ->] & -> & Hvals & _ & Hextra & Hget).
    exists ps, outputs. split; [done|].
    cbn [_nodes with_inputs]. intros v k Hv Hname Hk Hnot.
    assert (k ∈ free_names) as Hkfree.
    { clear -Hfree Hv Hname. revert free_names Hfree.
      induction (free_vars outputs) as [|v0 l IH]; intros free_names Hfree;
        [by apply elem_of_nil in Hv|].
      cbn in Hfree. inv_res Hfree as k0 Hk0. inv_res Hfree as ks Hks.
      injection Hfree as <-. apply elem_of_cons in Hv as [->|Hv].
      - rewrite Hname in Hk0. injection Hk0 as ->. left.
      - right. by apply IH. }
    assert (k ∈ odict.keys extra) as Hin.
    { apply Hextra. split_and!; [done|done|]. rewrite Hinputs.
      intros Hdecl. apply Hnot. by eapply elem_of_sublist. }
    apply list_elem_of_fmap in Hin as ([k' e] & -> & Hin). cbn in Hname, Hk, Hnot.
    specialize (Hget _ _ Hin).
    unfold name_of_var in Hname.
    destruct (last (filter _ (_nodes self2))) as [[k0 e0]|] eqn:Hlast; [|done].
    injection Hname as ->.
    apply last_Some_elem_of, list_elem_of_filter in Hlast as [Hisvar Hin0].
    cbn in Hisvar. apply (elem_of_get_NoDup _ _ _ Hnd2) in Hin0.
    rewrite Hget in Hin0. injection Hin0 as ->.
    destruct e0 as [|v'| | | | | | | |]; try discriminate.
    exists v'. split.
    + assert (EVar v' ∈ odict.values (_inputs self2 ++ extra)) as Hval.
      { rewrite values_app, elem_of_app. right.
        apply list_elem_of_fmap. by exists (k', EVar v'). }
      rewrite Hvals in Hval. apply list_elem_of_fmap in Hval as (v'' & [= ->] & Hv''). done.
    + unfold is_var, var_eqb in Hisvar. apply bool_decide_eq_true in Hisvar. done.
Qed.

End control_flow.

(** ** Control flow on the concrete importer *)


(** The tests the three runs build, and the run without count and
    condition, which the converter refuses. *)
Example Loop_modes_run :
  let test (O : Oracles) (inputs : onnx_input expr) :=
    match @Loop__impl_v11 O (@from_onnx_outputs O 1) Demo.scope inputs Demo.loop_attr
            3%nat with
    | inr (Single (ETupleGetItem (ECall (ELet _ (EFunction _ (EIf t _ _)) _) _) _), _, _) =>
        Some t
    | _ => None
    end in
  let i := EVar (Var 8 "i" (Some []) (Some "int64")) in
  let max_count := EVar (Var 9 "max_count" (Some []) (Some "int64")) in
  let w := EVar (Var 10 "cond_in" (Some []) (Some "int64")) in
  let out_loop := relay_op "less" [] [i; max_count] in
  let out_while := relay_op "equal" [] [w; scalar_const 1 "bool"] in
  test Demo.oracles [Some (EVar Demo.c); Some (EVar Demo.c); Some (EVar Demo.x)]
  = Some (relay_op "logical_and" [] [out_while; out_loop]) ∧
  test Lenient.oracles [Some (EVar Demo.c); None; Some (EVar Demo.x)] = Some out_loop ∧
  test Lenient.oracles [None; Some (EVar Demo.c); Some (EVar Demo.x)] = Some out_while ∧
  @Loop__impl_v11 Lenient.oracles (@from_onnx_outputs Lenient.oracles 1) Demo.scope
    [None; None; Some (EVar Demo.x)] Demo.loop_attr 3%nat
  = inl (AssertionError "").
Proof. split_and!; vm_compute; reflexivity. Qed.

Section control_flow_runs.
#[local] Existing Instance Demo.oracles.



Lemma free_variables_promoted_witness :
  (∃ r gs' n',
     If__impl_v1 (from_onnx_outputs 1) Demo.scope [Some (EVar Demo.c)] Demo.if_attr 3%nat
     = inr (r, gs', n') ∧
     ∃ cond then_expr else_expr k,
       r = (if 1 <? k then TupleWrapper (EIf cond then_expr else_expr) k
            else Single (EIf cond then_expr else_expr)) ∧
       (∀ v, v ∈ free_vars then_expr → name_hint v ∈ odict.keys (_nodes gs')) ∧
       (∀ v, v ∈ free_vars else_expr →
             ∃ v', v' ∈ free_vars else_expr ∧ name_hint v' = name_hint v ∧
                   odict.get (_nodes gs') (name_hint v) = Some (EVar v'))) ∧
  (∃ r gs' n',
     Loop__impl_v11 (from_onnx_outputs 1) Demo.scope
       [Some (EVar Demo.c); Some (EVar Demo.c); Some (EVar Demo.x)] Demo.loop_attr 3%nat
     = inr (r, gs', n') ∧
     ∃ loop args k,
       r = (if k =? 1 then Single (ETupleGetItem (ECall loop args) 3)
            else TupleWrapper
                   (ETuple ((λ i, ETupleGetItem (ECall loop args) (i + 3)) <$> upto 0 k))
                   k) ∧
       (∀ v, v ∈ free_vars loop →
             ∃ v', v' ∈ free_vars loop ∧ name_hint v' = name_hint v ∧
                   odict.get (_nodes gs') (name_hint v) = Some (EVar v'))) ∧
  (∃ f params self' m',
     from_onnx 2 (GraphProto_init [] (DtypeStr "float32") false true)
       (Demo.registered [Demo.loop_node] "v_final") 11 false 0%nat
     = inr (Module f params, self', m') ∧
     ∃ ps outputs,
       f = EFunction ps outputs ∧
       Demo.w ∈ free_vars outputs ∧
       name_of_var (_nodes self') Demo.w = Ok "w" ∧
       "w" ∈ odict.keys params ∧
       ("w" ∉ value_name <$> graph.input (Demo.registered [Demo.loop_node] "v_final")) ∧
       ∃ v', v' ∈ ps ∧ vid v' = vid Demo.w).
Proof.
  split_and!.
  - destruct (If__impl_v1 (from_onnx_outputs 1) Demo.scope [Some (EVar Demo.c)]
                Demo.if_attr 3%nat) as [e|[[r gs'] n']] eqn:E.
    + vm_compute in E. discriminate.
    + exists r, gs', n'. split; [done|].
      exact (proj1 (free_variables_promoted (from_onnx_outputs 1) Demo.scope gs'
                      [Some (EVar Demo.c)] Demo.if_attr r 3%nat n'
                      0%nat [] (DtypeStr "float32") false (MkGraph [] [] [] []) 11
                      ENull [] Demo.scope 0%nat 0%nat) E).
  - destruct (Loop__impl_v11 (from_onnx_outputs 1) Demo.scope
                [Some (EVar Demo.c); Some (EVar Demo.c); Some (EVar Demo.x)]
                Demo.loop_attr 3%nat) as [e|[[r gs'] n']] eqn:E.
    + vm_compute in E. discriminate.
    + exists r, gs', n'. split; [done|].
      exact (proj1 (proj2 (free_variables_promoted (from_onnx_outputs 1) Demo.scope gs'
                      [Some (EVar Demo.c); Some (EVar Demo.c); Some (EVar Demo.x)]
                      Demo.loop_attr r 3%nat n'
                      0%nat [] (DtypeStr "float32") false (MkGraph [] [] [] []) 11
                      ENull [] Demo.scope 0%nat 0%nat)) E).
  - destruct (from_onnx 2 (GraphProto_init [] (DtypeStr "float32") false true)
                (Demo.registered [Demo.loop_node] "v_final") 11 false 0%nat)
      as [e|[[[o|f params] self'] m']] eqn:E.
    + vm_compute in E. discriminate.
    + vm_compute in E. discriminate.
    + exists f, params, self', m'. split; [done|].
      destruct (proj2 (proj2 (free_variables_promoted (from_onnx_outputs 1) Demo.scope
                      Demo.scope [] [] (Single ENull) 0%nat 0%nat
                      2%nat [] (DtypeStr "float32") false
                      (Demo.registered [Demo.loop_node] "v_final") 11
                      f params self' 0%nat m')) E) as (ps & outputs & Hf & Hps).
      pose proof E as E'. vm_compute in E'. injection E' as <- <- <- <-.
      injection Hf as <- <-.
      eexists _, _. split; [reflexivity|].
      assert ("w" ∉ value_name <$> graph.input (Demo.registered [Demo.loop_node] "v_final"))
        as Hnot.
      { vm_compute. intros Hin. apply elem_of_cons in Hin as [?|Hin]; [done|].
        apply list_elem_of_singleton in Hin. done. }
      split_and!; [vm_compute; left|by vm_compute|by left|done|].
      apply (Hps Demo.w "w"); [vm_compute; left|by vm_compute|by left|done].
Defined.

(** C7.  An [If] whose then branch reads the initializer [w] of the
    enclosing graph through a [Clip] without bounds, and whose value is
    the graph's output.  [Clip._impl_v11] returns its only input as it
    is, so the branch binds [t] to the variable of [w], and the
    enclosing table holds that variable under [w] and, further on, under
    [t].  The inverted table of the assembly keeps the last name, [t],
    which is no key of the constant table: [w] is free in the body of
    the assembled function and is not among its parameters, though the
    constant table holds its value.  When the branch reads [w] through an
    [Add] instead, [w] is the third parameter. *)
Theorem captured_alias_not_a_parameter :
  let e := relay_op "add" [] [EVar Demo.x; EVar Demo.x] in
  let body := EIf (EVar Demo.c) (EVar Demo.w) e in
  (∀ convert_attributes numpy_item params,
     Clip__impl_v11 convert_attributes numpy_item [Some (EVar Demo.w)] [] params
     = Ok (Some (EVar Demo.w))) ∧
  (∃ gs',
     If__impl_v1 (from_onnx_outputs 1) Demo.scope [Some (EVar Demo.c)] Demo.alias_attr 3%nat
     = inr (Single body, gs', 3%nat) ∧
     _nodes gs' = [("w", EVar Demo.w); ("c", EVar Demo.c); ("x", EVar Demo.x);
                   ("t", EVar Demo.w); ("e", e)] ∧
     name_of_var (_nodes gs') Demo.w = Ok "t") ∧
  Demo.import (Demo.registered [Demo.alias_node] "y") false
  = Ok (EFunction [Demo.c; Demo.x] body, [("w", Demo.w_value)]) ∧
  free_vars body = [Demo.c; Demo.w; Demo.x] ∧
  (Demo.w ∉ [Demo.c; Demo.x]) ∧
  Demo.import (Demo.registered [Demo.if_node] "y") false
  = Ok (EFunction [Demo.c; Demo.x; Demo.w]
          (EIf (EVar Demo.c) (relay_op "add" [] [EVar Demo.x; EVar Demo.w]) e),
        [("w", Demo.w_value)]).
Proof.
  split_and!.
  - intros. reflexivity.
  - eexists. split_and!; by vm_compute.
  - by vm_compute.
  - by vm_compute.
  - intros Hin. apply elem_of_cons in Hin as [?|Hin]; [done|].
    apply list_elem_of_singleton in Hin. done.
  - by vm_compute.
Qed.

End control_flow_runs.

(** * The converter helpers *)

(** ** Padding *)

(** X1.  With a non-zero stride [get_pad_pair] splits the total padding
    [max(kernel - stride, 0)] (or [max(kernel - input % stride, 0)] when
    the stride does not divide the input) into two non-negative halves
    that differ by at most one; the larger half comes last, or first when
    the mode contains [LOWER]. *)
Theorem get_pad_pair_split (input1d kernel1d stride1d : Z) (mode : string) :
  stride1d ≠ 0 →
  ∃ pad_before pad_after,
    get_pad_pair input1d kernel1d stride1d mode
    = inr (if contains mode "LOWER" then [pad_after; pad_before]
           else [pad_before; pad_after]) ∧
    0 ≤ pad_before ∧ pad_before ≤ pad_after ∧ pad_after ≤ pad_before + 1 ∧
    pad_before + pad_after
    = Z.max (kernel1d - (if input1d mod stride1d =? 0 then stride1d
                         else input1d mod stride1d)) 0.
Proof.
  intros Hs. unfold get_pad_pair.
  destruct (Z.eqb_spec stride1d 0) as [|_]; [done|].
  set (pad := if input1d mod stride1d =? 0 then _ else _).
  assert (pad = Z.max (kernel1d - (if input1d mod stride1d =? 0 then stride1d
                                   else input1d mod stride1d)) 0) as Hpad.
  { unfold pad. by destruct (input1d mod stride1d =? 0). }
  clearbody pad.
  exists (pad / 2), (pad - pad / 2).
  split; [by destruct (contains mode "LOWER")|].
  assert (0 ≤ pad) by lia.
  pose proof (Z.div_mod pad 2 ltac:(lia)).
  pose proof (Z.mod_pos_bound pad 2 ltac:(lia)).
  lia.
Qed.

Lemma get_pad_pair_split_witness :
  ∃ pad_before pad_after,
    get_pad_pair 7 4 2 "SAME_LOWER" = inr [pad_after; pad_before] ∧
    0 ≤ pad_before ∧ pad_before ≤ pad_after ∧ pad_after ≤ pad_before + 1 ∧
    pad_before + pad_after = 3.
Proof.
  destruct (get_pad_pair_split 7 4 2 "SAME_LOWER" ltac:(lia))
    as (pad_before & pad_after & Hp & H0 & H1 & H2 & H3).
  exists pad_before, pad_after. split_and!; [exact Hp|done|done|done|exact H3].
Defined.

(** Whatever the order of the pair, its entries add up to the padding. *)
Lemma get_pad_pair_sum (input1d kernel1d stride1d : Z) (mode : string) (p q : Z) :
  stride1d ≠ 0 →
  get_pad_pair input1d kernel1d stride1d mode = inr [p; q] →
  p + q = Z.max (kernel1d - (if input1d mod stride1d =? 0 then stride1d
                             else input1d mod stride1d)) 0.
Proof.
  intros Hs. unfold get_pad_pair.
  destruct (Z.eqb_spec stride1d 0) as [|_]; [done|].
  destruct (input1d mod stride1d =? 0), (contains mode "LOWER");
    intros [= <- <-]; lia.
Qed.

(** X2.  The padding [get_pad_pair] infers is the one that makes a window
    operation produce [ceil(input / stride)] positions: for a non-negative
    input, a kernel of at least one and a stride of at least one,
    [(input + pad_before + pad_after - kernel) // stride + 1] equals
    [(input + stride - 1) // stride]. *)
Theorem get_pad_pair_same_size (input1d kernel1d stride1d : Z) (mode : string)
    (p q : Z) :
  0 ≤ input1d → 1 ≤ kernel1d → 1 ≤ stride1d →
  get_pad_pair input1d kernel1d stride1d mode = inr [p; q] →
  (input1d + p + q - kernel1d) / stride1d + 1 = (input1d + stride1d - 1) / stride1d.
Proof.
  intros Hi Hk Hs Hget.
  pose proof (get_pad_pair_sum input1d kernel1d stride1d mode p q ltac:(lia) Hget)
    as Hsum.
  replace (input1d + p + q - kernel1d) with (input1d + (p + q) - kernel1d) by lia.
  rewrite Hsum. clear Hget Hsum p q.
  pose proof (Z.div_mod input1d stride1d ltac:(lia)) as Hdm.
  pose proof (Z.mod_pos_bound input1d stride1d ltac:(lia)) as Hr.
  set (r := input1d mod stride1d) in *. set (d := input1d / stride1d) in *.
  destruct (Z.eqb_spec r 0) as [Hr0|Hr0].
  - assert ((input1d + stride1d - 1) / stride1d = d) as ->.
    { symmetry. apply (Z.div_unique _ _ _ (stride1d - 1)); lia. }
    destruct (Z.max_spec (kernel1d - stride1d) 0) as [[? ->]|[? ->]].
    + assert ((input1d + 0 - kernel1d) / stride1d = d - 1) as ->; [|lia].
      symmetry. apply (Z.div_unique _ _ _ (stride1d - kernel1d)); lia.
    + assert ((input1d + (kernel1d - stride1d) - kernel1d) / stride1d = d - 1) as ->; [|lia].
      symmetry. apply (Z.div_unique _ _ _ 0); lia.
  - assert ((input1d + stride1d - 1) / stride1d = d + 1) as ->.
    { symmetry. apply (Z.div_unique _ _ _ (r - 1)); lia. }
    destruct (Z.max_spec (kernel1d - r) 0) as [[? ->]|[? ->]].
    + assert ((input1d + 0 - kernel1d) / stride1d = d) as ->; [|lia].
      symmetry. apply (Z.div_unique _ _ _ (r - kernel1d)); lia.
    + assert ((input1d + (kernel1d - r) - kernel1d) / stride1d = d) as ->; [|lia].
      symmetry. apply (Z.div_unique _ _ _ 0); lia.
Qed.

Lemma get_pad_pair_same_size_witness :
  get_pad_pair 7 4 2 "SAME_UPPER" = inr [1; 2] ∧
  (7 + 1 + 2 - 4) / 2 + 1 = (7 + 2 - 1) / 2.
Proof.
  split; [reflexivity|].
  exact (get_pad_pair_same_size 7 4 2 "SAME_UPPER" 1 2
           ltac:(lia) ltac:(lia) ltac:(lia) eq_refl).
Defined.

(** X3.  [revert_caffe2_pad] accepts exactly the pad lists of length 2 and
    4 and returns their first two entries; everything else is an invalid
    attribute.  Reverting what it returned changes nothing. *)
Theorem revert_caffe2_pad_spec {A} (pads : list A) :
  (∀ r, revert_caffe2_pad pads = inr r ↔
        (length pads = 2%nat ∨ length pads = 4%nat) ∧ r = take 2 pads) ∧
  (length pads ≠ 2%nat → length pads ≠ 4%nat →
   revert_caffe2_pad pads
   = inl (OpAttributeInvalid "Number of pads must be either 2 or 4.")) ∧
  (∀ r, revert_caffe2_pad pads = inr r → revert_caffe2_pad r = inr r).
Proof.
  assert (∀ r, revert_caffe2_pad pads = inr r ↔
               (length pads = 2%nat ∨ length pads = 4%nat) ∧ r = take 2 pads) as Hiff.
  { intros r. unfold revert_caffe2_pad, Py.len.
    destruct (Z.eqb_spec (Z.of_nat (length pads)) 4) as [H4|H4].
    - split.
      + intros [= <-]. split; [right; lia|done].
      + by intros [_ ->].
    - destruct (Z.eqb_spec (Z.of_nat (length pads)) 2) as [H2|H2].
      + assert (take 2 pads = pads) as Htake by (apply take_ge; lia).
        split.
        * intros [= <-]. split; [left; lia|done].
        * intros [_ ->]. by rewrite Htake.
      + split; [done|]. intros [[?|?] _]; lia. }
  split_and!; [exact Hiff| |].
  - intros H2 H4. unfold revert_caffe2_pad, Py.len.
    destruct (Z.eqb_spec (Z.of_nat (length pads)) 4); [lia|].
    destruct (Z.eqb_spec (Z.of_nat (length pads)) 2); [lia|done].
  - intros r Hr. apply Hiff in Hr as [Hlen ->].
    unfold revert_caffe2_pad, Py.len. rewrite length_take.
    destruct (Z.eqb_spec (Z.of_nat (2 `min` length pads)) 4); [lia|].
    destruct (Z.eqb_spec (Z.of_nat (2 `min` length pads)) 2); [done|lia].
Qed.

(** ** Layouts and kernel ranks *)

(** X4.  [onnx_storage_order2layout] returns a layout exactly for a
    storage order of 0 or 1 and 1, 2 or 3 spatial dimensions.  With
    storage order 0 it is [onnx_default_layout], error included; with
    storage order 1 the layout it returns is never the default one. *)
Theorem storage_order_layout (storage_order dims : Z) (op_name : string) :
  ((∃ l, onnx_storage_order2layout storage_order dims op_name = inr l) ↔
   (storage_order = 0 ∨ storage_order = 1) ∧ (dims = 1 ∨ dims = 2 ∨ dims = 3)) ∧
  onnx_storage_order2layout 0 dims op_name = onnx_default_layout dims op_name ∧
  (∀ l, onnx_storage_order2layout 1 dims op_name = inr l →
        onnx_default_layout dims op_name ≠ inr l).
Proof.
  split_and!.
  - unfold onnx_storage_order2layout, layout_unsupported.
    case_bool_decide as Hso; cbn [negb].
    + assert (storage_order = 0 ∨ storage_order = 1) as Hso'.
      { apply elem_of_cons in Hso as [?|Hso]; [by left|].
        apply list_elem_of_singleton in Hso. by right. }
      destruct (Z.eqb_spec dims 1); [split; [intros _; lia|by eexists]|].
      destruct (Z.eqb_spec dims 2); [split; [intros _; lia|by eexists]|].
      destruct (Z.eqb_spec dims 3); [split; [intros _; lia|by eexists]|].
      split; [by intros [? ?]|]. lia.
    + split; [by intros [? ?]|]. intros [[->| ->] _]; exfalso; apply Hso.
      * left.
      * right. left.
  - unfold onnx_storage_order2layout, onnx_default_layout.
    rewrite bool_decide_eq_true_2 by left. cbn [negb].
    destruct (dims =? 1); [done|]. destruct (dims =? 2); [done|].
    by destruct (dims =? 3).
  - intros l. unfold onnx_storage_order2layout, onnx_default_layout, layout_unsupported.
    rewrite bool_decide_eq_true_2 by (right; left). cbn [negb].
    destruct (dims =? 1); [by intros [= <-]|].
    destruct (dims =? 2); [by intros [= <-]|].
    destruct (dims =? 3); [by intros [= <-]|done].
Qed.

(** X5.  [dimension_picker] returns an operator name exactly on the
    attributes that the check of [dimension_constraint] accepts, and the
    name is the prefix, then [1d], [2d] or [3d] by the length of
    [kernel_shape], then the suffix.  Where the check answers false it
    raises the invalid-attribute error, and where the check itself raises
    (no [kernel_shape], or one without a length) it raises the same. *)
Theorem dimension_picker_checked (prefix suffix : string) (attr : odict.t attr_value) :
  (∀ name, dimension_picker prefix suffix attr = inr name →
           dimension_constraint.1 attr = Ok true) ∧
  (dimension_constraint.1 attr = Ok true →
   ∃ n d, kernel_rank attr = Ok n ∧ (n, d) ∈ [(1, "1d"); (2, "2d"); (3, "3d")] ∧
          dimension_picker prefix suffix attr = inr (prefix +:+ d +:+ suffix)) ∧
  (dimension_constraint.1 attr = Ok false →
   dimension_picker prefix suffix attr
   = inl (OpAttributeInvalid
            ("Only 1D, 2D, and 3D kernels are supported for operator "
             +:+ (prefix +:+ "1d/2d/3d") +:+ "."))) ∧
  (∀ e, dimension_constraint.1 attr = Raise e →
        dimension_picker prefix suffix attr = inl (PyExn e)).
Proof.
  cbn [dimension_constraint fst]. unfold _dim_check, dimension_picker.
  destruct (kernel_rank attr) as [e|n]; cbn.
  { split_and!; try done. by intros e' [= ->]. }
  destruct (Z.eqb_spec n 1) as [->|H1].
  { split_and!; try done. intros _. exists 1, "1d". split_and!; [done|left|done]. }
  destruct (Z.eqb_spec n 2) as [->|H2].
  { split_and!; try done. intros _. exists 2, "2d". split_and!; [done|right; left|done]. }
  destruct (Z.eqb_spec n 3) as [->|H3].
  { split_and!; try done. intros _. exists 3, "3d".
    split_and!; [done|right; right; left|done]. }
  assert (bool_decide (n ∈ [1; 2; 3]) = false) as Hn.
  { apply bool_decide_eq_false. intros Hin.
    apply elem_of_cons in Hin as [?|Hin]; [done|].
    apply elem_of_cons in Hin as [?|Hin]; [done|].
    apply list_elem_of_singleton in Hin. done. }
  unfold Ok. rewrite Hn. split_and!; done.
Qed.

Lemma revert_caffe2_pad_spec_witness :
  revert_caffe2_pad [1; 2; 3; 4] = inr [1; 2] ∧
  revert_caffe2_pad [1; 2; 3]
  = inl (OpAttributeInvalid "Number of pads must be either 2 or 4.") ∧
  revert_caffe2_pad [1; 2] = inr [1; 2].
Proof.
  split_and!.
  - apply (proj1 (revert_caffe2_pad_spec [1; 2; 3; 4])). split; [by right|done].
  - apply (proj1 (proj2 (revert_caffe2_pad_spec [1; 2; 3]))); cbn; lia.
  - apply (proj2 (proj2 (revert_caffe2_pad_spec [1; 2; 3; 4]))).
    apply (proj1 (revert_caffe2_pad_spec [1; 2; 3; 4])). split; [by right|done].
Defined.

Lemma storage_order_layout_witness :
  (∃ l, onnx_storage_order2layout 1 2 "MaxPool" = inr l) ∧
  onnx_default_layout 2 "MaxPool" ≠ inr "NHWC".
Proof.
  split.
  - apply (proj1 (storage_order_layout 1 2 "MaxPool")). split; [by right|right; by left].
  - apply (proj2 (proj2 (storage_order_layout 1 2 "MaxPool"))). reflexivity.
Defined.

Lemma dimension_picker_checked_witness :
  let attr := [("kernel_shape", AInts [3; 3])] in
  ∃ n d, kernel_rank attr = Ok n ∧ (n, d) ∈ [(1, "1d"); (2, "2d"); (3, "3d")] ∧
         dimension_picker "conv" "_transpose" attr
         = inr ("conv" +:+ d +:+ "_transpose").
Proof.
  intros attr.
  apply (proj1 (proj2 (dimension_picker_checked "conv" "_transpose" attr))).
  reflexivity.
Defined.

(** ** [Slice._common] and [Unsqueeze.run_calculation] *)

Lemma result_bind_Ok {A B} (x : A) (f : A → result B) : Ok x ≫= f = f x.
Proof. done. Qed.

Lemma list_setitem_in_range {A} (l : list A) (i : Z) (x : A) :
  0 ≤ i < Py.len l → list_setitem l i x = Ok (<[Z.to_nat i := x]> l).
Proof.
  intros Hi. unfold list_setitem.
  destruct (Z.ltb_spec i 0); [lia|].
  destruct (Z.ltb_spec i 0); [lia|].
  destruct (Z.leb_spec (Py.len l) i); [lia|done].
Qed.

(** The assignment loop of [Slice._common], from any pair of lists of the
    right length: the positions named by the axes receive the starts and
    ends, the others keep what they held. *)
Lemma Slice_common_loop (starts ends s0 e0 : list Z) (N : nat) (axes : list Z) :
  length s0 = N → length e0 = N →
  (∀ a, a ∈ axes → 0 ≤ a < Z.of_nat N) → NoDup axes →
  (length axes ≤ length starts)%nat → (length axes ≤ length ends)%nat →
  ∃ s e,
    foldl (λ acc p,
             '(new_starts, new_ends) ← acc;
             s ← Py.index starts p.1;
             new_starts ← list_setitem new_starts p.2 s;
             e ← Py.index ends p.1;
             new_ends ← list_setitem new_ends p.2 e;
             Ok (new_starts, new_ends))
          (Ok (s0, e0)) (Py.enumerate axes) = Ok (s, e) ∧
    length s = N ∧ length e = N ∧
    (∀ i axis, axes !! i = Some axis →
               s !! Z.to_nat axis = starts !! i ∧ e !! Z.to_nat axis = ends !! i) ∧
    (∀ j, Z.of_nat j ∉ axes → s !! j = s0 !! j ∧ e !! j = e0 !! j).
Proof.
  intros Hs0 He0. induction axes as [|x axes IH] using rev_ind;
    intros Hrange Hnd Hls Hle.
  { exists s0, e0. split_and!; [done|done|done| |done]. intros i axis Hi. done. }
  rewrite length_app in Hls, Hle. cbn in Hls, Hle.
  apply NoDup_app in Hnd as (Hnd & Hfresh & _).
  destruct IH as (s & e & Hloop & Hs & He & Hset & Hkeep);
    [intros a Ha; apply Hrange, elem_of_app; by left|done|lia|lia|].
  assert (0 ≤ x < Z.of_nat N) as Hx
    by (apply Hrange, elem_of_app; right; apply list_elem_of_singleton; done).
  assert (x ∉ axes) as Hxfresh.
  { intros Hin. apply (Hfresh x Hin), list_elem_of_singleton. done. }
  destruct (lookup_lt_is_Some_2 starts (length axes) ltac:(lia)) as [st Hst].
  destruct (lookup_lt_is_Some_2 ends (length axes) ltac:(lia)) as [en Hen].
  exists (<[Z.to_nat x := st]> s), (<[Z.to_nat x := en]> e).
  split_and!.
  - rewrite enumerate_snoc, foldl_app, Hloop. cbn.
    change (Py.len axes) with (Z.of_nat (length axes)).
    rewrite (index_nat _ _ _ Hst). cbn.
    rewrite list_setitem_in_range by (unfold Py.len; lia). cbn.
    rewrite (index_nat _ _ _ Hen). cbn.
    rewrite list_setitem_in_range by (unfold Py.len; lia). done.
  - by rewrite length_insert.
  - by rewrite length_insert.
  - intros i axis Hi. apply lookup_app_Some in Hi as [Hi|[Hlen Hi]].
    + destruct (Hset i axis Hi) as [Hsi Hei].
      assert (axis ∈ axes) as Hin by (by eapply list_elem_of_lookup_2).
      assert (0 ≤ axis) by (apply Hrange, elem_of_app; by left).
      assert (Z.to_nat x ≠ Z.to_nat axis) by (intros ?; apply Hxfresh;
        replace x with axis by lia; done).
      by rewrite !list_lookup_insert_ne.
    + destruct (i - length axes)%nat as [|k] eqn:Hk; [|done].
      injection Hi as <-. replace i with (length axes) by lia.
      rewrite !list_lookup_insert_eq by lia. done.
  - intros j Hj.
    assert (Z.of_nat j ∉ axes) as Hj1 by (intros ?; apply Hj, elem_of_app; by left).
    assert (Z.to_nat x ≠ j).
    { intros <-. apply Hj, elem_of_app. right. apply list_elem_of_singleton. lia. }
    destruct (Hkeep j Hj1) as [Hsj Hej].
    by rewrite !list_lookup_insert_ne.
Qed.

(** X6.  For distinct non-negative axes, each with its start and end,
    [Slice._common] returns the axes [0 .. max(axes)] with start 0 and
    end [INT32_MAX] everywhere, except that position [axes[i]] holds
    [starts[i]] and [ends[i]]. *)
Theorem Slice_common_spec (starts ends axes : list Z) :
  axes ≠ [] → (∀ a, a ∈ axes → 0 ≤ a) → NoDup axes →
  length starts = length axes → length ends = length axes →
  ∃ m new_starts new_ends,
    Py.max axes = Ok m ∧ m ∈ axes ∧ (∀ a, a ∈ axes → a ≤ m) ∧
    Slice__common starts ends axes
    = Ok (new_starts, new_ends, Z.of_nat <$> seq 0 (Z.to_nat (m + 1))) ∧
    Py.len new_starts = m + 1 ∧ Py.len new_ends = m + 1 ∧
    (∀ i axis, axes !! i = Some axis →
               new_starts !! Z.to_nat axis = starts !! i ∧
               new_ends !! Z.to_nat axis = ends !! i) ∧
    (∀ j, 0 ≤ j ≤ m → j ∉ axes →
          new_starts !! Z.to_nat j = Some 0 ∧
          new_ends !! Z.to_nat j = Some int32_max).
Proof.
  intros Hne Hpos Hnd Hls Hle.
  destruct axes as [|x l]; [done|].
  destruct (max_spec x l) as (m & Hmax & Hm & Hub).
  assert (0 ≤ m) as Hm0 by (by apply Hpos).
  destruct (Slice_common_loop starts ends
              (replicate (Z.to_nat (m + 1)) 0) (replicate (Z.to_nat (m + 1)) int32_max)
              (Z.to_nat (m + 1)) (x :: l))
    as (s & e & Hloop & Hs & He & Hset & Hkeep).
  { by rewrite length_replicate. }
  { by rewrite length_replicate. }
  { intros a Ha. specialize (Hpos a Ha). specialize (Hub a Ha). lia. }
  { done. }
  { lia. }
  { lia. }
  exists m, s, e. split_and!; [done|done|done| | | |done|].
  - unfold Slice__common. rewrite Hmax, result_bind_Ok, Hloop, result_bind_Ok.
    unfold Ok. do 2 f_equal.
    unfold Py.range, Py.range_length. cbn.
    destruct (Z.ltb_spec 0 (m + 1)); [|lia].
    rewrite Z.div_1_r. replace (m + 1 - 0 - 1 + 1) with (m + 1) by lia.
    apply list_fmap_ext. intros i k _. lia.
  - unfold Py.len. lia.
  - unfold Py.len. lia.
  - intros j Hj Hfresh.
    destruct (Hkeep (Z.to_nat j)) as [Hsj Hej].
    { by replace (Z.of_nat (Z.to_nat j)) with j by lia. }
    rewrite Hsj, Hej, !lookup_replicate_2 by lia. done.
Qed.

Lemma Slice_common_spec_witness :
  ∃ m new_starts new_ends,
    Py.max [2; 0] = Ok m ∧ m ∈ [2; 0] ∧ (∀ a, a ∈ [2; 0] → a ≤ m) ∧
    Slice__common [5; 1] [9; 4] [2; 0]
    = Ok (new_starts, new_ends, Z.of_nat <$> seq 0 (Z.to_nat (m + 1))) ∧
    Py.len new_starts = m + 1 ∧ Py.len new_ends = m + 1 ∧
    (∀ i axis, [2; 0] !! i = Some axis →
               new_starts !! Z.to_nat axis = [5; 1] !! i ∧
               new_ends !! Z.to_nat axis = [9; 4] !! i) ∧
    (∀ j, 0 ≤ j ≤ m → j ∉ [2; 0] →
          new_starts !! Z.to_nat j = Some 0 ∧
          new_ends !! Z.to_nat j = Some int32_max).
Proof.
  apply (Slice_common_spec [5; 1] [9; 4] [2; 0]).
  - done.
  - intros a Ha. apply elem_of_cons in Ha as [->|Ha]; [lia|].
    apply list_elem_of_singleton in Ha as ->. lia.
  - apply NoDup_cons. split.
    + intros Hin. apply list_elem_of_singleton in Hin. discriminate.
    + apply NoDup_singleton.
  - reflexivity.
  - reflexivity.
Defined.

Lemma index_Ok_lt {A} (l : list A) (k : nat) (x : A) :
  Py.index l (Z.of_nat k) = Ok x → (k < length l)%nat.
Proof.
  unfold Py.index, Py.len. destruct (Z.ltb_spec (Z.of_nat k) 0); [lia|].
  destruct (Z.ltb_spec (Z.of_nat k) 0); [lia|].
  destruct (Z.leb_spec (Z.of_nat (length l)) (Z.of_nat k)); [done|]. lia.
Qed.

Lemma list_setitem_Ok {A} (l l' : list A) (i : Z) (x : A) :
  list_setitem l i x = Ok l' →
  length l' = length l ∧ - Py.len l ≤ i < Py.len l.
Proof.
  unfold list_setitem.
  destruct (Z.ltb_spec i 0);
    destruct (Z.ltb_spec (i + Py.len l) 0); destruct (Z.ltb_spec i 0); try lia;
    cbn; try discriminate.
  all: destruct (Z.leb_spec (Py.len l) (i + Py.len l));
    destruct (Z.leb_spec (Py.len l) i); try lia; cbn; try discriminate.
  all: intros [= <-]; rewrite length_insert; lia.
Qed.

(** What a successful run of the assignment loop says of its input. *)
Lemma Slice_common_loop_Ok (starts ends : list Z) (axes : list Z)
    (acc : result (list Z * list Z)) (s e : list Z) :
  foldl (λ acc p,
           '(new_starts, new_ends) ← acc;
           s ← Py.index starts p.1;
           new_starts ← list_setitem new_starts p.2 s;
           e ← Py.index ends p.1;
           new_ends ← list_setitem new_ends p.2 e;
           Ok (new_starts, new_ends))
        acc (Py.enumerate axes) = Ok (s, e) →
  ∃ s0 e0,
    acc = Ok (s0, e0) ∧ length s = length s0 ∧ length e = length e0 ∧
    (length axes ≤ length starts)%nat ∧ (length axes ≤ length ends)%nat ∧
    ∀ a, a ∈ axes → - Py.len s0 ≤ a < Py.len s0.
Proof.
  revert s e. induction axes as [|x axes IH] using rev_ind; intros s e Hloop.
  { exists s, e. cbn in Hloop. split_and!; try done; try (cbn; lia).
    intros a Ha. by apply elem_of_nil in Ha. }
  rewrite enumerate_snoc, foldl_app in Hloop. cbn in Hloop.
  inv_res Hloop as [s1 e1] Hprev. destruct (IH _ _ Hprev)
    as (s0 & e0 & -> & Hs & He & Hls & Hle & Hax).
  inv_res Hloop as st Hst. inv_res Hloop as s' Hs'.
  inv_res Hloop as en Hen. inv_res Hloop as e' He'. injection Hloop as <- <-.
  apply index_Ok_lt in Hst, Hen.
  apply list_setitem_Ok in Hs' as [Hs' Hx], He' as [He' _].
  exists s0, e0. rewrite length_app. cbn.
  split_and!; [done|lia|lia|lia|lia|].
  intros a Ha. apply elem_of_app in Ha as [Ha|Ha]; [by apply Hax|].
  apply list_elem_of_singleton in Ha as ->. unfold Py.len in *. lia.
Qed.

(** X7.  [Slice._common] raises ValueError when there are no axes, and
    whenever it returns, every axis had a start and an end, every axis
    lay within [-N, N) for [N = max(axes) + 1], and the three lists it
    returns have that length [N]. *)
Theorem Slice_common_Ok_inv (starts ends axes new_starts new_ends new_axes : list Z) :
  Slice__common starts ends []
  = Raise (ValueError "max() arg is an empty sequence") ∧
  (Slice__common starts ends axes = Ok (new_starts, new_ends, new_axes) →
   ∃ m, Py.max axes = Ok m ∧ 0 ≤ m ∧
        (length axes ≤ length starts)%nat ∧ (length axes ≤ length ends)%nat ∧
        (∀ a, a ∈ axes → - (m + 1) ≤ a ≤ m) ∧
        Py.len new_starts = m + 1 ∧ Py.len new_ends = m + 1 ∧
        Py.len new_axes = m + 1).
Proof.
  split; [done|].
  unfold Slice__common. intros Hrun.
  inv_res Hrun as m Hm. inv_res Hrun as [s e] Hloop. injection Hrun as <- <- <-.
  apply Slice_common_loop_Ok in Hloop
    as (s0 & e0 & [= <- <-] & Hs & He & Hls & Hle & Hax).
  destruct axes as [|x l]; [done|].
  destruct (max_spec x l) as (m' & Hmax & Hin & Hub).
  rewrite Hm in Hmax. injection Hmax as <-.
  pose proof (Hax m Hin) as Hm0. unfold Py.len in Hm0, Hax.
  rewrite length_replicate in Hm0, Hax, Hs, He.
  exists m. split_and!; [done|lia|done|done| | | |].
  - intros a Ha. specialize (Hax a Ha). specialize (Hub a Ha). lia.
  - unfold Py.len. lia.
  - unfold Py.len. lia.
  - unfold Py.len, Py.range, Py.range_length. rewrite length_fmap, length_seq.
    change (0 <? 1) with true. cbn match.
    destruct (Z.ltb_spec 0 (m + 1)); [|lia].
    rewrite Z.div_1_r. lia.
Qed.

Lemma Slice_common_Ok_inv_witness :
  Slice__common [5; 1] [9; 4] []
  = Raise (ValueError "max() arg is an empty sequence") ∧
  ∃ m, Py.max [2; -3] = Ok m ∧ 0 ≤ m ∧
       (length [2; -3]%Z ≤ length [5; 1]%Z)%nat ∧
       (length [2; -3]%Z ≤ length [9; 4]%Z)%nat ∧
       (∀ a, a ∈ [2; -3] → - (m + 1) ≤ a ≤ m) ∧
       Py.len [1; 0; 5] = m + 1 ∧ Py.len [4; int32_max; 9] = m + 1 ∧
       Py.len [0; 1; 2] = m + 1.
Proof.
  split; [reflexivity|].
  exact (proj2 (Slice_common_Ok_inv [5; 1] [9; 4] [2; -3]
                  [1; 0; 5] [4; int32_max; 9] [0; 1; 2]) eq_refl).
Defined.

(** X8.  [Unsqueeze.run_calculation] sorts the axes first, so the order in
    which the axes are listed does not matter: two lists with the same
    axes give the same expression, which nests one [expand_dims] per
    axis. *)
Theorem Unsqueeze_order_insensitive (tensor : expr) (axes axes' : list Z) :
  axes ≡ₚ axes' →
  Unsqueeze_run_calculation tensor axes = Unsqueeze_run_calculation tensor axes' ∧
  ∃ sorted_axes,
    sorted_axes ≡ₚ axes ∧ Sorted Z.le sorted_axes ∧
    Unsqueeze_run_calculation tensor axes
    = foldl (λ t axis, relay_op "expand_dims" [axis; 1] [t]) tensor sorted_axes.
Proof.
  intros Hperm. unfold Unsqueeze_run_calculation, Py.sorted. split.
  - f_equal. apply (Sorted_unique Z.le).
    + apply Sorted_merge_sort; apply _.
    + apply Sorted_merge_sort; apply _.
    + by rewrite !merge_sort_Permutation.
  - exists (merge_sort Z.le axes). split_and!.
    + apply merge_sort_Permutation.
    + apply Sorted_merge_sort; apply _.
    + done.
Qed.

Lemma Unsqueeze_order_insensitive_witness :
  Unsqueeze_run_calculation ENull [2; 0] = Unsqueeze_run_calculation ENull [0; 2] ∧
  ∃ sorted_axes,
    sorted_axes ≡ₚ [2; 0] ∧ Sorted Z.le sorted_axes ∧
    Unsqueeze_run_calculation ENull [2; 0]
    = foldl (λ t axis, relay_op "expand_dims" [axis; 1] [t]) ENull sorted_axes.
Proof.
  apply (Unsqueeze_order_insensitive ENull [2; 0] [0; 2]).
  apply Permutation_swap.
Defined.

(** * Attributes, value infos and converter versions *)

(** ** [_parse_attr] *)

Lemma last_app_from_option {A} (x : option A) (l1 l2 : list A) :
  from_option Some (from_option Some x (last l1)) (last l2)
  = from_option Some x (last (l1 ++ l2)).
Proof. rewrite last_app. by destruct (last l2), (last l1). Qed.

Lemma set_if_spec (d : odict.t attr_value) (k : string) (o : option attr_value) :
  odict.get (set_if d k o) k = from_option Some (odict.get d k) (last (option_list o)) ∧
  (∀ k', k ≠ k' → odict.get (set_if d k o) k' = odict.get d k') ∧
  (NoDup (odict.keys d) → NoDup (odict.keys (set_if d k o))).
Proof.
  destruct o as [v|]; cbn; [|done].
  split_and!; [apply get_set_eq|intros; by apply get_set_ne|apply NoDup_keys_set].
Qed.

Lemma set_repeated_spec {X} (d d' : odict.t attr_value) (k : string) (xs : list X)
    (wrap : list X → attr_value) :
  set_repeated d k xs wrap = Ok d' →
  odict.get d' k = from_option Some (odict.get d k) (last (repeated wrap xs)) ∧
  (∀ k', k ≠ k' → odict.get d' k' = odict.get d k') ∧
  (NoDup (odict.keys d) → NoDup (odict.keys d')).
Proof.
  destruct xs as [|x xs]; cbn.
  - by intros [= <-].
  - intros Hset. inv_res Hset as u Hu. injection Hset as <-.
    split_and!; [apply get_set_eq|intros; by apply get_set_ne|apply NoDup_keys_set].
Qed.

(** One attribute: what it leaves under its own name is the last value
    it carries, or what was there when it carries none. *)
Lemma parse_one_attr_Ok (attrs attrs' : odict.t attr_value) (a : AttributePb) :
  parse_one_attr attrs a = Ok attrs' →
  attribute.graphs a = [] ∧
  (NoDup (odict.keys attrs) → NoDup (odict.keys attrs')) ∧
  odict.get attrs' (attribute.name a)
  = from_option Some (odict.get attrs (attribute.name a)) (last (attribute.fields a)) ∧
  is_Some (odict.get attrs' (attribute.name a)) ∧
  (∀ k, attribute.name a ≠ k → odict.get attrs' k = odict.get attrs k).
Proof.
  destruct a as [name f i s g floats ints strings t tensors graphs].
  cbn [parse_one_attr attribute.graphs attribute.name attribute.fields].
  intros Hp.
  destruct (set_if_spec attrs name (AFloat <$> f)) as (G1 & O1 & N1).
  set (d1 := set_if attrs name (AFloat <$> f)) in *.
  destruct (set_if_spec d1 name (AInt <$> i)) as (G2 & O2 & N2).
  set (d2 := set_if d1 name (AInt <$> i)) in *.
  destruct (set_if_spec d2 name (AStr <$> s)) as (G3 & O3 & N3).
  set (d3 := set_if d2 name (AStr <$> s)) in *.
  destruct (set_if_spec d3 name (AGraph <$> g)) as (G4 & O4 & N4).
  set (d4 := set_if d3 name (AGraph <$> g)) in *.
  inv_res Hp as d5 H5. apply set_repeated_spec in H5 as (G5 & O5 & N5).
  inv_res Hp as d6 H6. apply set_repeated_spec in H6 as (G6 & O6 & N6).
  inv_res Hp as d7 H7. apply set_repeated_spec in H7 as (G7 & O7 & N7).
  destruct (set_if_spec d7 name (ATensor <$> t)) as (G8 & O8 & N8).
  set (d8 := set_if d7 name (ATensor <$> t)) in *.
  inv_res Hp as d9 H9. apply set_repeated_spec in H9 as (G9 & O9 & N9).
  destruct graphs as [|? ?]; [|discriminate].
  destruct (odict.mem d9 name) eqn:Hmem; [|discriminate]. injection Hp as <-.
  split_and!.
  - done.
  - tauto.
  - rewrite G9, G8, G7, G6, G5, G4, G3, G2, G1.
    by rewrite !last_app_from_option.
  - apply get_is_Some. by apply mem_true.
  - intros k Hk.
    by rewrite O9, O8, O7, O6, O5, O4, O3, O2, O1.
Qed.

Lemma _parse_attr_snoc (l : list AttributePb) (a : AttributePb) :
  _parse_attr (l ++ [a]) = (attrs ← _parse_attr l; parse_one_attr attrs a).
Proof. unfold _parse_attr. by rewrite foldl_app. Qed.

(** X9.  When [_parse_attr] returns, no attribute used the [graphs] field,
    the table's keys are distinct and are exactly the attribute names,
    and each name holds the last value carried by the attributes of that
    name, in the order in which the fields are read ([f], [i], [s], [g],
    [floats], [ints], [strings], [t], [tensors]). *)
Theorem _parse_attr_values (attr_proto : list AttributePb) (attrs : odict.t attr_value) :
  _parse_attr attr_proto = Ok attrs →
  NoDup (odict.keys attrs) ∧
  (∀ a, a ∈ attr_proto → attribute.graphs a = []) ∧
  (∀ k, k ∈ odict.keys attrs ↔ k ∈ attribute.name <$> attr_proto) ∧
  (∀ k, odict.get attrs k
        = last (filter (λ a, attribute.name a = k) attr_proto ≫= attribute.fields)).
Proof.
  revert attrs. induction attr_proto as [|a l IH] using rev_ind; intros attrs Hp.
  { injection Hp as <-. split_and!; [apply NoDup_nil_2| | |done].
    - intros a Ha. by apply elem_of_nil in Ha.
    - intros k. cbn. by rewrite !elem_of_nil. }
  rewrite _parse_attr_snoc in Hp. inv_res Hp as attrs0 Hl.
  destruct (IH _ Hl) as (Hnd & Hgr & Hkeys & Hget).
  apply parse_one_attr_Ok in Hp as (Hg & Hnd' & Hown & Hsome & Hother).
  assert (∀ k, odict.get attrs k
               = last (filter (λ a, attribute.name a = k) (l ++ [a]) ≫= attribute.fields))
    as Hget'.
  { intros k. rewrite filter_app, bind_app, last_app.
    destruct (decide (attribute.name a = k)) as [<-|Hne].
    - rewrite Hown, Hget. rewrite filter_cons_True by done.
      rewrite filter_nil. cbn. rewrite app_nil_r.
      by destruct (last (attribute.fields a)).
    - rewrite (Hother k Hne), Hget. rewrite filter_cons_False by done.
      by rewrite filter_nil. }
  split_and!; [tauto| | |exact Hget'].
  - intros a' Ha'. apply elem_of_app in Ha' as [Ha'|Ha']; [by apply Hgr|].
    by apply list_elem_of_singleton in Ha' as ->.
  - intros k. rewrite fmap_app, elem_of_app, <- Hkeys, <- !get_is_Some. cbn.
    rewrite list_elem_of_singleton.
    destruct (decide (attribute.name a = k)) as [<-|Hne].
    + split; [by right|done].
    + rewrite (Hother k Hne). split; [by left|]. by intros [?|?].
Qed.

Lemma _parse_attr_values_witness :
  let a1 := MkAttribute "axis" None (Some 1) None None [] [] [] None [] [] in
  let a2 := MkAttribute "pads" None None None None [] [0; 1] [] None [] [] in
  let a3 := MkAttribute "axis" (Some 2) None None None [] [] [] None [] [] in
  let attrs := [("axis", AFloat 2); ("pads", AInts [0; 1])] in
  _parse_attr [a1; a2; a3] = Ok attrs ∧
  NoDup (odict.keys attrs) ∧
  (∀ a, a ∈ [a1; a2; a3] → attribute.graphs a = []) ∧
  (∀ k, k ∈ odict.keys attrs ↔ k ∈ attribute.name <$> [a1; a2; a3]) ∧
  (∀ k, odict.get attrs k
        = last (filter (λ a, attribute.name a = k) [a1; a2; a3] ≫= attribute.fields)).
Proof.
  intros a1 a2 a3 attrs. split; [reflexivity|].
  exact (_parse_attr_values [a1; a2; a3] attrs eq_refl).
Defined.

(** The keys of the parsed table are the attribute names. *)
Lemma _parse_attr_keys (attr_proto : list AttributePb) (attrs : odict.t attr_value) :
  _parse_attr attr_proto = Ok attrs →
  ∀ k, k ∈ odict.keys attrs ↔ k ∈ attribute.name <$> attr_proto.
Proof.
  revert attrs. induction attr_proto as [|a l IH] using rev_ind; intros attrs Hp k.
  { injection Hp as <-. cbn. by rewrite !elem_of_nil. }
  rewrite _parse_attr_snoc in Hp. inv_res Hp as attrs0 Hl.
  apply parse_one_attr_Ok in Hp as (_ & _ & _ & Hsome & Hother).
  rewrite fmap_app, elem_of_app, <- (IH _ Hl), <- !get_is_Some. cbn.
  rewrite list_elem_of_singleton.
  destruct (decide (attribute.name a = k)) as [<-|Hne].
  - split; [by right|done].
  - rewrite (Hother k Hne). split; [by left|]. by intros [?|?].
Qed.

(** X10.  [_parse_attr] fails on what the code rejects: an attribute with
    a non-empty [graphs] field, an attribute that carries no value under
    a name not seen before, and a non-empty repeated field under a name
    that already has a value. *)
Theorem _parse_attr_rejects (attr_proto : list AttributePb) (attrs : odict.t attr_value)
    (a : AttributePb) :
  _parse_attr attr_proto = Ok attrs →
  (attribute.graphs a ≠ [] → ∀ attrs', _parse_attr (attr_proto ++ [a]) ≠ Ok attrs') ∧
  (attribute.fields a = [] → attribute.graphs a = [] →
   attribute.name a ∉ attribute.name <$> attr_proto →
   _parse_attr (attr_proto ++ [a]) = Raise (ValueError "Cannot parse attribute")) ∧
  (∀ name ints,
     a = MkAttribute name None None None None [] ints [] None [] [] →
     ints ≠ [] → name ∈ attribute.name <$> attr_proto →
     _parse_attr (attr_proto ++ [a])
     = Raise (AssertionError "Only one type of attr is allowed")).
Proof.
  intros Hp. rewrite _parse_attr_snoc, Hp, result_bind_Ok.
  pose proof (_parse_attr_keys _ _ Hp) as Hkeys.
  split_and!.
  - intros Hg attrs' Hone. apply parse_one_attr_Ok in Hone as (Hg' & _). done.
  - intros Hf Hg Hfresh.
    destruct a as [name f i s g floats ints strings t tensors graphs].
    cbn in Hf, Hg, Hfresh. subst graphs.
    destruct f, i, s, g, floats, ints, strings, t, tensors; try discriminate.
    cbn. rewrite <- Hkeys in Hfresh. apply mem_false in Hfresh. by rewrite Hfresh.
  - intros name ints -> Hints Hin. cbn in *.
    destruct ints as [|x xs]; [done|]. cbn.
    rewrite <- Hkeys in Hin. apply mem_true in Hin. by rewrite Hin.
Qed.

Lemma _parse_attr_rejects_witness :
  let a1 := MkAttribute "axis" None (Some 1) None None [] [] [] None [] [] in
  (∀ attrs', _parse_attr ([a1] ++ [MkAttribute "body" None None None None [] [] [] None []
                                     [MkGraph [] [] [] []]]) ≠ Ok attrs') ∧
  _parse_attr ([a1] ++ [MkAttribute "mode" None None None None [] [] [] None [] []])
  = Raise (ValueError "Cannot parse attribute") ∧
  _parse_attr ([a1] ++ [MkAttribute "axis" None None None None [] [2] [] None [] []])
  = Raise (AssertionError "Only one type of attr is allowed").
Proof.
  intros a1. split_and!.
  - apply (_parse_attr_rejects [a1] [("axis", AInt 1)]
             (MkAttribute "body" None None None None [] [] [] None [] [MkGraph [] [] [] []])
             eq_refl). done.
  - apply (_parse_attr_rejects [a1] [("axis", AInt 1)]
             (MkAttribute "mode" None None None None [] [] [] None [] []) eq_refl);
      [done|done|]. cbn. intros Hin. apply list_elem_of_singleton in Hin. discriminate.
  - apply (proj2 (proj2 (_parse_attr_rejects [a1] [("axis", AInt 1)]
             (MkAttribute "axis" None None None None [] [2] [] None [] []) eq_refl))
             "axis" [2]); [done|done|]. cbn. by left.
Defined.

(** * Converter versions and declared outputs *)

(** X11.  Where some registered version does not exceed the requested
    opset, [get_converter] returns a registered implementation, the one of
    the largest version that does not exceed the opset; asking for a
    registered version returns that very version. *)
Theorem get_converter_resolves {Impl : Type} (cls : OnnxOpConverter Impl)
    (opset v0 : Z) :
  v0 ∈ (impls cls).*1 → v0 ≤ opset →
  ∃ v f, get_converter cls opset = Ok (v, f) ∧ (v, f) ∈ impls cls ∧ v ≤ opset ∧
         (∀ v', v' ∈ (impls cls).*1 → v' ≤ opset → v' ≤ v) ∧
         (opset ∈ (impls cls).*1 → v = opset).
Proof.
  intros Hv0 Hle.
  destruct (get_converter_largest_le cls opset v0 Hv0 Hle) as (v & f & Hget & Hin & Hv & Hmax).
  exists v, f. split_and!; [done|done|done|done|].
  intros Hopset. specialize (Hmax opset Hopset ltac:(lia)). lia.
Qed.

Lemma get_converter_resolves_witness :
  ∃ v f, get_converter Loop 13 = Ok (v, f) ∧ (v, f) ∈ impls Loop ∧ v ≤ 13 ∧
         (∀ v', v' ∈ (impls Loop).*1 → v' ≤ 13 → v' ≤ v) ∧
         (13 ∈ (impls Loop).*1 → v = 13).
Proof.
  apply (get_converter_resolves Loop 13 11); [|lia].
  cbn. apply list_elem_of_singleton. reflexivity.
Defined.

Section declared_outputs.
Context `{Oracles}.

Lemma all_declared (names : list string) :
  (∀ name, name ∈ names → name ≠ "") →
  forallb id (declared_at names <$> seq 0 (length names)) = true.
Proof.
  intros Hnames. apply forallb_forall. intros b Hb.
  apply list_elem_of_In, list_elem_of_fmap in Hb as (i & -> & Hi).
  apply elem_of_seq in Hi. unfold id. apply declared_at_true.
  destruct (lookup_lt_is_Some_2 names i ltac:(lia)) as [name Hname].
  exists name. split; [done|]. apply Hnames. by eapply list_elem_of_lookup_2.
Qed.

Lemma get_bind_all (g : Z → expr) (names : list string) (nodes : odict.t expr) :
  NoDup names →
  ∀ i name, names !! i = Some name →
            odict.get (foldl (λ d p, odict.set d p.2 (g p.1)) nodes (Py.enumerate names))
                      name
            = Some (g (Z.of_nat i)).
Proof.
  induction names as [|x names IH] using rev_ind; intros Hnd i name Hi; [done|].
  apply NoDup_app in Hnd as (Hnd & Hfresh & _).
  rewrite enumerate_snoc, foldl_app. cbn.
  apply lookup_app_Some in Hi as [Hi|[Hlen Hi]].
  - assert (x ≠ name).
    { intros ->. apply (Hfresh name); [by eapply list_elem_of_lookup_2|].
      by apply list_elem_of_singleton. }
    rewrite get_set_ne by done. by apply IH.
  - destruct (i - length names)%nat eqn:Hk; [|done]. injection Hi as ->.
    rewrite get_set_eq. unfold Py.len. do 2 f_equal. lia.
Qed.

(** X12.  A converter that produced [size > 1] values for a node that
    declares exactly [size] output names, none of them empty, has each
    value bound to its name: component [i] of the (constant-folded) result
    under the [i]-th name, in order.  With distinct names, looking up the
    [i]-th name afterwards gives component [i]. *)
Theorem reconcile_all_declared (nodes : odict.t expr) (tup : expr) (size : Z)
    (node_output : list string) :
  1 < size → Py.len node_output = size →
  (∀ name, name ∈ node_output → name ≠ "") →
  ∃ nodes',
    reconcile nodes (TupleWrapper tup size) node_output = Ok nodes' ∧
    nodes' = foldl (λ d p, odict.set d p.2 (ETupleGetItem (fold_constant tup) p.1))
                   nodes (Py.enumerate node_output) ∧
    (∀ k, k ∈ odict.keys nodes' ↔ k ∈ odict.keys nodes ∨ k ∈ node_output) ∧
    (NoDup node_output →
     ∀ i name, node_output !! i = Some name →
               odict.get nodes' name
               = Some (ETupleGetItem (fold_constant tup) (Z.of_nat i))).
Proof.
  intros Hsize Hlen Hnames. eexists. split_and!; [|reflexivity| |].
  - unfold reconcile, fold_result.
    destruct (Z.eqb_spec size 1) as [|_]; [lia|]. rewrite result_bind_Ok.
    unfold drop_missing. destruct (Z.ltb_spec 1 size) as [_|]; [|lia].
    rewrite mark_valid_spec.
    2: { intros i name Hi _. apply lookup_lt_Some in Hi. unfold Py.len in Hlen. lia. }
    rewrite result_bind_Ok.
    replace (Z.to_nat size) with (length node_output) by (unfold Py.len in Hlen; lia).
    rewrite all_declared by done. rewrite result_bind_Ok.
    unfold bind_outputs. rewrite bool_decide_eq_true_2 by done.
    cbn [py_assert]. rewrite result_bind_Ok.
    destruct (Z.eqb_spec size 1) as [|_]; [lia|].
    apply (bind_loop_pure _ (λ i, ETupleGetItem (fold_constant tup) i)).
    intros [i name] Hp. apply elem_of_enumerate in Hp as [Hi Hp]. cbn.
    apply lookup_lt_Some in Hp. unfold wrapper_getitem, Py.len in *.
    destruct (Z.leb_spec size i); [lia|done].
  - intros k. generalize nodes. clear.
    induction node_output as [|x l IH] using rev_ind; intros nodes.
    + cbn. rewrite elem_of_nil. tauto.
    + rewrite enumerate_snoc, foldl_app. cbn [foldl fst snd].
      rewrite elem_of_keys_set, IH, elem_of_app, list_elem_of_singleton. tauto.
  - intros Hnd i name Hi.
    by apply (get_bind_all (λ i, ETupleGetItem (fold_constant tup) i)).
Qed.

(** X13.  A non-empty output name declared at a position past the values
    a multi-output converter produced makes the import of the node fail
    with IndexError, raised while the declared names are marked; the
    assertion on the number of outputs is not reached. *)
Theorem reconcile_too_many_names (nodes : odict.t expr) (tup : expr) (size : Z)
    (node_output : list string) (i : nat) (name : string) :
  1 < size → node_output !! i = Some name → name ≠ "" → size ≤ Z.of_nat i →
  mark_valid size node_output = Raise IndexError ∧
  reconcile nodes (TupleWrapper tup size) node_output = Raise IndexError ∧
  reconcile nodes (TupleWrapper tup size) node_output
  ≠ Raise (AssertionError "Number of output mismatch").
Proof.
  intros Hsize Hi Hname Hpast. split_and!.
  - apply (mark_valid_past_outputs size node_output i name); [lia|done|done|done].
  - by apply (reconcile_name_past_outputs nodes tup size node_output i name).
  - by rewrite (reconcile_name_past_outputs nodes tup size node_output i name).
Qed.

End declared_outputs.

Section declared_outputs_runs.
#[local] Existing Instance Demo.oracles.

Lemma reconcile_all_declared_witness :
  ∃ nodes',
    reconcile [] (TupleWrapper (EOp "split" []) 2) ["a"; "b"] = Ok nodes' ∧
    nodes' = foldl (λ d p, odict.set d p.2 (ETupleGetItem (fold_constant (EOp "split" [])) p.1))
                   [] (Py.enumerate ["a"; "b"]) ∧
    (∀ k, k ∈ odict.keys nodes' ↔ k ∈ odict.keys ([] : odict.t expr) ∨ k ∈ ["a"; "b"]) ∧
    (NoDup ["a"; "b"] →
     ∀ i name, ["a"; "b"] !! i = Some name →
               odict.get nodes' name
               = Some (ETupleGetItem (fold_constant (EOp "split" [])) (Z.of_nat i))).
Proof.
  apply (reconcile_all_declared [] (EOp "split" []) 2 ["a"; "b"]); [lia|reflexivity|].
  intros name Hin. apply elem_of_cons in Hin as [->|Hin]; [done|].
  apply list_elem_of_singleton in Hin as ->. done.
Defined.

Lemma reconcile_too_many_names_witness :
  mark_valid 2 ["a"; "b"; "c"] = Raise IndexError ∧
  reconcile [] (TupleWrapper (EOp "split" []) 2) ["a"; "b"; "c"] = Raise IndexError ∧
  reconcile [] (TupleWrapper (EOp "split" []) 2) ["a"; "b"; "c"]
  ≠ Raise (AssertionError "Number of output mismatch").
Proof.
  apply (reconcile_too_many_names [] (EOp "split" []) 2 ["a"; "b"; "c"] 2 "c");
    [lia|reflexivity|done|lia].
Defined.

End declared_outputs_runs.

(** * What a successful registration says of the graph *)

Section registration.
Context `{Oracles}.

Lemma register_initializer_names (self self' : GraphProto) (t : TensorProto) (n n' : nat) :
  register_initializer self t n = inr (self', n') →
  strip_is_empty (tensor_name t) = false ∧
  (∃ array, _parse_array t = Ok array) ∧
  _input_names self' = _input_names self ∧
  _shape self' = _shape self ∧
  _old_manager_is_None self' = _old_manager_is_None self.
Proof.
  unfold register_initializer. destruct (strip_is_empty _); [done|].
  intros Hr. inv_M Hr as array Harray.
  destruct (_freeze_params self).
  - apply mret_Ok in Hr as [-> ->]. split_and!; by eauto.
  - inv_M Hr as v Hv. apply mret_Ok in Hr as [-> ->]. split_and!; by eauto.
Qed.

Lemma register_initializers_names (inits : list TensorProto) (self self' : GraphProto)
    (n n' : nat) :
  foldM register_initializer self inits n = inr (self', n') →
  (∀ t, t ∈ inits → strip_is_empty (tensor_name t) = false ∧
                    ∃ array, _parse_array t = Ok array) ∧
  _input_names self' = _input_names self ∧
  _shape self' = _shape self ∧
  _old_manager_is_None self' = _old_manager_is_None self.
Proof.
  revert self n. induction inits as [|t inits IH]; intros self n; cbn [foldM].
  - intros [-> ->]%mret_Ok. split_and!; try done. by intros t ?%elem_of_nil.
  - intros Hf. inv_M Hf as self1 Hstep.
    apply register_initializer_names in Hstep as (Hb & Ha & Hn1 & Hs1 & Ho1).
    apply IH in Hf as (Hall & Hn2 & Hs2 & Ho2).
    split_and!; [|congruence|congruence|congruence].
    intros t' [->|Ht']%elem_of_cons; [done|by apply Hall].
Qed.

Lemma register_input_names (self self' : GraphProto) (i : ValueInfoProto) (n n' : nat) :
  register_input self i n = inr (self', n') →
  _shape self' = _shape self ∧
  _old_manager_is_None self' = _old_manager_is_None self ∧
  ∀ k, k ∈ _input_names self' →
       k ∈ _input_names self ∨ (k = value_name i ∧ k ∉ odict.keys (_nodes self)).
Proof.
  unfold register_input. intros Hr. inv_M Hr as [[i_name i_shape] d_type] Hinfo.
  apply get_info_name in Hinfo as ->.
  destruct (odict.mem (_params self) (value_name i)) eqn:Hparam.
  - cbn [_params count_param] in Hr.
    destruct (odict.get (_params self) (value_name i)) as [array|]; [|done].
    inv_M Hr as v Hv. apply mret_Ok in Hr as [-> ->].
    split_and!; [done|done|]. intros k Hk. by left.
  - destruct (odict.mem (_nodes self) (value_name i)) eqn:Hnode.
    + apply mret_Ok in Hr as [-> ->]. split_and!; [done|done|]. intros k Hk. by left.
    + apply mem_false in Hnode.
      inv_M Hr as v Hv. apply mret_Ok in Hr as [-> ->].
      split_and!; [done|done|]. cbn. intros k Hk.
      apply elem_of_app in Hk as [Hk|Hk]; [by left|].
      apply list_elem_of_singleton in Hk as ->. by right.
Qed.

Lemma register_inputs_names (inputs : list ValueInfoProto) (self self' : GraphProto)
    (n n' : nat) :
  foldM register_input self inputs n = inr (self', n') →
  _shape self' = _shape self ∧
  _old_manager_is_None self' = _old_manager_is_None self ∧
  ∀ k, k ∈ _input_names self' →
       k ∈ _input_names self ∨
       (k ∈ value_name <$> inputs ∧ k ∉ odict.keys (_nodes self)).
Proof.
  revert self n. induction inputs as [|i inputs IH]; intros self n; cbn [foldM].
  - intros [-> ->]%mret_Ok. split_and!; [done|done|]. intros k Hk. by left.
  - intros Hf. inv_M Hf as self1 Hstep.
    pose proof Hstep as Hkeys.
    apply register_input_spec in Hkeys as (_ & _ & _ & Hkeys & _).
    apply register_input_names in Hstep as (Hs1 & Ho1 & Hn1).
    apply IH in Hf as (Hs2 & Ho2 & Hn2).
    split_and!; [congruence|congruence|].
    intros k Hk. rewrite fmap_cons, elem_of_cons.
    destruct (Hn2 k Hk) as [Hk1|[Hin Hfresh]].
    + destruct (Hn1 k Hk1) as [?|[-> ?]]; [by left|]. right. split; [by left|done].
    + right. split; [by right|]. intros Hold. apply Hfresh, Hkeys. by left.
Qed.

(** X14.  Once the initializers and declared inputs of an outermost graph
    are registered without error, every initializer had a name that is
    not blank and a tensor that materialized, and every name the caller
    gave a shape for is the name of a declared graph input that is not an
    initializer. *)
Theorem register_checks_graph (shape : odict.t (list dim)) (dtype : dtype_spec)
    (freeze : bool) (gr : GraphPb) (opset : Z) (self : GraphProto) (n n' : nat) :
  register (GraphProto_init shape dtype freeze true) gr opset n = inr (self, n') →
  (∀ t, t ∈ graph.initializer gr →
        strip_is_empty (tensor_name t) = false ∧ ∃ array, _parse_array t = Ok array) ∧
  (∀ k, k ∈ odict.keys shape →
        k ∈ value_name <$> graph.input gr ∧
        k ∉ tensor_name <$> graph.initializer gr).
Proof.
  unfold register. intros Hr.
  inv_M Hr as self1 Hinits. inv_M Hr as self2 Hinputs. inv_M Hr as u Hcheck.
  apply mret_Ok in Hr as [-> ->].
  pose proof Hinits as Hnodes.
  apply register_initializers_spec in Hnodes as (_ & _ & _ & Hnodes & _).
  apply register_initializers_names in Hinits as (Hall & Hn1 & Hs1 & Ho1).
  apply register_inputs_names in Hinputs as (Hs2 & Ho2 & Hn2).
  cbn in Hn1, Hs1, Ho1.
  split; [done|]. intros k Hk.
  unfold check_user_shapes in Hcheck. rewrite Ho2, Ho1 in Hcheck.
  apply py_assert_Ok in Hcheck. rewrite Hs2, Hs1 in Hcheck.
  rewrite forallb_forall in Hcheck.
  specialize (Hcheck k ltac:(by apply list_elem_of_In)).
  apply bool_decide_eq_true in Hcheck.
  destruct (Hn2 k Hcheck) as [Hin|[Hin Hfresh]].
  - rewrite Hn1 in Hin. by apply elem_of_nil in Hin.
  - split; [done|]. intros Hinit. apply Hfresh, Hnodes. by left.
Qed.

End registration.

Section registration_runs.
#[local] Existing Instance Demo.oracles.

Lemma register_checks_graph_witness :
  let gr := Demo.registered [] "x" in
  let shape := [("x", [DimInt 4])] in
  ∃ self n',
    register (GraphProto_init shape (DtypeStr "float32") false true) gr 11 0%nat
    = inr (self, n') ∧
    (∀ t, t ∈ graph.initializer gr →
          strip_is_empty (tensor_name t) = false ∧ ∃ array, _parse_array t = Ok array) ∧
    (∀ k, k ∈ odict.keys shape →
          k ∈ value_name <$> graph.input gr ∧
          k ∉ tensor_name <$> graph.initializer gr).
Proof.
  intros gr shape.
  destruct (register (GraphProto_init shape (DtypeStr "float32") false true) gr 11 0%nat)
    as [e|[self n']] eqn:E.
  - vm_compute in E. discriminate.
  - exists self, n'. split; [done|].
    exact (register_checks_graph shape (DtypeStr "float32") false gr 11 self 0%nat n' E).
Defined.

End registration_runs.

(** * Frozen parameters *)

Section frozen_import.
Context `{Oracles}.

Lemma keys_nil_inv {V} (d : odict.t V) : (∀ k, k ∉ odict.keys d) → d = [].
Proof.
  destruct d as [|[k v] d]; [done|]. intros Hd. exfalso. apply (Hd k). left.
Qed.

Lemma frozen_with_nodes (self : GraphProto) (nodes : odict.t expr) :
  frozen self → frozen (with_nodes self nodes).
Proof. done. Qed.

Lemma frozen_subscope (gs : GraphProto) : frozen gs → frozen (subscope gs).
Proof. by intros [Hf _]. Qed.

Lemma frozen_merge_scope (gs sub : GraphProto) (fv : list var) :
  frozen gs → frozen sub → frozen (merge_scope gs sub fv).
Proof.
  intros [Hf Hp] [_ Hp']. split; [done|].
  by rewrite merge_scope_params, Hp, Hp'.
Qed.

Lemma register_frozen (self self' : GraphProto) (gr : GraphPb) (opset : Z) (n n' : nat) :
  frozen self → register self gr opset n = inr (self', n') → frozen self'.
Proof.
  intros [Hf Hp]. unfold register. intros Hr.
  inv_M Hr as self1 Hinits. inv_M Hr as self2 Hinputs. inv_M Hr as u Hcheck.
  apply mret_Ok in Hr as [-> ->].
  apply register_initializers_spec in Hinits as (_ & Hf1 & _ & _ & Hp1).
  apply register_inputs_spec in Hinputs as (Hf2 & _ & Hp2 & _).
  cbn in Hf1, Hp1. rewrite Hf in Hp1, Hf1. rewrite Hp in Hp1.
  split; [congruence|].
  apply keys_nil_inv. intros k Hk. apply Hp2 in Hk. rewrite Hp1 in Hk.
  by apply elem_of_nil in Hk.
Qed.

Section with_importer.
Variable import : importer.
Hypothesis import_frozen :
  ∀ self gr o n e self' n',
    frozen self → import self gr o n = inr (e, self', n') → frozen self'.

Lemma If_frozen (gs gs' : GraphProto) (inputs : onnx_input expr)
    (attr : odict.t attr_value) (r : op_result) (n n' : nat) :
  frozen gs → If__impl_v1 import gs inputs attr n = inr (r, gs', n') → frozen gs'.
Proof.
  intros Hgs HIf.
  apply If_inv in HIf
    as (o & then_pb & else_pb & then_expr & else_expr & then_graph & else_graph
        & cond & n1 & _ & _ & _ & Hthen & Helse & -> & _).
  apply import_frozen in Hthen, Helse; try by apply frozen_subscope.
  by repeat apply frozen_merge_scope.
Qed.

Lemma Loop_frozen (gs gs' : GraphProto) (inputs : onnx_input expr)
    (attr : odict.t attr_value) (r : op_result) (n n' : nat) :
  frozen gs → Loop__impl_v11 import gs inputs attr n = inr (r, gs', n') → frozen gs'.
Proof.
  intros Hgs. unfold Loop__impl_v11. intros HL.
  inv_M HL as max_loop_count Hmax. inv_M HL as cond Hcond. inv_M HL as sliced Hsl.
  inv_M HL as body_attr Hattr. inv_M HL as ty Hty. inv_M HL as u Hassert.
  inv_M HL as body Hbody. inv_M HL as in0 Hin0. inv_M HL as v_iter Hviter.
  inv_M HL as v_max Hvmax. inv_M HL as in1 Hin1. inv_M HL as v_cond Hvcond.
  inv_M HL as v_deps Hvdeps. inv_M HL as o Ho.
  inv_M HL as [loop_outputs0 sub1] Hfirst.
  inv_M HL as scans Hscans. inv_M HL as [loop sub2] Hwhile.
  apply mret_Ok in HL as [[= -> ->] ->].
  assert (frozen sub1) as Hsub1.
  { destruct (0 <? _) in Hfirst.
    - inv_M Hfirst as [e sub] Himp. apply mret_Ok in Hfirst as [[= _ ->] _].
      eapply import_frozen; [|exact Himp]. by apply frozen_subscope.
    - apply mret_Ok in Hfirst as [[= _ ->] _]. by apply frozen_subscope. }
  apply while_loop_inv in Hwhile as (lv & fresh_vars & test & outs & m & Htest & Hbfn & ->).
  apply body_fn_inv in Hbfn as (nodes & loop_outputs & Hkeys & Himp).
  apply frozen_merge_scope; [done|].
  eapply import_frozen; [|exact Himp]. by apply frozen_with_nodes.
Qed.

Lemma _convert_operator_frozen (self self' : GraphProto) (op_name : string)
    (inputs : onnx_input expr) (attrs : odict.t attr_value) (opset : Z)
    (op : op_result) (n n' : nat) :
  frozen self →
  _convert_operator import self op_name inputs attrs opset n = inr (op, self', n') →
  frozen self'.
Proof.
  intros Hself. unfold _convert_operator. rewrite _get_convert_map_Ok.
  intros Hc. inv_M Hc as cm Hcm. injection Hcm as <-.
  rewrite bool_decide_eq_false_2 in Hc by (unfold _identity_list; by intros ?%elem_of_nil).
  repeat case_bool_decide.
  - by eapply Loop_frozen.
  - by eapply If_frozen.
  - destruct (op_table opset op_name) as [c|]; [|discriminate]. cbn in Hc.
    inv_M Hc as sym Hsym. by apply mret_Ok in Hc as [[= _ ->] _].
Qed.

Lemma convert_node_frozen (opset : Z) (self self' : GraphProto) (nd : NodePb)
    (n n' : nat) :
  frozen self → convert_node import opset self nd n = inr (self', n') → frozen self'.
Proof.
  intros Hself. unfold convert_node. intros Hc.
  inv_M Hc as attr Hattr. inv_M Hc as inputs Hinputs.
  inv_M Hc as [op self1] Hop. inv_M Hc as nodes Hrec.
  apply mret_Ok in Hc as [-> ->].
  apply frozen_with_nodes. by eapply _convert_operator_frozen.
Qed.

Lemma convert_nodes_frozen (self self' : GraphProto) (gr : GraphPb) (opset : Z)
    (outputs : expr) (n n' : nat) :
  frozen self → convert_nodes import self gr opset n = inr (outputs, self', n') →
  frozen self'.
Proof.
  intros Hself. unfold convert_nodes. intros Hc.
  inv_M Hc as cm Hcm. inv_M Hc as u Hu. inv_M Hc as self1 Hloop. inv_M Hc as outs Houts.
  apply mret_Ok in Hc as [[= _ ->] _].
  clear -Hself Hloop import_frozen. revert self n Hself Hloop.
  induction (graph.node gr) as [|nd nodes IH]; intros self n Hself; cbn [foldM].
  - by intros [-> ->]%mret_Ok.
  - intros Hf. inv_M Hf as self2 Hnd.
    eapply IH; [|exact Hf]. by eapply convert_node_frozen.
Qed.

End with_importer.

Lemma from_onnx_outputs_frozen (fuel : nat) (self self' : GraphProto) (gr : GraphPb)
    (o : Z) (e : expr) (n n' : nat) :
  frozen self → from_onnx_outputs fuel self gr o n = inr (e, self', n') → frozen self'.
Proof.
  revert self self' gr o e n n'.
  induction fuel as [|fuel IH]; intros self self' gr o e n n' Hself; [done|].
  cbn [from_onnx_outputs]. unfold from_onnx_body. intros Hrun.
  inv_M Hrun as [r self3] Hbody. inv_M Hbody as self1 Hreg.
  inv_M Hbody as [outputs self2] Hconv. cbn in Hbody.
  apply mret_Ok in Hbody as [[= -> ->] ->].
  apply mret_Ok in Hrun as [[= -> ->] ->].
  eapply convert_nodes_frozen; [|by eapply register_frozen|exact Hconv].
  intros ? ? ? ? ? ? ?. apply IH.
Qed.


(** X15.  With [freeze_params] set, a successful top-level import returns
    an empty constant table, whatever control flow the graph nests: every
    initializer is embedded as a constant.  The parameters of the
    returned function are then the values of the declared-input table,
    whose keys are names of declared graph inputs. *)
Theorem freeze_params_empties_table (fuel : nat) (shape : odict.t (list dim))
    (dtype : dtype_spec) (gr : GraphPb) (opset : Z) (f : expr)
    (params : odict.t NDArray) (self' : GraphProto) (n n' : nat) :
  from_onnx fuel (GraphProto_init shape dtype true true) gr opset false n
  = inr (Module f params, self', n') →
  params = [] ∧ _params self' = [] ∧
  ∃ ps outputs,
    f = EFunction ps outputs ∧
    EVar <$> ps = odict.values (_inputs self') ∧
    odict.keys (_inputs self') `sublist_of` (value_name <$> graph.input gr).
Proof.
  intros Hf.
  apply from_onnx_inv in Hf
    as (fuel' & self1 & self2 & outputs & n1 & -> & Hreg & Hconv & Hasm).
  pose proof Hreg as Hfrozen. apply register_frozen in Hfrozen; [|done].
  apply register_spec in Hreg as (_ & _ & Hsub & _).
  pose proof Hconv as Hgrows. apply convert_nodes_grows in Hgrows as (Hinputs & _).
  apply convert_nodes_frozen in Hconv as [_ Hparams];
    [|intros ? ? ? ? ? ? ?; apply from_onnx_outputs_frozen|done].
  apply assemble_inv in Hasm
    as (free_names & ps & extra & _ & [= -> ->] & -> & Hvals & _ & Hextra & _).
  assert (extra = []) as ->.
  { apply keys_nil_inv. intros k Hk. apply Hextra in Hk as (Hk & _).
    rewrite Hparams in Hk. by apply elem_of_nil in Hk. }
  rewrite app_nil_r in *. cbn [_params _inputs with_inputs].
  split_and!; [done|done|]. exists ps, outputs.
  split_and!; [done|done|]. by rewrite Hinputs.
Qed.

End frozen_import.

Section frozen_import_runs.
#[local] Existing Instance Demo.oracles.

Lemma freeze_params_empties_table_witness :
  let gr := Demo.registered [Demo.loop_node] "v_final" in
  ∃ f params self' n',
    from_onnx 2 (GraphProto_init [] (DtypeStr "float32") true true) gr 11 false 0%nat
    = inr (Module f params, self', n') ∧
    params = [] ∧ _params self' = [] ∧
    ∃ ps outputs,
      f = EFunction ps outputs ∧
      EVar <$> ps = odict.values (_inputs self') ∧
      odict.keys (_inputs self') `sublist_of` (value_name <$> graph.input gr).
Proof.
  intros gr.
  destruct (from_onnx 2 (GraphProto_init [] (DtypeStr "float32") true true) gr 11
              false 0%nat) as [e|[[[o|f params] self'] n']] eqn:E.
  - vm_compute in E. discriminate.
  - vm_compute in E. discriminate.
  - exists f, params, self', n'. split; [done|].
    exact (freeze_params_empties_table 2 [] (DtypeStr "float32") gr 11
             f params self' 0%nat n' E).
Defined.

End frozen_import_runs.

(** * Node inputs, loop results and graph outputs *)

Section node_conversion.
Context `{Oracles}.

Lemma mapM_result_stops {A B} (f : A → result B) (pre post : list A) (x : A) (e : exn) :
  (∀ y, y ∈ pre → ∃ z, f y = Ok z) → f x = Raise e →
  mapM f (pre ++ x :: post) = Raise e.
Proof.
  intros Hpre Hx. induction pre as [|y pre IH]; cbn.
  - by rewrite Hx.
  - destruct (Hpre y ltac:(left)) as [z ->]. rewrite result_bind_Ok.
    rewrite IH; [done|]. intros y' Hy'. apply Hpre. by right.
Qed.

(** X16.  A node that reads a name not yet bound in the importer's table
    fails with KeyError on the first such name, before its operator is
    converted: the nodes of a graph have to come after the nodes that
    produce their inputs. *)
Theorem convert_node_unbound_input (import : importer) (opset : Z) (self : GraphProto)
    (nd : NodePb) (n : nat) (attr : odict.t attr_value) (pre post : list string)
    (i : string) :
  _parse_attr (node.attribute nd) = Ok attr →
  node.input nd = pre ++ i :: post →
  (∀ j, j ∈ pre →
        j = "" ∨ default j (odict.get (_renames self) j) ∈ odict.keys (_nodes self)) →
  i ≠ "" →
  default i (odict.get (_renames self) i) ∉ odict.keys (_nodes self) →
  convert_node import opset self nd n
  = inl (KeyError (default i (odict.get (_renames self) i))).
Proof.
  intros Hattr Hin Hpre Hi Hunbound. unfold convert_node.
  rewrite Hattr, Hin. cbn [lift Ok]. unfold mbind at 1, M_bind at 1. cbn beta iota.
  rewrite (mapM_result_stops _ pre post i
             (KeyError (default i (odict.get (_renames self) i)))); [done| |].
  - intros j Hj. destruct (Hpre j Hj) as [->|Hbound].
    + rewrite bool_decide_eq_false_2 by (by intros ?). by eexists.
    + case_bool_decide; [|by eexists].
      apply get_is_Some in Hbound as [v Hv]. unfold odict.getitem. rewrite Hv.
      by eexists.
  - rewrite bool_decide_eq_true_2 by done. unfold odict.getitem.
    destruct (odict.get (_nodes self) _) as [v|] eqn:Hv; [|done].
    exfalso. apply Hunbound, get_is_Some. by eexists.
Qed.

Lemma range_length_step_1 (lo hi : Z) :
  length (Py.range lo hi 1) = Z.to_nat (hi - lo).
Proof.
  unfold Py.range, Py.range_length. rewrite length_fmap, length_seq.
  change (0 <? 1) with true. cbn match.
  destruct (Z.ltb_spec lo hi); [|lia]. rewrite Z.div_1_r. lia.
Qed.

(** [inputs[2:]] has the inputs past the first two. *)
Lemma onnx_input_tail_length {A} (inputs : onnx_input A) (sliced : item A) :
  onnx_input_getitem inputs (KSlice (Py.Slice (Some 2) None None)) = Ok sliced →
  ∃ xs, sliced = Items xs ∧ Py.len xs = Z.max (Py.len inputs - 2) 0.
Proof.
  cbn [onnx_input_getitem Py.stop]. intros Hs.
  inv_res Hs as indices Hind. inv_res Hs as xs Hxs. injection Hs as <-.
  exists xs. split; [done|]. apply length_mapM_result in Hxs.
  unfold Py.range_getslice in Hind. inv_res Hind as [[st sp] stp] Hsl.
  injection Hind as <-. unfold Py.slice_indices in Hsl. cbn in Hsl.
  injection Hsl as <- <- <-.
  pose proof (len_nonneg inputs). unfold Py.len in *.
  rewrite Hxs, range_length_step_1.
  change (2 <? 0) with false. cbn match. lia.
Qed.

Lemma loop_deps_vars_Ok (body_inputs : list ValueInfoProto) (deps : list (Z * option expr))
    (acc v_deps : list var) (n n' : nat) :
  foldM (λ acc p,
           inp ← lift (Py.index body_inputs (p.1 + 2));
           v ← get_var (value_name inp) p.2 false;
           mret (acc ++ [v])) acc deps n = inr (v_deps, n') →
  ∀ p, p ∈ deps → ∃ inp, Py.index body_inputs (p.1 + 2) = Ok inp.
Proof.
  revert acc n. induction deps as [|p deps IH]; intros acc n; cbn [foldM].
  - intros _ p Hp. by apply elem_of_nil in Hp.
  - intros Hf. inv_M Hf as acc1 Hstep. inv_M Hstep as inp Hinp.
    intros q [->|Hq]%elem_of_cons; [by exists inp|]. by eapply IH.
Qed.

(** X17.  A [Loop] node returns one value less than its body declares
    outputs, the body's first output being the condition: a single
    expression when the body declares two outputs, else a tuple wrapper
    of that size.  The body is the [body] attribute, a graph, and it
    declares an input for the iteration count, one for the condition and
    one for every loop-carried value the node was given. *)
Theorem Loop_result_arity (import : importer) (gs gs' : GraphProto)
    (inputs : onnx_input expr) (attr : odict.t attr_value) (r : op_result)
    (n n' : nat) :
  Loop__impl_v11 import gs inputs attr n = inr (r, gs', n') →
  ∃ body,
    odict.get attr "body" = Some (AGraph body) ∧
    Z.max 2 (Py.len inputs) ≤ Py.len (graph.input body) ∧
    match r with
    | Single _ => Py.len (graph.output body) = 2
    | TupleWrapper _ size =>
        size = Py.len (graph.output body) - 1 ∧ size ≠ 1
    end.
Proof.
  unfold Loop__impl_v11. intros HL.
  inv_M HL as max_loop_count Hmax. inv_M HL as cond Hcond. inv_M HL as sliced Hsl.
  inv_M HL as body_attr Hattr. inv_M HL as ty Hty. inv_M HL as u Hassert.
  inv_M HL as body Hbody. inv_M HL as in0 Hin0. inv_M HL as v_iter Hviter.
  inv_M HL as v_max Hvmax. inv_M HL as in1 Hin1. inv_M HL as v_cond Hvcond.
  inv_M HL as v_deps Hvdeps. inv_M HL as o Ho.
  inv_M HL as [loop_outputs0 sub1] Hfirst.
  inv_M HL as scans Hscans. inv_M HL as [loop sub2] Hwhile.
  apply mret_Ok in HL as [[= -> _] _].
  unfold odict.getitem in Hattr.
  destruct (odict.get attr "body") as [b|] eqn:Hb; [|discriminate].
  injection Hattr as ->. destruct body_attr; try discriminate. injection Hbody as ->.
  apply onnx_input_tail_length in Hsl as (loop_deps & -> & Hdeps).
  exists body. split; [done|]. split.
  - change 1 with (Z.of_nat 1) in Hin1. apply index_Ok_lt in Hin1.
    pose proof (loop_deps_vars_Ok _ _ _ _ _ _ Hvdeps) as Hall.
    destruct loop_deps as [|x loop_deps _] using rev_ind.
    { unfold Py.len in *. cbn in Hdeps. lia. }
    destruct (Hall (Py.len loop_deps, x)) as [inp Hinp].
    { apply elem_of_enumerate. split; [apply len_nonneg|].
      unfold Py.len. rewrite Nat2Z.id. by apply list_lookup_middle. }
    cbn in Hinp. rewrite len_app in Hdeps. unfold Py.len in *. cbn in Hdeps.
    replace (Z.of_nat (length loop_deps) + 2)
      with (Z.of_nat (length loop_deps + 2)) in Hinp by lia.
    apply index_Ok_lt in Hinp. lia.
  - destruct (Z.eqb_spec (Py.len loop_deps
                          + (Py.len (graph.output body) - (1 + Py.len loop_deps))) 1)
      as [Heq|Hne]; [lia|]. split; [lia|]. lia.
Qed.

End node_conversion.

Section node_conversion_runs.
#[local] Existing Instance Demo.oracles.

Lemma convert_node_unbound_input_witness :
  convert_node (from_onnx_outputs 0) 11 Demo.scope
    (Demo.plain "Add" ["x"; ""; "later"; "w"] ["z"]) 3%nat
  = inl (KeyError "later").
Proof.
  apply (convert_node_unbound_input (from_onnx_outputs 0) 11 Demo.scope
           (Demo.plain "Add" ["x"; ""; "later"; "w"] ["z"]) 3%nat []
           ["x"; ""] ["w"] "later").
  - reflexivity.
  - reflexivity.
  - intros j Hj. apply elem_of_cons in Hj as [->|Hj].
    + right. cbn. right. right. left.
    + apply list_elem_of_singleton in Hj as ->. by left.
  - done.
  - cbn. intros Hin.
    apply elem_of_cons in Hin as [?|Hin]; [done|].
    apply elem_of_cons in Hin as [?|Hin]; [done|].
    apply list_elem_of_singleton in Hin. done.
Defined.

Lemma Loop_result_arity_witness :
  ∃ r gs' n',
    Loop__impl_v11 (from_onnx_outputs 1) Demo.scope
      [Some (EVar Demo.c); Some (EVar Demo.c); Some (EVar Demo.x)] Demo.loop_attr 3%nat
    = inr (r, gs', n') ∧
    ∃ body,
      odict.get Demo.loop_attr "body" = Some (AGraph body) ∧
      Z.max 2 (Py.len [Some (EVar Demo.c); Some (EVar Demo.c); Some (EVar Demo.x)])
      ≤ Py.len (graph.input body) ∧
      match r with
      | Single _ => Py.len (graph.output body) = 2
      | TupleWrapper _ size =>
          size = Py.len (graph.output body) - 1 ∧ size ≠ 1
      end.
Proof.
  destruct (Loop__impl_v11 (from_onnx_outputs 1) Demo.scope
              [Some (EVar Demo.c); Some (EVar Demo.c); Some (EVar Demo.x)]
              Demo.loop_attr 3%nat) as [e|[[r gs'] n']] eqn:E.
  - vm_compute in E. discriminate.
  - exists r, gs', n'. split; [done|].
    exact (Loop_result_arity (from_onnx_outputs 1) Demo.scope gs'
             [Some (EVar Demo.c); Some (EVar Demo.c); Some (EVar Demo.x)]
             Demo.loop_attr r 3%nat n' E).
Defined.

End node_conversion_runs.

(** * The names a finished import has bound *)

Section import_names.
Context `{Oracles}.

(** X18.  After a successful top-level import the names of the table are
    distinct, every initializer and every declared input of the graph is
    bound, and the body of the returned function is what the table binds
    under the declared output name, or the tuple of those bindings when
    the graph does not declare exactly one output. *)
Theorem from_onnx_binds_names (fuel : nat) (shape : odict.t (list dim))
    (dtype : dtype_spec) (freeze : bool) (gr : GraphPb) (opset : Z) (f : expr)
    (params : odict.t NDArray) (self' : GraphProto) (n n' : nat) :
  from_onnx fuel (GraphProto_init shape dtype freeze true) gr opset false n
  = inr (Module f params, self', n') →
  NoDup (odict.keys (_nodes self')) ∧
  (∀ t, t ∈ graph.initializer gr → tensor_name t ∈ odict.keys (_nodes self')) ∧
  (∀ i, i ∈ graph.input gr → value_name i ∈ odict.keys (_nodes self')) ∧
  ∃ ps outs,
    mapM (λ i, odict.getitem (_nodes self') (value_name i)) (graph.output gr) = Ok outs ∧
    length outs = length (graph.output gr) ∧
    f = EFunction ps (match outs with [x] => x | _ => ETuple outs end).
Proof.
  intros Hf.
  apply from_onnx_inv in Hf
    as (fuel' & self1 & self2 & outputs & n1 & -> & Hreg & Hconv & Hasm).
  pose proof Hreg as Hnd. apply register_spec in Hnd as (_ & Hnd & _).
  unfold register in Hreg.
  inv_M Hreg as s1 Hinits. inv_M Hreg as s2 Hinputs. inv_M Hreg as u Hcheck.
  apply mret_Ok in Hreg as [-> ->].
  apply register_initializers_spec in Hinits as (_ & _ & _ & Hn1 & _).
  apply register_inputs_spec in Hinputs as (_ & _ & _ & Hn2 & _).
  pose proof Hconv as Hgrows.
  apply convert_nodes_grows in Hgrows as (_ & _ & Hkeys & _ & Hnd2).
  unfold convert_nodes in Hconv.
  inv_M Hconv as cm Hcm. inv_M Hconv as u' Hu. inv_M Hconv as self3 Hloop.
  inv_M Hconv as outs Houts. apply mret_Ok in Hconv as [[= -> ->] ->].
  apply assemble_inv in Hasm
    as (free_names & ps & extra & _ & [= -> ->] & -> & _).
  cbn [_nodes with_inputs].
  split_and!.
  - by apply Hnd2.
  - intros t Ht. apply Hkeys, Hn2. left. apply Hn1. left. by apply list_elem_of_fmap_2.
  - intros i Hi. apply Hkeys, Hn2. right. by apply list_elem_of_fmap_2.
  - exists ps, outs. split_and!; [done| |done].
    by apply length_mapM_result in Houts.
Qed.

End import_names.

Section import_names_runs.
#[local] Existing Instance Demo.oracles.

Lemma from_onnx_binds_names_witness :
  let gr := Demo.registered [Demo.if_node; Demo.plain "Add" ["y"; "w"] ["z"]] "z" in
  ∃ f params self' n',
    from_onnx 2 (GraphProto_init [] (DtypeStr "float32") false true) gr 11 false 0%nat
    = inr (Module f params, self', n') ∧
    NoDup (odict.keys (_nodes self')) ∧
    (∀ t, t ∈ graph.initializer gr → tensor_name t ∈ odict.keys (_nodes self')) ∧
    (∀ i, i ∈ graph.input gr → value_name i ∈ odict.keys (_nodes self')) ∧
    ∃ ps outs,
      mapM (λ i, odict.getitem (_nodes self') (value_name i)) (graph.output gr) = Ok outs ∧
      length outs = length (graph.output gr) ∧
      f = EFunction ps (match outs with [x] => x | _ => ETuple outs end).
Proof.
  intros gr.
  destruct (from_onnx 2 (GraphProto_init [] (DtypeStr "float32") false true) gr 11
              false 0%nat) as [e|[[[o|f params] self'] n']] eqn:E.
  - vm_compute in E. discriminate.
  - vm_compute in E. discriminate.
  - exists f, params, self', n'. split; [done|].
    exact (from_onnx_binds_names 2 [] (DtypeStr "float32") false gr 11
             f params self' 0%nat n' E).
Defined.

End import_names_runs.

(** * The variable of a declared input *)

Section declared_input.
Context `{Oracles}.

Lemma get_info_shape (i : ValueInfoProto) (name : string) (declared : list dim)
    (d_type : option string) :
  get_info i = Ok (name, declared, d_type) →
  length declared = length (shape_dim i) ∧ (DimInt 0 ∉ declared) ∧
  (∀ k x, declared !! k = Some (DimInt x) ↔
          x ≠ 0 ∧ dim_value <$> shape_dim i !! k = Some (Some x)) ∧
  (d_type = None ↔ elem_type i = 0).
Proof.
  unfold get_info. intros Hg. inv_res Hg as d Hd. injection Hg as _ <- <-.
  split_and!.
  - by rewrite length_fmap.
  - intros Hin. apply list_elem_of_fmap in Hin as (dm & Hdm & _).
    destruct (dim_value dm) as [x|]; [|done].
    destruct (Z.eqb_spec x 0); [done|]. by injection Hdm as <-.
  - intros k x. rewrite list_lookup_fmap.
    destruct (shape_dim i !! k) as [dm|]; cbn; [|split; [done|by intros [_ ?]]].
    destruct (dim_value dm) as [y|]; [|split; [done|by intros [_ ?]]].
    destruct (Z.eqb_spec y 0) as [->|Hy].
    + split; [done|]. intros [? [= <-]]. done.
    + split; [by intros [= <-]|]. by intros [_ [= <-]].
  - destruct (Z.eqb_spec (elem_type i) 0) as [He|He].
    + by injection Hd as <-.
    + split; [|done]. intros ->.
      destruct (get_type (elem_type i)); [done|]. cbn in Hd. done.
Qed.

(** X19.  A declared graph input whose name is not bound yet becomes a new
    variable of that name, bound under the name in the node table and in
    the declared-input table and appended to the input names.  Its shape
    is the caller's shape for that name when one was given, else the
    declared shape, in which a dimension that is missing or 0 is unknown.
    Its dtype is the declared element type unless the caller's dtype is a
    dict that has the name: a dtype given as one string is not applied. *)
Theorem register_input_fresh (self : GraphProto) (i : ValueInfoProto) (n : nat)
    (name : string) (declared : list dim) (d_type : option string) :
  get_info i = Ok (name, declared, d_type) →
  value_name i ∉ odict.keys (_nodes self) →
  value_name i ∉ odict.keys (_params self) →
  ∃ v self',
    register_input self i n = inr (self', S n) ∧
    odict.get (_nodes self') (value_name i) = Some (EVar v) ∧
    odict.get (_inputs self') (value_name i) = Some (EVar v) ∧
    _input_names self' = _input_names self ++ [value_name i] ∧
    vid v = n ∧ name_hint v = value_name i ∧
    var_shape v = Some (default declared (odict.get (_shape self) (value_name i))) ∧
    var_dtype v = match _dtype self with
                  | DtypeDict d => from_option Some d_type (odict.get d (value_name i))
                  | DtypeStr _ => d_type
                  end ∧
    length declared = length (shape_dim i) ∧ (DimInt 0 ∉ declared) ∧
    (d_type = None ↔ elem_type i = 0).
Proof.
  intros Hinfo Hnode Hparam.
  pose proof (get_info_name _ _ _ _ Hinfo) as ->.
  pose proof (get_info_shape _ _ _ _ Hinfo) as (Hlen & Hzero & _ & Hdt).
  apply mem_false in Hnode, Hparam.
  eexists _, _. split_and!.
  - unfold register_input.
    erewrite M_bind_run by (unfold lift; rewrite Hinfo; reflexivity).
    cbn beta iota. rewrite Hparam, Hnode. reflexivity.
  - cbn. apply get_set_eq.
  - cbn. apply get_set_eq.
  - done.
  - done.
  - done.
  - done.
  - cbn. destruct (_dtype self) as [s|d]; [done|].
    by destruct (odict.get d (value_name i)).
  - done.
  - done.
  - done.
Qed.

End declared_input.

Section declared_input_runs.
#[local] Existing Instance Demo.oracles.

Lemma register_input_fresh_witness :
  let self := GraphProto_init [("x", [DimInt 4])] (DtypeStr "float16") false true in
  ∃ v self',
    register_input self (Demo.info "x") 0%nat = inr (self', 1%nat) ∧
    odict.get (_nodes self') "x" = Some (EVar v) ∧
    odict.get (_inputs self') "x" = Some (EVar v) ∧
    _input_names self' = _input_names self ++ ["x"] ∧
    vid v = 0%nat ∧ name_hint v = "x" ∧
    var_shape v = Some [DimInt 4] ∧
    var_dtype v = Some "float32" ∧
    length [DimInt 2] = length (shape_dim (Demo.info "x")) ∧ (DimInt 0 ∉ [DimInt 2]) ∧
    (Some "float32" = None ↔ elem_type (Demo.info "x") = 0).
Proof.
  intros self.
  apply (register_input_fresh self (Demo.info "x") 0%nat "x" [DimInt 2] (Some "float32")).
  - reflexivity.
  - cbn. apply not_elem_of_nil.
  - cbn. apply not_elem_of_nil.
Defined.

End declared_input_runs.

(** * [Sum] *)

Lemma range_from_0 (n : Z) : Py.range 0 n 1 = Z.of_nat <$> seq 0 (Z.to_nat n).
Proof.
  unfold Py.range, Py.range_length. change (0 <? 1) with true. cbn match.
  destruct (Z.ltb_spec 0 n).
  - rewrite Z.div_1_r. replace (Z.to_nat (n - 0 - 1 + 1)) with (Z.to_nat n) by lia.
    apply list_fmap_ext. intros i k _. lia.
  - by replace (Z.to_nat n) with 0%nat by lia.
Qed.

Lemma getitem_int_middle {A} (pre post : list (option A)) (x : option A) :
  getitem_int (pre ++ x :: post) (Py.len pre) = Ok x.
Proof.
  unfold getitem_int. rewrite len_app. pose proof (len_nonneg post).
  unfold Py.len in *. cbn [length].
  destruct (Z.ltb_spec (Z.of_nat (length pre))
              (Z.of_nat (length pre) + Z.of_nat (S (length post)))); [|lia].
  apply index_nat. by apply list_lookup_middle.
Qed.

(** The adding loop, started anywhere in the list. *)
Lemma Sum_loop (pre : list (option expr)) (a : expr) (rest : list expr) :
  ∃ pre',
    foldl (λ acc in_index,
             inputs ← acc;
             a ← getitem_int inputs in_index;
             b ← getitem_int inputs (in_index + 1);
             list_setitem inputs (in_index + 1)
               (Some (relay_op "add" [] [as_expr a; as_expr b])))
          (Ok (pre ++ Some a :: (Some <$> rest)))
          (Z.of_nat <$> seq (length pre) (length rest))
    = Ok (pre' ++ [Some (foldl (λ x y, relay_op "add" [] [x; y]) a rest)]) ∧
    length pre' = (length pre + length rest)%nat.
Proof.
  revert pre a. induction rest as [|b rest IH]; intros pre a.
  { exists pre. cbn. split; [done|lia]. }
  cbn [length seq fmap list_fmap foldl].
  rewrite !result_bind_Ok.
  change (Z.of_nat (length pre)) with (Py.len pre).
  rewrite getitem_int_middle, result_bind_Ok.
  replace (Py.len pre + 1) with (Py.len (pre ++ [Some a]))
    by (rewrite len_app; unfold Py.len; cbn; lia).
  change (pre ++ Some a :: Some b :: (Some <$> rest))
    with (pre ++ [Some a] ++ Some b :: (Some <$> rest)).
  rewrite (assoc_L (++)), getitem_int_middle, result_bind_Ok.
  rewrite list_setitem_in_range.
  2: { rewrite !len_app. pose proof (len_nonneg pre).
       pose proof (len_nonneg (Some <$> rest)). unfold Py.len in *. cbn. lia. }
  replace (Z.to_nat (Py.len (pre ++ [Some a]))) with (length (pre ++ [Some a]) + 0)%nat
    by (unfold Py.len; lia).
  rewrite insert_app_r. cbn [insert list_insert as_expr default].
  destruct (IH (pre ++ [Some a]) (relay_op "add" [] [a; b])) as (pre' & Hloop & Hlen).
  rewrite length_app in Hloop, Hlen. cbn [length] in Hloop, Hlen.
  replace (S (length pre)) with (length pre + 1)%nat by lia.
  exists pre'. split; [exact Hloop|lia].
Qed.

(** X20.  [Sum] over inputs that are all present returns their sum
    associated to the left, [((x0 + x1) + x2) + ...]; a single input is
    returned as it is, and no input at all raises IndexError. *)
Theorem Sum_is_left_fold (x : expr) (xs : list expr) :
  Sum__impl_v1 (Some <$> x :: xs)
  = Ok (Some (foldl (λ a b, relay_op "add" [] [a; b]) x xs)) ∧
  Sum__impl_v1 [Some x] = Ok (Some x) ∧
  Sum__impl_v1 [] = Raise IndexError.
Proof.
  split_and!; [|done|done].
  unfold Sum__impl_v1. rewrite range_from_0.
  replace (Z.to_nat (Py.len (Some <$> x :: xs) - 1)) with (length xs)
    by (unfold Py.len; cbn; rewrite length_fmap; lia).
  destruct (Sum_loop [] x xs) as (pre' & Hloop & Hlen).
  cbn [app length] in Hloop. cbn [fmap list_fmap]. unfold onnx_input in *.
  rewrite Hloop, result_bind_Ok.
  cbn beta. rewrite len_app.
  replace (Py.len pre' + Py.len [Some (foldl (λ a b, relay_op "add" [] [a; b]) x xs)] - 1)
    with (Py.len pre') by (unfold Py.len; cbn; lia).
  apply getitem_int_middle.
Qed.

(** * [Clip] *)

Lemma clip_inputs_1 (plain : bool) (data : expr) :
  clip_inputs plain [Some data] = Ok (Some data).
Proof. by destruct plain. Qed.

Lemma clip_inputs_2 (plain : bool) (data : expr) (mn : option expr) :
  clip_inputs plain [Some data; mn] = Ok (apply_bound "maximum" (Some data) mn).
Proof. by destruct plain, mn. Qed.

Lemma clip_inputs_3 (plain : bool) (data : expr) (mn mx : option expr) :
  clip_inputs plain [Some data; mn; mx]
  = Ok (apply_bound "minimum" (apply_bound "maximum" (Some data) mn) mx).
Proof. by destruct plain, mn, mx. Qed.

Lemma mem_set {V} (d : odict.t V) (k k' : string) (v : V) :
  odict.mem (odict.set d k v) k' = bool_decide (k' = k) || odict.mem d k'.
Proof.
  apply eq_true_iff_eq. rewrite orb_true_iff, bool_decide_eq_true, !mem_true.
  apply elem_of_keys_set.
Qed.

Section Clip_facts.
Variable convert_attributes :
  list (option expr) → odict.t attr_value → odict.t NDArray → result expr.
Variable numpy_item : NDArray → result attr_value.

Lemma take_constant_dynamic (key : string) (i : Z) (inputs : list (option expr))
    (attr : odict.t attr_value) (x : option expr) (plain : bool) :
  seq_getitem plain inputs i = Ok x → is_constant x = false →
  take_constant numpy_item key i plain inputs attr = Ok (plain, inputs, attr).
Proof.
  intros Hx Hc. unfold take_constant. rewrite Hx, result_bind_Ok.
  by destruct x as [[]|].
Qed.

Lemma take_constant_constant (key : string) (i : Z) (inputs xs : list (option expr))
    (attr : odict.t attr_value) (a : NDArray) (sa : option string) (v : attr_value)
    (plain : bool) :
  seq_getitem plain inputs i = Ok (Some (EConst a sa)) → numpy_item a = Ok v →
  seq_getslice plain inputs (Py.Slice (Some 0) (Some i) None) = Ok xs →
  take_constant numpy_item key i plain inputs attr = Ok (true, xs, odict.set attr key v).
Proof.
  intros Hx Hv Hxs. unfold take_constant.
  by rewrite Hx, result_bind_Ok, Hv, result_bind_Ok, Hxs, result_bind_Ok.
Qed.

(** X21.  With bounds that are not constants and no [min] and [max] both
    among the attributes, [Clip] (opset 11) returns the data clipped from
    below by [maximum] when a minimum is given and then from above by
    [minimum] when a maximum is given; with the data alone it returns
    the data as it is. *)
Theorem Clip_dynamic_bounds (data : expr) (mn mx : option expr)
    (attr : odict.t attr_value) (params : odict.t NDArray) :
  is_constant mn = false → is_constant mx = false →
  odict.mem attr "min" && odict.mem attr "max" = false →
  Clip__impl_v11 convert_attributes numpy_item [Some data] attr params
  = Ok (Some data) ∧
  Clip__impl_v11 convert_attributes numpy_item [Some data; mn] attr params
  = Ok (apply_bound "maximum" (Some data) mn) ∧
  Clip__impl_v11 convert_attributes numpy_item [Some data; mn; mx] attr params
  = Ok (apply_bound "minimum" (apply_bound "maximum" (Some data) mn) mx).
Proof.
  intros Hmn Hmx Hattr. split_and!.
  - unfold Clip__impl_v11.
    change (Py.len [Some data] =? 3) with false. cbn match.
    rewrite result_bind_Ok. cbn beta iota.
    change (2 <=? Py.len [Some data]) with false. cbn match.
    rewrite result_bind_Ok. cbn beta iota. rewrite Hattr. apply clip_inputs_1.
  - unfold Clip__impl_v11.
    change (Py.len [Some data; mn] =? 3) with false. cbn match.
    rewrite result_bind_Ok. cbn beta iota.
    change (2 <=? Py.len [Some data; mn]) with true. cbn match.
    rewrite (take_constant_dynamic "min" 1 _ attr mn) by done.
    rewrite result_bind_Ok. cbn beta iota. rewrite Hattr. apply clip_inputs_2.
  - unfold Clip__impl_v11.
    change (Py.len [Some data; mn; mx] =? 3) with true. cbn match.
    rewrite (take_constant_dynamic "max" 2 _ attr mx) by done.
    rewrite result_bind_Ok. cbn beta iota.
    change (2 <=? Py.len [Some data; mn; mx]) with true. cbn match.
    rewrite (take_constant_dynamic "min" 1 _ attr mn) by done.
    rewrite result_bind_Ok. cbn beta iota. rewrite Hattr. apply clip_inputs_3.
Qed.

(** X22.  A bound that is a constant is moved into the attributes, and the
    attributes are used only when they hold both [min] and [max].  With
    both bounds constant the conversion goes through the attributes, on
    the data alone.  With a constant minimum and a maximum that is not a
    constant the data is returned as it is, neither bound applied; with a
    constant maximum and a minimum that is not a constant only the
    minimum is applied. *)
Theorem Clip_constant_bounds (data : expr) (a b : NDArray) (sa sb : option string)
    (va vb : attr_value) (mn mx : option expr)
    (attr : odict.t attr_value) (params : odict.t NDArray) :
  numpy_item a = Ok va → numpy_item b = Ok vb →
  is_constant mn = false → is_constant mx = false →
  odict.mem attr "min" = false → odict.mem attr "max" = false →
  Clip__impl_v11 convert_attributes numpy_item
    [Some data; Some (EConst a sa); Some (EConst b sb)] attr params
  = Some <$> convert_attributes [Some data]
               (odict.set (odict.set attr "max" vb) "min" va) params ∧
  Clip__impl_v11 convert_attributes numpy_item
    [Some data; Some (EConst a sa); mx] attr params
  = Ok (Some data) ∧
  Clip__impl_v11 convert_attributes numpy_item
    [Some data; mn; Some (EConst b sb)] attr params
  = Ok (apply_bound "maximum" (Some data) mn).
Proof.
  intros Ha Hb Hmn Hmx Hmin Hmax. split_and!.
  - unfold Clip__impl_v11.
    change (Py.len [Some data; Some (EConst a sa); Some (EConst b sb)] =? 3) with true.
    cbn match.
    rewrite (take_constant_constant "max" 2 _ [Some data; Some (EConst a sa)] attr b sb vb)
      by done.
    rewrite result_bind_Ok. cbn beta iota.
    change (2 <=? Py.len [Some data; Some (EConst a sa)]) with true. cbn match.
    rewrite (take_constant_constant "min" 1 _ [Some data] _ a sa va) by done.
    rewrite result_bind_Ok. cbn beta iota.
    rewrite !mem_set, Hmin, Hmax. reflexivity.
  - unfold Clip__impl_v11.
    change (Py.len [Some data; Some (EConst a sa); mx] =? 3) with true. cbn match.
    rewrite (take_constant_dynamic "max" 2 _ attr mx) by done.
    rewrite result_bind_Ok. cbn beta iota.
    change (2 <=? Py.len [Some data; Some (EConst a sa); mx]) with true. cbn match.
    rewrite (take_constant_constant "min" 1 _ [Some data] _ a sa va) by done.
    rewrite result_bind_Ok. cbn beta iota.
    rewrite !mem_set, Hmin, Hmax. cbn. apply clip_inputs_1.
  - unfold Clip__impl_v11.
    change (Py.len [Some data; mn; Some (EConst b sb)] =? 3) with true. cbn match.
    rewrite (take_constant_constant "max" 2 _ [Some data; mn] attr b sb vb) by done.
    rewrite result_bind_Ok. cbn beta iota.
    change (2 <=? Py.len [Some data; mn]) with true. cbn match.
    rewrite (take_constant_dynamic "min" 1 _ _ mn) by done.
    rewrite result_bind_Ok. cbn beta iota.
    rewrite !mem_set, Hmin. cbn. apply clip_inputs_2.
Qed.

End Clip_facts.

Lemma Clip_dynamic_bounds_witness :
  let convert (inputs : list (option expr)) (attr : odict.t attr_value)
        (params : odict.t NDArray) := Ok (relay_op "clip" [] (as_expr <$> inputs)) in
  let item (a : NDArray) := Ok (AFloat (default 0 (head (nd_data a)))) in
  Clip__impl_v11 convert item [Some (EVar Demo.x)] [] [] = Ok (Some (EVar Demo.x)) ∧
  Clip__impl_v11 convert item [Some (EVar Demo.x); None] [] []
  = Ok (apply_bound "maximum" (Some (EVar Demo.x)) None) ∧
  Clip__impl_v11 convert item [Some (EVar Demo.x); None; Some (EVar Demo.c)] [] []
  = Ok (apply_bound "minimum" (apply_bound "maximum" (Some (EVar Demo.x)) None)
          (Some (EVar Demo.c))).
Proof.
  intros convert item.
  apply (Clip_dynamic_bounds convert item (EVar Demo.x) None (Some (EVar Demo.c)) [] []);
    reflexivity.
Defined.

Lemma Clip_constant_bounds_witness :
  let convert (inputs : list (option expr)) (attr : odict.t attr_value)
        (params : odict.t NDArray) := Ok (relay_op "clip" [] (as_expr <$> inputs)) in
  let item (a : NDArray) := Ok (AFloat (default 0 (head (nd_data a)))) in
  let lo := {| nd_shape := []; nd_dtype := "float32"; nd_data := [0] |} in
  let hi := {| nd_shape := []; nd_dtype := "float32"; nd_data := [6] |} in
  Clip__impl_v11 convert item
    [Some (EVar Demo.x); Some (EConst lo None); Some (EConst hi None)] [] []
  = Some <$> convert [Some (EVar Demo.x)]
               (odict.set (odict.set [] "max" (AFloat 6)) "min" (AFloat 0)) [] ∧
  Clip__impl_v11 convert item
    [Some (EVar Demo.x); Some (EConst lo None); Some (EVar Demo.c)] [] []
  = Ok (Some (EVar Demo.x)) ∧
  Clip__impl_v11 convert item
    [Some (EVar Demo.x); Some (EVar Demo.c); Some (EConst hi None)] [] []
  = Ok (apply_bound "maximum" (Some (EVar Demo.x)) (Some (EVar Demo.c))).
Proof.
  intros convert item lo hi.
  apply (Clip_constant_bounds convert item (EVar Demo.x) lo hi None None
           (AFloat 0) (AFloat 6) (Some (EVar Demo.c)) (Some (EVar Demo.c)) [] []);
    reflexivity.
Defined.
